(** * BLINK DB: a shallow embedding of the storage engines and the RESP server

    The development follows the layout of the repository.

    - [LRUCache], [DiskStorage] and [StorageEngine] come from
      [part-b/src/storage_engine.h]; [Server] comes from
      [part-b/src/network_server.cpp].
    - [PartA] comes from [part-a/src/storage_engine.cpp], the engine with the
      binary log [data.dat] and the index [index.dat]; [Repl] comes from
      [part-a/src/repl.cpp].
    - [NetworkClient] comes from [part-b/src/network_client.cpp] and
      [BenchmarkClient] from [part-b/benchmark.cpp].

    A [std::string] is a [string] (a list of 8-bit characters), an
    [unordered_map] or [map] with string keys is a [gmap string _], the
    hand-written doubly linked list of the cache is a heap of nodes addressed
    by numbers, with [None] for [nullptr]. *)

From Stdlib Require Import ZArith Ascii String List Lia Bool DecimalString DecimalNat.
From stdpp Require Import gmap strings list fin_maps.

Open Scope string_scope.

(** ** Outcomes of a C++ computation *)

(** [UB] is undefined behaviour (a null or dangling pointer is dereferenced, a
    signed addition overflows, an uninitialised variable is read, two threads
    race on an object); [Throw] is a C++ exception that nothing in the
    repository catches before [main]. *)
Inductive result (A : Type) : Type :=
  | Ok (a : A)
  | UB
  | Throw.
Arguments Ok {A} a.
Arguments UB {A}.
Arguments Throw {A}.

Definition is_ok {A} (r : result A) : bool :=
  match r with Ok _ => true | _ => false end.

(** A sequence of steps, stopping at the first that is not [Ok]. *)
Fixpoint run_list {S A} (step : A -> S -> result S) (ops : list A) (s : S)
  : result S :=
  match ops with
  | [] => Ok s
  | o :: ops' => match step o s with
                 | Ok s' => run_list step ops' s'
                 | UB => UB
                 | Throw => Throw
                 end
  end.

(** ** Strings

    [std::string] operations used by the two programs. *)

Definition CR : ascii := "013"%char.
Definition LF : ascii := "010"%char.
Definition crlf : string := String CR (String LF "").
Definition newline : string := String LF "".

(** [s.substr(0, n)] *)
Fixpoint substr_to (n : nat) (s : string) : string :=
  match n, s with
  | S n', String c s' => String c (substr_to n' s')
  | _, _ => ""
  end.

(** [s.substr(n)], for [n <= s.length()] *)
Fixpoint substr_from (n : nat) (s : string) : string :=
  match n, s with
  | S n', String _ s' => substr_from n' s'
  | _, _ => s
  end.

Definition starts_crlf (s : string) : bool :=
  match s with
  | String c (String c' _) => Ascii.eqb c CR && Ascii.eqb c' LF
  | _ => false
  end.

(** [s.find("\r\n")], [None] for [npos] *)
Fixpoint find_crlf (s : string) : option nat :=
  if starts_crlf s then Some 0
  else match s with
       | String _ s' => S <$> find_crlf s'
       | EmptyString => None
       end.

(** [s.find(c)] *)
Fixpoint find_char (c : ascii) (s : string) : option nat :=
  match s with
  | String c' s' => if Ascii.eqb c' c then Some 0 else S <$> find_char c s'
  | EmptyString => None
  end.

(** [isspace] in the "C" locale *)
Definition isspace (c : ascii) : bool :=
  let n := N_of_ascii c in
  (n =? 32)%N || ((9 <=? n)%N && (n <=? 13)%N).

Definition isdigit (c : ascii) : bool :=
  let n := N_of_ascii c in (48 <=? n)%N && (n <=? 57)%N.

(** [toupper] in the "C" locale *)
Definition toupper (c : ascii) : ascii :=
  let n := N_of_ascii c in
  if (97 <=? n)%N && (n <=? 122)%N then ascii_of_N (n - 32) else c.

Fixpoint upper (s : string) : string :=
  match s with
  | String c s' => String (toupper c) (upper s')
  | EmptyString => ""
  end.

Fixpoint skip_ws (s : string) : string :=
  match s with
  | String c s' => if isspace c then skip_ws s' else s
  | EmptyString => ""
  end.

Fixpoint word (s : string) : string * string :=
  match s with
  | String c s' =>
      if isspace c then ("", s)
      else let (w, r) := word s' in (String c w, r)
  | EmptyString => ("", "")
  end.

(** [iss >> x] on a [std::istringstream] whose unread part is [s]: the token
    read into [x] (empty when the extraction fails) and the new unread part. *)
Definition extract (s : string) : string * string := word (skip_ws s).

(** [std::to_string] of a [size_t] *)
Definition to_string (n : nat) : string :=
  NilEmpty.string_of_uint (Nat.to_uint n).

Definition INT_MAX : Z := 2147483647.
Definition INT_MIN : Z := -2147483648.

Fixpoint digits (acc : Z) (s : string) : Z :=
  match s with
  | String c s' =>
      if isdigit c then digits (acc * 10 + (Z.of_N (N_of_ascii c) - 48)) s'
      else acc
  | EmptyString => acc
  end.

(** [std::stoi(s)]: leading white space, an optional sign, then the longest
    run of decimal digits; [None] when it throws ([std::invalid_argument]
    without a digit, [std::out_of_range] outside [int]). *)
Definition stoi (s : string) : option Z :=
  let s1 := skip_ws s in
  let '(neg, s2) :=
    match s1 with
    | String c r =>
        if Ascii.eqb c "-" then (true, r)
        else if Ascii.eqb c "+" then (false, r)
        else (false, s1)
    | EmptyString => (false, s1)
    end in
  match s2 with
  | String c _ =>
      if isdigit c then
        let v := digits 0 s2 in
        let v' := if neg then (- v)%Z else v in
        if (INT_MIN <=? v')%Z && (v' <=? INT_MAX)%Z then Some v' else None
      else None
  | EmptyString => None
  end.

(** [std::getline(stream, value, delim)] on a stream whose unread part is [s]:
    the characters before the first [delim], or all of them when there is
    none. *)
Definition getline (delim : ascii) (s : string) : string :=
  match find_char delim s with
  | Some pos => substr_to pos s
  | None => s
  end.

(** ** The LRU cache of part-b *)

Module LRUCache.

Definition ptr := option nat.

Record Node := mkNode {
  key : string;
  value : string;
  prev : ptr;
  next : ptr
}.

(** [heap] holds the live nodes; [brk] is the next address [new Node] returns.
    Addresses are never reused, so a pointer to a deleted node never aliases a
    later allocation. *)
Record t := mk {
  capacity_ : nat;
  cache_ : gmap string nat;
  head_ : ptr;
  tail_ : ptr;
  heap : gmap nat Node;
  brk : nat
}.

Definition M (A : Type) : Type := t -> result (A * t).

Definition ret {A} (a : A) : M A := fun s => Ok (a, s).

Definition bind {A B} (m : M A) (f : A -> M B) : M B :=
  fun s => match m s with
           | Ok (a, s') => f a s'
           | UB => UB
           | Throw => Throw
           end.

Notation "x <- m ;; k" := (bind m (fun x => k))
  (at level 100, m at next level, right associativity).
Notation "m ;;; k" := (bind m (fun _ => k))
  (at level 100, k at level 200, right associativity).

(** Reading a field through a pointer: [p->f]. *)
Definition deref (p : ptr) : M Node :=
  fun s => match p with
           | None => UB
           | Some a => match heap s !! a with
                       | Some n => Ok (n, s)
                       | None => UB
                       end
           end.

Definition upd_heap (f : gmap nat Node -> gmap nat Node) (s : t) : t :=
  mk (capacity_ s) (cache_ s) (head_ s) (tail_ s) (f (heap s)) (brk s).

(** Writing a field through a pointer: [p->f = x]. *)
Definition store (p : ptr) (f : Node -> Node) : M unit :=
  fun s => match p with
           | None => UB
           | Some a => match heap s !! a with
                       | Some n => Ok (tt, upd_heap (insert a (f n)) s)
                       | None => UB
                       end
           end.

Definition set_prev (q : ptr) (n : Node) := mkNode (key n) (value n) q (next n).
Definition set_next (q : ptr) (n : Node) := mkNode (key n) (value n) (prev n) q.
Definition set_value (v : string) (n : Node) := mkNode (key n) v (prev n) (next n).

Definition get_head : M ptr := fun s => Ok (head_ s, s).
Definition get_tail : M ptr := fun s => Ok (tail_ s, s).
Definition set_head (p : ptr) : M unit :=
  fun s => Ok (tt, mk (capacity_ s) (cache_ s) p (tail_ s) (heap s) (brk s)).
Definition set_tail (p : ptr) : M unit :=
  fun s => Ok (tt, mk (capacity_ s) (cache_ s) (head_ s) p (heap s) (brk s)).

Definition find (k : string) : M (option nat) := fun s => Ok (cache_ s !! k, s).
Definition map_erase (k : string) : M unit :=
  fun s => Ok (tt, mk (capacity_ s) (delete k (cache_ s)) (head_ s) (tail_ s)
                      (heap s) (brk s)).
Definition map_insert (k : string) (a : nat) : M unit :=
  fun s => Ok (tt, mk (capacity_ s) (<[k := a]> (cache_ s)) (head_ s) (tail_ s)
                      (heap s) (brk s)).

(** [new Node(k, v)] *)
Definition new_node (k v : string) : M nat :=
  fun s => Ok (brk s, mk (capacity_ s) (cache_ s) (head_ s) (tail_ s)
                         (<[brk s := mkNode k v None None]> (heap s))
                         (S (brk s))).

(** [delete p] *)
Definition delete_node (p : ptr) : M unit :=
  fun s => match p with
           | None => Ok (tt, s)
           | Some a => match heap s !! a with
                       | Some _ => Ok (tt, upd_heap (delete a) s)
                       | None => UB
                       end
           end.

Definition capacity (s : t) : nat := capacity_ s.
Definition size (s : t) : nat := base.size (cache_ s).

(** [LRUCache(size_t capacity)] *)
Definition create (c : nat) : t := mk c ∅ None None ∅ 0.

Definition move_to_front (node : nat) : M unit :=
  h <- get_head ;;
  if decide (Some node = h) then ret tt else
  tl <- get_tail ;;
  (if decide (Some node = tl) then
     n <- deref (Some node) ;;
     set_tail (prev n) ;;;
     tl' <- get_tail ;;
     store tl' (set_next None)
   else
     n <- deref (Some node) ;;
     store (prev n) (set_next (next n)) ;;;
     n' <- deref (Some node) ;;
     store (next n') (set_prev (prev n'))) ;;;
  store (Some node) (set_prev None) ;;;
  h' <- get_head ;;
  store (Some node) (set_next h') ;;;
  store h' (set_prev (Some node)) ;;;
  set_head (Some node).

Definition evict_lru : M unit :=
  tl <- get_tail ;;
  match tl with
  | Some _ =>
      n <- deref tl ;;
      map_erase (key n) ;;;
      set_tail (prev n) ;;;
      tl' <- get_tail ;;
      (match tl' with
       | Some _ => store tl' (set_next None)
       | None => ret tt
       end) ;;;
      delete_node tl
  | None => ret tt
  end.

(** [bool get(key, value&)]: [Some v] for [true] with [value = v]. *)
Definition get (k : string) : M (option string) :=
  it <- find k ;;
  match it with
  | Some node =>
      move_to_front node ;;;
      n <- deref (Some node) ;;
      ret (Some (value n))
  | None => ret None
  end.

Definition put (k v : string) : M bool :=
  it <- find k ;;
  match it with
  | Some node =>
      store (Some node) (set_value v) ;;;
      move_to_front node ;;;
      ret true
  | None =>
      (fun s => (if (capacity_ s <=? size s)%nat then evict_lru else ret tt) s) ;;;
      new <- new_node k v ;;
      map_insert k new ;;;
      h <- get_head ;;
      (match h with
       | None => set_head (Some new) ;;; set_tail (Some new)
       | Some _ =>
           store (Some new) (set_next h) ;;;
           store h (set_prev (Some new)) ;;;
           set_head (Some new)
       end) ;;;
      ret true
  end.

Definition remove (k : string) : M bool :=
  it <- find k ;;
  match it with
  | Some node =>
      h <- get_head ;;
      tl <- get_tail ;;
      n <- deref (Some node) ;;
      (if decide (Some node = h) then
         set_head (next n) ;;;
         h' <- get_head ;;
         match h' with
         | Some _ => store h' (set_prev None)
         | None => set_tail None
         end
       else if decide (Some node = tl) then
         set_tail (prev n) ;;;
         tl' <- get_tail ;;
         match tl' with
         | Some _ => store tl' (set_next None)
         | None => ret tt
         end
       else
         store (prev n) (set_next (next n)) ;;;
         n' <- deref (Some node) ;;
         store (next n') (set_prev (prev n'))) ;;;
      map_erase k ;;;
      delete_node (Some node) ;;;
      ret true
  | None => ret false
  end.

(** The recency order, most recent first, read off the heap from [head_]
    along [next]; [fuel] bounds the walk. *)
Fixpoint walk (fuel : nat) (h : gmap nat Node) (p : ptr) : list (string * string) :=
  match fuel, p with
  | S f, Some a =>
      match h !! a with
      | Some n => (key n, value n) :: walk f h (next n)
      | None => []
      end
  | _, _ => []
  end.

Definition recency (s : t) : list (string * string) :=
  walk (S (base.size (heap s))) (heap s) (head_ s).

End LRUCache.


(** ** The key=value text file of part-b *)

Module DiskStorage.

(** [data_] is the in-memory map; [file] is the content of
    [disk_storage/data.txt] (empty when the file does not exist). *)
Record t := mk {
  data_ : gmap string string;
  file : string
}.

Definition line_of (kv : string * string) : string :=
  kv.1 ++ "=" ++ kv.2 ++ newline.

Fixpoint write_lines (l : list (string * string)) : string :=
  match l with
  | [] => ""
  | kv :: l' => line_of kv ++ write_lines l'
  end.

(** The lines [std::getline] returns until it fails at the end of the file. *)
Fixpoint split_lines (s : string) : list string :=
  match s with
  | EmptyString => []
  | String c s' =>
      if Ascii.eqb c LF then "" :: split_lines s'
      else match split_lines s' with
           | [] => [String c ""]
           | l :: ls => String c l :: ls
           end
  end.

Definition load_line (m : gmap string string) (line : string) : gmap string string :=
  match find_char "=" line with
  | Some pos => <[substr_to pos line := substr_from (pos + 1) line]> m
  | None => m
  end.

Definition load_data (f : string) : gmap string string :=
  fold_left load_line (split_lines f) ∅.

(** [save_data] walks [data_], an [unordered_map], in an unspecified order;
    [map_to_list] stands for that order. *)
Definition save_data (d : t) : t :=
  mk (data_ d) (write_lines (map_to_list (data_ d))).

(** [DiskStorage()] in a directory whose [data.txt] holds [f] *)
Definition create (f : string) : t := mk (load_data f) f.

(** [~DiskStorage()] *)
Definition destroy (d : t) : t := save_data d.

Definition get (k : string) (d : t) : option string := data_ d !! k.

Definition put (k v : string) (d : t) : t :=
  save_data (mk (<[k := v]> (data_ d)) (file d)).

Definition remove (k : string) (d : t) : t :=
  save_data (mk (delete k (data_ d)) (file d)).

End DiskStorage.

(** ** The storage engine of part-b *)

Module StorageEngine.

(** [in_flight] is the pair the writer thread holds in its local variables
    between [write_queue_.pop()] under the lock and the [disk_storage_->put]
    after [lock.unlock()]. *)
Record t := mk {
  cache_ : LRUCache.t;
  disk_storage_ : DiskStorage.t;
  write_queue_ : list (string * string);
  in_flight : option (string * string);
  running_ : bool
}.

Definition with_cache (c : LRUCache.t) (s : t) : t :=
  mk c (disk_storage_ s) (write_queue_ s) (in_flight s) (running_ s).
Definition with_disk (d : DiskStorage.t) (s : t) : t :=
  mk (cache_ s) d (write_queue_ s) (in_flight s) (running_ s).

(** [StorageEngine(size_t cache_size = 1)] with [data.txt] holding [f] *)
Definition create (cache_size : nat) (f : string) : t :=
  mk (LRUCache.create cache_size) (DiskStorage.create f) [] None true.

(** [bool get(const std::string& key, std::string& value)] *)
Definition get2 (k : string) (s : t) : result (option string * t) :=
  match LRUCache.get k (cache_ s) with
  | Ok (Some v, c) => Ok (Some v, with_cache c s)
  | Ok (None, c) =>
      match DiskStorage.get k (disk_storage_ s) with
      | Some v =>
          match LRUCache.put k v c with
          | Ok (_, c') => Ok (Some v, with_cache c' s)
          | UB => UB
          | Throw => Throw
          end
      | None => Ok (None, with_cache c s)
      end
  | UB => UB
  | Throw => Throw
  end.

(** [std::string get(const std::string& key)] *)
Definition get (k : string) (s : t) : result (string * t) :=
  match get2 k s with
  | Ok (Some v, s') => Ok (v, s')
  | Ok (None, s') => Ok ("", s')
  | UB => UB
  | Throw => Throw
  end.

Definition put (k v : string) (s : t) : result (bool * t) :=
  match LRUCache.put k v (cache_ s) with
  | Ok (true, c) =>
      Ok (true, mk c (disk_storage_ s) (write_queue_ s ++ [(k, v)])%list
                   (in_flight s) (running_ s))
  | Ok (false, c) =>
      Ok (true, mk c (DiskStorage.put k v (disk_storage_ s)) (write_queue_ s)
                   (in_flight s) (running_ s))
  | UB => UB
  | Throw => Throw
  end.

Definition set (k v : string) (s : t) : result (bool * t) := put k v s.

Definition del (k : string) (s : t) : result (bool * t) :=
  match LRUCache.get k (cache_ s) with
  | Ok (hit, c) =>
      match
        (match hit with
         | Some _ =>
             match LRUCache.remove k c with
             | Ok (_, c') => Ok (true, c')
             | UB => UB
             | Throw => Throw
             end
         | None => Ok (false, c)
         end)
      with
      | Ok (ex, c') =>
          match DiskStorage.get k (disk_storage_ s) with
          | Some _ =>
              Ok (true, mk c' (DiskStorage.remove k (disk_storage_ s))
                           (write_queue_ s) (in_flight s) (running_ s))
          | None => Ok (ex, with_cache c' s)
          end
      | UB => UB
      | Throw => Throw
      end
  | UB => UB
  | Throw => Throw
  end.

(** The writer thread has nothing to do: it holds no pair, and it is either
    joined or blocked in [write_cv_.wait] on the empty queue. *)
Definition writer_idle (s : t) : bool :=
  match in_flight s with
  | Some _ => false
  | None =>
      negb (running_ s) || match write_queue_ s with [] => true | _ :: _ => false end
  end.

(** [clear()]: the new [DiskStorage] is constructed, loading [data.txt],
    before the old one is destroyed, which saves its map. The function takes
    no lock: this is what it does when the writer thread is idle, and its
    callers in this development ([Server.process_command], [EngineSpec.step])
    make it undefined when the thread is not. *)
Definition clear (s : t) : t :=
  let fresh := DiskStorage.create (DiskStorage.file (disk_storage_ s)) in
  let old := DiskStorage.destroy (disk_storage_ s) in
  mk (LRUCache.create (LRUCache.capacity (cache_ s)))
     (DiskStorage.mk (DiskStorage.data_ fresh) (DiskStorage.file old))
     (write_queue_ s) (in_flight s) (running_ s).

Definition force_flush (s : t) : t :=
  mk (cache_ s)
     (fold_left (fun d kv => DiskStorage.put kv.1 kv.2 d) (write_queue_ s)
                (disk_storage_ s))
     [] (in_flight s) (running_ s).

Definition sync (s : t) : t := force_flush s.

Definition size (s : t) : nat := LRUCache.size (cache_ s).

Definition pending_write_count (s : t) : nat := length (write_queue_ s).

(** One turn of [async_write_worker] up to [lock.unlock()]: the front of the
    queue moves to the thread's locals. [None] when the thread cannot take
    this step. *)
Definition worker_pop (s : t) : option t :=
  match running_ s, in_flight s, write_queue_ s with
  | true, None, kv :: q =>
      Some (mk (cache_ s) (disk_storage_ s) q (Some kv) true)
  | _, _, _ => None
  end.

(** The rest of the turn: [disk_storage_->put(key, value)]. *)
Definition worker_write (s : t) : option t :=
  match in_flight s with
  | Some kv =>
      Some (mk (cache_ s) (DiskStorage.put kv.1 kv.2 (disk_storage_ s))
               (write_queue_ s) None (running_ s))
  | None => None
  end.

(** [stop_async_writer()]: [join] lets the thread finish the write it holds. *)
Definition stop_async_writer (s : t) : t :=
  let s' := match worker_write s with Some s' => s' | None => s end in
  mk (cache_ s') (disk_storage_ s') (write_queue_ s') None false.

(** [~StorageEngine()]: the writer thread is stopped and joined when it still
    runs; then the members are destroyed, [~DiskStorage()] saves the map and
    the queue is discarded with the object. *)
Definition destroy (s : t) : t :=
  let s := if running_ s then stop_async_writer s else s in
  with_disk (DiskStorage.destroy (disk_storage_ s)) s.

End StorageEngine.

(** ** The server of part-b, one client connection *)

Module Server.

Record t := mk {
  storage : StorageEngine.t;
  should_stop : bool;
  client_buffer : string
}.

Definition with_storage (e : StorageEngine.t) (s : t) : t :=
  mk e (should_stop s) (client_buffer s).
Definition with_buffer (b : string) (s : t) : t :=
  mk (storage s) (should_stop s) b.

(** [Server()]: [storage(std::make_unique<StorageEngine>())], so the cache
    has the default capacity 1. *)
Definition create (f : string) : t := mk (StorageEngine.create 1 f) false "".

Definition bulk (v : string) : string :=
  "$" ++ to_string (String.length v) ++ crlf ++ v ++ crlf.

Definition process_command (command : string) (s : t) : result (string * t) :=
  let (cmd, iss) := extract command in
  let upper_cmd := upper cmd in
  if String.eqb upper_cmd "PING" then Ok ("+PONG" ++ crlf, s)
  else if String.eqb upper_cmd "SET" then
    let (key, iss) := extract iss in
    let (value, iss) := extract iss in
    if String.eqb key "" || String.eqb value "" then
      Ok ("-ERR wrong number of arguments for 'set' command" ++ crlf, s)
    else
      match StorageEngine.set key value (storage s) with
      | Ok (true, e) => Ok ("+OK" ++ crlf, with_storage e s)
      | Ok (false, e) => Ok ("-ERR invalid key or value" ++ crlf, with_storage e s)
      | UB => UB
      | Throw => Throw
      end
  else if String.eqb upper_cmd "GET" then
    let (key, iss) := extract iss in
    if String.eqb key "" then
      Ok ("-ERR wrong number of arguments for 'get' command" ++ crlf, s)
    else
      match StorageEngine.get key (storage s) with
      | Ok (value, e) =>
          if String.eqb value "" then Ok ("$-1" ++ crlf, with_storage e s)
          else Ok (bulk value, with_storage e s)
      | UB => UB
      | Throw => Throw
      end
  else if String.eqb upper_cmd "DEL" then
    let (key, iss) := extract iss in
    if String.eqb key "" then
      Ok ("-ERR wrong number of arguments for 'del' command" ++ crlf, s)
    else
      match StorageEngine.del key (storage s) with
      | Ok (true, e) => Ok (":1" ++ crlf, with_storage e s)
      | Ok (false, e) => Ok (":0" ++ crlf, with_storage e s)
      | UB => UB
      | Throw => Throw
      end
  else if String.eqb upper_cmd "CLEAR" || String.eqb upper_cmd "FLUSHALL"
          || String.eqb upper_cmd "FLUSHDB" then
    if StorageEngine.writer_idle (storage s)
    then Ok ("+OK" ++ crlf, with_storage (StorageEngine.clear (storage s)) s)
    else UB
  else if String.eqb upper_cmd "EXIT" then
    Ok ("+OK" ++ crlf,
        mk (StorageEngine.stop_async_writer (storage s)) true (client_buffer s))
  else Ok ("-ERR unknown command '" ++ cmd ++ "'" ++ crlf, s).

(** The [for] loop over the elements of an array frame: [n] iterations are
    left, [args] holds the elements read so far. The result is the buffer,
    the arguments and the flag [complete]. *)
Fixpoint parse_args (n : nat) (buf : string) (args : list string)
  : result (string * list string * bool) :=
  match n with
  | O => Ok (buf, args, true)
  | S n' =>
      match find_crlf buf with
      | None => Ok (buf, args, false)
      | Some pos =>
          let line := substr_to pos buf in
          let buf := substr_from (pos + 2) buf in
          match line with
          | String "$" rest =>
              match stoi rest with
              | None => Throw
              | Some len =>
                  if (len <? 0)%Z then parse_args n' buf (args ++ [""])%list
                  else if (INT_MAX - 2 <? len)%Z then UB
                  else if (String.length buf <? Z.to_nat (len + 2))%nat
                  then Ok (buf, args, false)
                  else parse_args n' (substr_from (Z.to_nat (len + 2)) buf)
                                  (args ++ [substr_to (Z.to_nat len) buf])%list
              end
          | _ => Ok (buf, args, false)
          end
      end
  end.

(** [command = args[0] + " " + args[1] + ...] *)
Definition join_args (args : list string) : string :=
  match args with
  | [] => ""
  | a :: rest => fold_left (fun c x => c ++ " " ++ x) rest a
  end.

(** The [while (true)] loop of [handle_client_data] on the connection's
    buffer; [out] collects the responses written to the socket. Every turn
    that does not leave the loop removes a line from the buffer, so [fuel]
    above the buffer's length is never used up. *)
Fixpoint process_buffer (fuel : nat) (s : t) (out : list string)
  : result (t * list string) :=
  match fuel with
  | O => Ok (s, out)
  | S fuel' =>
      match find_crlf (client_buffer s) with
      | None => Ok (s, out)
      | Some pos =>
          let line := substr_to pos (client_buffer s) in
          let s := with_buffer (substr_from (pos + 2) (client_buffer s)) s in
          match line with
          | EmptyString => process_buffer fuel' s out
          | String "*" rest =>
              match stoi rest with
              | None => Throw
              | Some num_args =>
                  match parse_args (Z.to_nat num_args) (client_buffer s) [] with
                  | Ok (buf, args, complete) =>
                      let s := with_buffer buf s in
                      if negb complete then Ok (s, out)
                      else
                        match args with
                        | [] => process_buffer fuel' s out
                        | _ :: _ =>
                            match process_command (join_args args) s with
                            | Ok (response, s) =>
                                process_buffer fuel' s (out ++ [response])%list
                            | UB => UB
                            | Throw => Throw
                            end
                        end
                  | UB => UB
                  | Throw => Throw
                  end
              end
          | _ =>
              match process_command line s with
              | Ok (response, s) => process_buffer fuel' s (out ++ [response])%list
              | UB => UB
              | Throw => Throw
              end
          end
      end
  end.

(** [char buffer[4096]]: the most that one [read] returns. *)
Definition BUFFER_SIZE : nat := 4096.

(** One successful [read] of [handle_client_data], which returned [chunk]:
    the bytes are appended to the connection's buffer and the complete
    commands are processed. The source calls [read] with [sizeof(buffer)], so
    the chunks it sees hold at most [BUFFER_SIZE] bytes; what it does with
    more bytes than that is [handle_client_data] below. *)
Definition handle_read (chunk : string) (s : t) : result (t * list string) :=
  let s := with_buffer (client_buffer s ++ chunk) s in
  process_buffer (S (String.length (client_buffer s))) s [].

(** The loop [while ((bytes_read = read(...)) > 0)] on a socket in which
    [avail] has arrived: each [read] takes what is there, up to [BUFFER_SIZE]
    bytes, and the complete commands are processed before the next [read];
    the loop ends when the socket is drained. Every turn takes at least one
    byte, so [fuel] of the length of [avail] is never used up. *)
Fixpoint read_loop (fuel : nat) (avail : string) (s : t) (out : list string)
  : result (t * list string) :=
  match avail, fuel with
  | EmptyString, _ => Ok (s, out)
  | _, O => Ok (s, out)
  | _, S fuel' =>
      match handle_read (substr_to BUFFER_SIZE avail) s with
      | Ok (s', out') =>
          read_loop fuel' (substr_from BUFFER_SIZE avail) s' (out ++ out')%list
      | UB => UB
      | Throw => Throw
      end
  end.

Definition handle_client_data (avail : string) (s : t) : result (t * list string) :=
  read_loop (String.length avail) avail s [].

(** What reaches the server: the bytes one [read] returned (at most
    [BUFFER_SIZE] of them in a run of the source), or a step of the writer
    thread between two reads. *)
Inductive event :=
  | Read (chunk : string)
  | WorkerPop
  | WorkerWrite.

Definition step (e : event) (so : t * list string) : result (t * list string) :=
  let (s, out) := so in
  match e with
  | Read chunk =>
      match handle_read chunk s with
      | Ok (s', out') => Ok (s', (out ++ out')%list)
      | UB => UB
      | Throw => Throw
      end
  | WorkerPop =>
      match StorageEngine.worker_pop (storage s) with
      | Some e' => Ok (with_storage e' s, out)
      | None => Ok (s, out)
      end
  | WorkerWrite =>
      match StorageEngine.worker_write (storage s) with
      | Some e' => Ok (with_storage e' s, out)
      | None => Ok (s, out)
      end
  end.

(** [Server::encode_resp] *)
Definition encode_resp (response : string) : string :=
  if match response with
     | String c _ =>
         Ascii.eqb c "+" || Ascii.eqb c "-" || Ascii.eqb c ":" || Ascii.eqb c "$"
         || Ascii.eqb c "*"
     | EmptyString => false
     end
  then response
  else if String.eqb response "NULL" then "$-1" ++ crlf
  else if String.eqb response "PONG" then "+PONG" ++ crlf
  else if String.eqb response "OK" then "+OK" ++ crlf
  else if String.eqb (substr_to 6 response) "Error:" then "-" ++ response ++ crlf
  else if String.eqb (substr_to 2 response) "# " then
    "$" ++ to_string (String.length response) ++ crlf ++ response ++ crlf
  else "$" ++ to_string (String.length response) ++ crlf ++ response ++ crlf.

End Server.

(** ** The storage engine of part-a: binary log and index *)

Module PartA.

Definition MAX_KEY_SIZE : N := 256.
Definition MAX_VALUE_SIZE : N := 1024.
Definition MAX_CACHE_SIZE : N := 10000000.

Module DiskEntry.
Record t := mk {
  offset : nat;
  size : nat
}.
End DiskEntry.

(** [data_file] is the content of [disk_storage/data.dat]. [index.dat] is
    rewritten from [disk_index] by [save_disk_index] after every change and
    read only by the constructor, so its bytes are left out of the state. *)
Record t := mk {
  data_ : gmap string string;
  access_order : list string;
  pending_writes : nat;
  disk_index : gmap string DiskEntry.t;
  write_buffer : list (string * string);
  data_file : string
}.

(** [StorageEngine()] in a directory without [index.dat]: both files are
    created empty. *)
Definition init : t := mk ∅ [] 0 ∅ [] "".

Definition byte (n : N) : string := String (ascii_of_N (n mod 256)) "".

(** The four bytes of a [uint32_t] in memory on a little-endian host, as
    [write(reinterpret_cast<const char*>(&x), sizeof(x))] emits them. *)
Definition u32_bytes (n : N) : string :=
  byte n ++ byte (n / 256) ++ byte (n / 65536) ++ byte (n / 16777216).

(** The value of a [uint32_t] initialised from a [size_t] *)
Definition to_u32 (n : nat) : N := (N.of_nat n mod 4294967296)%N.

Definition u32_of_bytes (b : string) : N :=
  match b with
  | String b0 (String b1 (String b2 (String b3 _))) =>
      (N_of_ascii b0 + 256 * N_of_ascii b1 + 65536 * N_of_ascii b2
       + 16777216 * N_of_ascii b3)%N
  | _ => 0%N
  end.

(** [infile.read(buf, n)] at position [pos]: the bytes and the new position,
    or [None] when fewer than [n] bytes are left and the stream fails. *)
Definition read_bytes (f : string) (pos n : nat) : option (string * nat) :=
  if (pos + n <=? String.length f)%nat
  then Some (substr_to n (substr_from pos f), (pos + n)%nat)
  else None.

Definition read_u32 (f : string) (pos : nat) : option (N * nat) :=
  match read_bytes f pos 4 with
  | Some (b, pos') => Some (u32_of_bytes b, pos')
  | None => None
  end.

(** The disk branch of [get], after [seekg(offset)]: [None] on each of the
    paths that log an error and [return ""]. *)
Definition read_record (f : string) (off : nat) (key : string) : option string :=
  match read_u32 f off with
  | None => None
  | Some (key_len, pos) =>
      if (MAX_KEY_SIZE <? key_len)%N then None
      else
        match read_bytes f pos (N.to_nat key_len) with
        | None => None
        | Some (stored_key, pos) =>
            if negb (String.eqb stored_key key) then None
            else
              match read_u32 f pos with
              | None => None
              | Some (value_len, pos) =>
                  if (MAX_VALUE_SIZE <? value_len)%N then None
                  else
                    match read_bytes f pos (N.to_nat value_len) with
                    | None => None
                    | Some (value, _) => Some value
                    end
              end
        end
  end.

(** One turn of the loop of [load_disk_index], for an entry [(key, e)] read
    from [index.dat]: the entry goes into [disk_index], and the value of the
    record at its offset is cached when the stream is still good after the
    last read. The stored key is skipped, not compared, and no length is
    checked. A read of one of the two length fields that fails leaves the
    [uint32_t] uninitialised, and the next statement uses it. *)
Definition load_entry (ke : string * DiskEntry.t) (s : t) : result t :=
  let (key, e) := ke in
  let idx := <[key := e]> (disk_index s) in
  match read_u32 (data_file s) (DiskEntry.offset e) with
  | None => UB
  | Some (stored_key_len, pos) =>
      match read_u32 (data_file s) (pos + N.to_nat stored_key_len) with
      | None => UB
      | Some (value_len, pos) =>
          match read_bytes (data_file s) pos (N.to_nat value_len) with
          | Some (value, _) =>
              Ok (mk (<[key := value]> (data_ s)) (access_order s ++ [key])%list
                     (pending_writes s) idx (write_buffer s) (data_file s))
          | None =>
              Ok (mk (data_ s) (access_order s) (pending_writes s) idx
                     (write_buffer s) (data_file s))
          end
      end
  end.

(** [StorageEngine()] in a directory where [index.dat] holds [entries] and
    [data.dat] holds [f]. *)
Definition load_disk_index (entries : list (string * DiskEntry.t)) (f : string)
  : result t :=
  run_list load_entry entries (mk ∅ [] 0 ∅ [] f).

(** [std::list::remove] *)
Definition list_remove (k : string) (l : list string) : list string :=
  filter (fun x => x ≠ k) l.

Definition get (key : string) (s : t) : string * t :=
  match data_ s !! key with
  | Some v =>
      (v, mk (data_ s) (list_remove key (access_order s) ++ [key])%list
             (pending_writes s) (disk_index s) (write_buffer s) (data_file s))
  | None =>
      match disk_index s !! key with
      | Some e =>
          match read_record (data_file s) (DiskEntry.offset e) key with
          | Some value =>
              (value, mk (<[key := value]> (data_ s))
                         (access_order s ++ [key])%list
                         (pending_writes s) (disk_index s) (write_buffer s)
                         (data_file s))
          | None => ("", s)
          end
      | None => ("", s)
      end
  end.

(** The bytes one turn of the loop of [flush_write_buffer] writes. *)
Definition write_entry (k v : string) : string :=
  let key_len := to_u32 (String.length k) in
  let value_len := to_u32 (String.length v) in
  u32_bytes key_len ++ substr_to (N.to_nat key_len) k
  ++ u32_bytes value_len ++ substr_to (N.to_nat value_len) v.

(** The loop of [flush_write_buffer] on the file opened for appending:
    [tellp()] is taken to be the length of the file. *)
Fixpoint flush_entries (buf : list (string * string)) (f : string)
    (idx : gmap string DiskEntry.t) : string * gmap string DiskEntry.t :=
  match buf with
  | [] => (f, idx)
  | (k, v) :: buf' =>
      let off := String.length f in
      let f' := f ++ write_entry k v in
      flush_entries buf' f'
        (<[k := DiskEntry.mk off (String.length f' - off)]> idx)
  end.

Definition flush_write_buffer (s : t) : t :=
  match write_buffer s with
  | [] => s
  | _ :: _ =>
      let (f, idx) := flush_entries (write_buffer s) (data_file s) (disk_index s) in
      mk (data_ s) (access_order s) 0 idx [] f
  end.

(** The eviction loop of [set]: [n] turns are left. *)
Fixpoint evict (n : nat) (order : list string) (d : gmap string string)
  : list string * gmap string string :=
  match n, order with
  | S n', oldest :: order' => evict n' order' (delete oldest d)
  | _, _ => (order, d)
  end.

Definition set (key value : string) (s : t) : bool * t :=
  let d := <[key := value]> (data_ s) in
  let order := (access_order s ++ [key])%list in
  let wb := (write_buffer s ++ [(key, value)])%list in
  let (order, d) :=
    if (MAX_CACHE_SIZE <? N.of_nat (base.size d))%N
    then evict (N.to_nat (MAX_CACHE_SIZE / 5)) order d
    else (order, d) in
  (true, flush_write_buffer
           (mk d order (S (pending_writes s)) (disk_index s) wb (data_file s))).

Definition del (key : string) (s : t) : bool * t :=
  match data_ s !! key, disk_index s !! key with
  | None, None => (false, s)
  | _, _ =>
      (true, mk (delete key (data_ s)) (list_remove key (access_order s))
                (pending_writes s) (delete key (disk_index s))
                (write_buffer s) (data_file s))
  end.

Definition clear (s : t) : t := mk ∅ [] 0 ∅ [] "".

Definition force_flush (s : t) : t := flush_write_buffer s.

Definition size (s : t) : nat :=
  (base.size (data_ s) + base.size (disk_index s))%nat.

End PartA.

(** ** The command-line client of part-b *)

Module NetworkClient.

(** The request [send_command] sends for a command line: an array of one
    bulk string that holds the whole line. *)
Definition resp_command (command : string) : string :=
  "*1" ++ crlf ++ "$" ++ to_string (String.length command) ++ crlf ++ command ++ crlf.

Fixpoint skip_digits (s : string) : string :=
  match s with
  | String c s' => if isdigit c then skip_digits s' else s
  | EmptyString => ""
  end.

(** [iss >> n] for an [int n] on a stream whose unread part is [s]. White
    space is skipped first; when nothing is left after it, the extraction
    ends there and nothing is stored in [n]: [None]. Otherwise the result is
    the value stored in [n], whether the extraction succeeded, and the new
    unread part: an optional sign and the decimal digits are read, without a
    digit 0 is stored, outside [int] the nearest bound is stored, and in both
    cases the stream fails. *)
Definition extract_int (s : string) : option (Z * bool * string) :=
  match skip_ws s with
  | EmptyString => None
  | String c r =>
      let s1 := String c r in
      let '(neg, s2) :=
        if Ascii.eqb c "-" then (true, r)
        else if Ascii.eqb c "+" then (false, r)
        else (false, s1) in
      match s2 with
      | String c _ =>
          if isdigit c then
            let v := digits 0 s2 in
            let v' := if neg then (- v)%Z else v in
            let rest := skip_digits s2 in
            if (v' <? INT_MIN)%Z then Some (INT_MIN, false, rest)
            else if (INT_MAX <? v')%Z then Some (INT_MAX, false, rest)
            else Some (v', true, rest)
          else Some (0%Z, false, s2)
      | EmptyString => Some (0%Z, false, s2)
      end
  end.

(** [std::to_string] of an [int] *)
Definition to_string_int (z : Z) : string :=
  if (z <? 0)%Z then "-" ++ to_string (Z.to_nat (- z)) else to_string (Z.to_nat z).

(** [parse_response]. When [iss >> type] finds no character, the [switch]
    reads [type] uninitialised; when [iss >> value] or [iss >> length] finds
    none, [std::to_string(value)] and [length == -1] read an uninitialised
    [int]. After an [iss >> length] that failed on a character the stream
    ignores [ignore] and [getline], and [value] stays empty. *)
Definition parse_response (resp : string) : result string :=
  match skip_ws resp with
  | EmptyString => UB
  | String type iss =>
      if Ascii.eqb type "+" then Ok (getline LF iss)
      else if Ascii.eqb type "-" then Ok ("Error: " ++ getline LF iss)
      else if Ascii.eqb type ":" then
        match extract_int iss with
        | Some (value, _, _) => Ok (to_string_int value)
        | None => UB
        end
      else if Ascii.eqb type "$" then
        match extract_int iss with
        | Some (length, ok, iss) =>
            if (length =? -1)%Z then Ok "NULL"
            else if ok then Ok (getline CR (substr_from 2 iss))
            else Ok ""
        | None => UB
        end
      else Ok "Unknown response type"
  end.

End NetworkClient.

(** ** The benchmark client of part-b *)

Module BenchmarkClient.

(** The loop [while (iss >> arg) args.push_back(arg)]; every turn consumes a
    character, so [fuel] above the length of [iss] is never used up. *)
Fixpoint read_args (fuel : nat) (iss : string) : list string :=
  match fuel with
  | O => []
  | S fuel' =>
      let (arg, iss') := extract iss in
      match arg with
      | EmptyString => []
      | String _ _ => arg :: read_args fuel' iss'
      end
  end.

(** The request [send_command] sends for a command line. *)
Definition resp_command (command : string) : string :=
  let args := read_args (S (String.length command)) command in
  fold_left
    (fun resp arg => resp ++ "$" ++ to_string (String.length arg) ++ crlf ++ arg ++ crlf)
    args ("*" ++ to_string (length args) ++ crlf).

End BenchmarkClient.

(** ** The REPL of part-a *)

Module Repl.

(** One turn of the loop of [main] on the line [std::getline] returned:
    [Exit] for [break], otherwise what the turn prints after the prompt and
    the engine it leaves. *)
Inductive outcome :=
  | Exit
  | Continue (out : string) (db : PartA.t).

Definition step (line : string) (db : PartA.t) : outcome :=
  if String.eqb line "" then Continue "" db
  else
    let (command, iss) := extract line in
    if String.eqb command "EXIT" then Exit
    else if String.eqb command "SET" then
      let (key, iss) := extract iss in
      let value := getline LF iss in
      let value := match value with
                   | String c value' => if Ascii.eqb c " " then value' else value
                   | EmptyString => value
                   end in
      if String.eqb key "" || String.eqb value "" then
        Continue ("Error: SET requires both key and value" ++ newline) db
      else
        let (ok, db') := PartA.set key value db in
        if ok then Continue ("OK" ++ newline) db'
        else Continue ("Error: Database is full" ++ newline) db'
    else if String.eqb command "GET" then
      let (key, iss) := extract iss in
      if String.eqb key "" then Continue ("Error: GET requires a key" ++ newline) db
      else
        let (value, db') := PartA.get key db in
        Continue (value ++ newline) db'
    else if String.eqb command "DEL" then
      let (key, iss) := extract iss in
      if String.eqb key "" then Continue ("Error: DEL requires a key" ++ newline) db
      else
        let (ok, db') := PartA.del key db in
        if ok then Continue ("OK" ++ newline) db'
        else Continue ("Error: Key does not exist" ++ newline) db'
    else if String.eqb command "SIZE" then
      Continue (to_string (PartA.size db) ++ newline) db
    else if String.eqb command "CLEAR" then
      Continue ("OK" ++ newline) (PartA.clear db)
    else Continue ("Unknown command. Type 'help' for usage." ++ newline) db.

End Repl.

(** ** Specification of the LRU cache *)

Close Scope string_scope.

Module LRUSpec.
Import LRUCache.

Abbreviation cell := (nat * (string * string))%type.

Definition hd_ptr (l : list cell) (q : ptr) : ptr :=
  match l with [] => q | c :: _ => Some c.1 end.

Definition last_ptr (l : list cell) (p : ptr) : ptr :=
  match last l with Some c => Some c.1 | None => p end.

Fixpoint dseg (h : gmap nat Node) (p : ptr) (l : list cell) (q : ptr) : Prop :=
  match l with
  | [] => True
  | c :: l' =>
      h !! c.1 = Some (mkNode c.2.1 c.2.2 p (hd_ptr l' q)) ∧ dseg h (Some c.1) l' q
  end.

Record wf_list (h : gmap nat Node) (hd tl : ptr) (l : list cell) : Prop := {
  wl_seg : dseg h None l None;
  wl_head : hd = hd_ptr l None;
  wl_tail : tl = last_ptr l None;
  wl_nodup : NoDup l.*1
}.

(** The first half of [move_to_front]: the node leaves the list. *)
Definition unlink (node : nat) : M unit :=
  tl <- get_tail ;;
  (if decide (Some node = tl) then
     n <- deref (Some node) ;;
     set_tail (prev n) ;;;
     tl' <- get_tail ;;
     store tl' (set_next None)
   else
     n <- deref (Some node) ;;
     store (prev n) (set_next (next n)) ;;;
     n' <- deref (Some node) ;;
     store (next n') (set_prev (prev n'))).

Record wf (s : t) (l : list cell) : Prop := {
  wf_links : wf_list (heap s) (head_ s) (tail_ s) l;
  wf_map : ∀ k a, cache_ s !! k = Some a ↔ ∃ v, (a, (k, v)) ∈ l;
  wf_brk : ∀ x, x ∈ l → x.1 < brk s
}.

(** The tail of [put] for a key that is not cached: allocate and link in front. *)
Definition push_front (k v : string) : M bool :=
  new <- new_node k v ;;
  map_insert k new ;;;
  h <- get_head ;;
  (match h with
   | None => set_head (Some new) ;;; set_tail (Some new)
   | Some _ =>
       store (Some new) (set_next h) ;;;
       store h (set_prev (Some new)) ;;;
       set_head (Some new)
   end) ;;;
  ret true.

(** The abstract cache: pairs in recency order, most recent first. *)
Fixpoint assoc (k : string) (l : list (string * string)) : option string :=
  match l with
  | [] => None
  | kv :: l' => if decide (kv.1 = k) then Some kv.2 else assoc k l'
  end.

Definition drop_key (k : string) (l : list (string * string)) : list (string * string) :=
  filter (λ kv, kv.1 ≠ k) l.

Definition cached (k : string) (s : t) : option string := assoc k (recency s).

Definition Inv (s : t) : Prop := ∃ l, wf s l.

Definition put_defined (k : string) (s : t) : bool :=
  match cached k s with
  | Some _ => true
  | None => negb (length (recency s) =? 1) || (2 <=? capacity_ s)
  end.

(** Calls of the public interface, and their execution in sequence from
    the constructor. *)
Inductive op :=
  | Get (k : string)
  | Put (k v : string)
  | Remove (k : string).

Definition discard {A} (r : result (A * t)) : result t :=
  match r with
  | Ok (_, s) => Ok s
  | UB => UB
  | Throw => Throw
  end.

Definition step (o : op) (s : t) : result t :=
  match o with
  | Get k => discard (get k s)
  | Put k v => discard (put k v s)
  | Remove k => discard (remove k s)
  end.

Definition run (c : nat) (ops : list op) : result t :=
  run_list step ops (create c).

Definition a_put (c : nat) (k v : string) (l : list (string * string))
  : list (string * string) :=
  match assoc k l with
  | Some _ => (k, v) :: drop_key k l
  | None => if c <=? length l then (k, v) :: removelast l else (k, v) :: l
  end.

End LRUSpec.

(** ** Specification of the wire format *)

Module WireSpec.
Local Open Scope string_scope.

(** A request as [BenchmarkClient::send_command] formats it. *)
Definition bulk_arg (a : string) : string :=
  "$" ++ to_string (String.length a) ++ crlf ++ a ++ crlf.

Fixpoint encode_args (args : list string) : string :=
  match args with
  | [] => ""
  | a :: rest => bulk_arg a ++ encode_args rest
  end.

Definition frame (args : list string) : string :=
  "*" ++ to_string (length args) ++ crlf ++ encode_args args.

Fixpoint no_space (s : string) : bool :=
  match s with
  | String c s' => negb (isspace c) && no_space s'
  | EmptyString => true
  end.

(** A key or value that survives the round through [process_command]: not
    empty and free of white space. *)
Definition token (s : string) : bool :=
  negb (String.eqb s "") && no_space s.

Fixpoint all_digits (s : string) : bool :=
  match s with
  | String c s' => isdigit c && all_digits s'
  | EmptyString => true
  end.

Definition worker_event (e : Server.event) : Prop :=
  match e with
  | Server.Read _ => False
  | Server.WorkerPop | Server.WorkerWrite => True
  end.

(** The cache of the server's engine is a well-formed list. *)
Definition SInv (s : Server.t) : Prop :=
  LRUSpec.Inv (StorageEngine.cache_ (Server.storage s)).

(** An argument whose length the parser can add 2 to within [int]. *)
Definition fits (a : string) : Prop :=
  (Z.of_nat (String.length a) <= INT_MAX - 2)%Z.

Fixpoint repeat_char (c : ascii) (n : nat) : string :=
  match n with
  | O => ""
  | S n' => String c (repeat_char c n')
  end.

(** The responses of a server started on [data.txt = f] to a run of events. *)
Definition replies (f : string) (evs : list Server.event) : result (list string) :=
  match run_list Server.step evs (Server.create f, []) with
  | Ok (_, out) => Ok out
  | UB => UB
  | Throw => Throw
  end.

End WireSpec.

(** ** Specification of the engine of part-b *)

Module EngineSpec.
Import StorageEngine.

(** The calls of the public interface, and the two halves of a turn of the
    writer thread. [get], [put], [del] and [sync] run under the locks of the
    objects they touch, and the thread only meets them on the queue and on
    the disk map, so an interleaving of these with the thread is a sequence
    of steps. [clear()] takes no lock: see [step]. *)
Inductive op :=
  | Get (k : string)
  | Put (k v : string)
  | Del (k : string)
  | Sync
  | Clear
  | Pop
  | Write.

Definition discard {A} (r : result (A * t)) : result t :=
  match r with
  | Ok (_, s) => Ok s
  | UB => UB
  | Throw => Throw
  end.

(** [clear()] assigns [disk_storage_], destroying the old [DiskStorage],
    without taking [write_mutex_], and [async_write_worker] reads
    [disk_storage_] and calls [put] on it after [lock.unlock()]. The two are
    ordered only when the thread is idle, where the next thing it does is to
    take [write_mutex_] after a later [put] released it; otherwise the
    assignment races with the thread's use of the object, which is undefined
    behaviour (a use after free when the thread is inside [put]). *)
Definition step (o : op) (s : t) : result t :=
  match o with
  | Get k => discard (get k s)
  | Put k v => discard (put k v s)
  | Del k => discard (del k s)
  | Sync => Ok (sync s)
  | Clear => if writer_idle s then Ok (clear s) else UB
  | Pop => Ok (match worker_pop s with Some s' => s' | None => s end)
  | Write => Ok (match worker_write s with Some s' => s' | None => s end)
  end.

(** The call inserts no new key into a cache that holds one entry at a
    capacity below 2, where [LRUCache::put] is undefined: [put] inserts its
    key, and [get] inserts a key it finds on disk only. *)
Definition insert_defined (o : op) (s : t) : bool :=
  match o with
  | Put k _ => LRUSpec.put_defined k (cache_ s)
  | Get k =>
      match LRUSpec.cached k (cache_ s), DiskStorage.get k (disk_storage_ s) with
      | None, Some _ => LRUSpec.put_defined k (cache_ s)
      | _, _ => true
      end
  | _ => true
  end.

Definition clear_idle (o : op) (s : t) : bool :=
  match o with
  | Clear => writer_idle s
  | _ => true
  end.

(** [P] holds of every operation of the run in the state it is called in. *)
Fixpoint along (P : op → t → bool) (ops : list op) (s : t) : bool :=
  match ops with
  | [] => true
  | o :: ops' =>
      P o s && match step o s with
               | Ok s' => along P ops' s'
               | _ => true
               end
  end.

(** No cache insertion of the run meets the eviction defect. *)
Definition inserts_defined : list op → t → bool := along insert_defined.

(** Every [clear()] of the run finds the writer thread idle. *)
Definition clears_idle : list op → t → bool := along clear_idle.

Definition has_key (k : string) (kv : string * string) : bool := String.eqb kv.1 k.

(** A pair for [k] is waiting in the queue or in the writer's hands. *)
Definition pending (k : string) (s : t) : bool :=
  existsb (has_key k) (write_queue_ s)
  || match in_flight s with
     | Some kv => has_key k kv
     | None => false
     end.

(** The operation neither sets [k] nor reloads the disk map. *)
Definition leaves (k : string) (o : op) : bool :=
  match o with
  | Put k' _ => negb (String.eqb k' k)
  | Clear => false
  | _ => true
  end.

(** The operation is neither a [put] nor a [del] of [k]. *)
Definition keeps (k : string) (o : op) : bool :=
  match o with
  | Put k' _ | Del k' => negb (String.eqb k' k)
  | _ => true
  end.

(** Keys and values the line format of [data.txt] can hold. *)
Definition clean_key (k : string) : bool :=
  match find_char "=" k, find_char LF k with
  | None, None => true
  | _, _ => false
  end.

Definition clean_value (v : string) : bool :=
  match find_char LF v with
  | None => true
  | Some _ => false
  end.

Definition clean_pair (kv : string * string) : bool :=
  clean_key kv.1 && clean_value kv.2.

Definition clean_op (o : op) : bool :=
  match o with
  | Put k v => clean_pair (k, v)
  | _ => true
  end.

(** Every [sync()] of the run finds the writer thread without a pair in its
    hands. *)
Fixpoint syncs_idle (ops : list op) (s : t) : bool :=
  match ops with
  | [] => true
  | o :: ops' =>
      match o, in_flight s with
      | Sync, Some _ => false
      | _, _ =>
          match step o s with
          | Ok s' => syncs_idle ops' s'
          | _ => true
          end
      end
  end.

(** The value of the last pair for [k] in a list of writes. *)
Fixpoint last_write (k : string) (l : list (string * string)) : option string :=
  match l with
  | [] => None
  | kv :: l' =>
      match last_write k l' with
      | Some v => Some v
      | None => if has_key k kv then Some kv.2 else None
      end
  end.

(** The writes not yet on disk, oldest first. *)
Definition outstanding (s : t) : list (string * string) :=
  match in_flight s with
  | Some kv => kv :: write_queue_ s
  | None => write_queue_ s
  end.

(** After [del k]: nothing of [k] in the cache, in the disk map, in the queue
    or with the writer. *)
Definition gone (k : string) (s : t) : Prop :=
  LRUSpec.Inv (cache_ s) ∧ LRUSpec.cached k (cache_ s) = None ∧
  DiskStorage.data_ (disk_storage_ s) !! k = None ∧ pending k s = false.

(** A line of [data.txt] without its newline. *)
Definition text_line (kv : string * string) : string := kv.1 ++ "=" ++ kv.2.

(** Every entry of the map fits the line format. *)
Definition clean_map (m : gmap string string) : Prop :=
  map_Forall (λ k v, clean_pair (k, v) = true) m.

(** The disk map is clean and [data.txt] loads back to it. *)
Definition disk_ok (d : DiskStorage.t) : Prop :=
  clean_map (DiskStorage.data_ d) ∧
  DiskStorage.load_data (DiskStorage.file d) = DiskStorage.data_ d.

(** The invariant of the runs whose [put]s are clean. *)
Definition engine_ok (s : t) : Prop :=
  LRUSpec.Inv (cache_ s) ∧ disk_ok (disk_storage_ s) ∧
  Forall (λ kv, clean_pair kv = true) (outstanding s).

(** The newest write of [k] that has not reached the disk carries [v], or
    there is none and the disk map holds [v]. *)
Definition settled (k v : string) (s : t) : Prop :=
  match last_write k (outstanding s) with
  | Some v' => v' = v
  | None => DiskStorage.data_ (disk_storage_ s) !! k = Some v
  end.

(** The process ends and starts again on the same [data.txt]. *)
Definition restart (cache_size : nat) (s : t) : t :=
  create cache_size (DiskStorage.file (disk_storage_ s)).

(** The state a run or a [del] ends in, for naming concrete states. *)
Definition state_after (ops : list op) (s : t) : t :=
  match run_list step ops s with
  | Ok s' => s'
  | _ => s
  end.

Definition after_del (k : string) (s : t) : t :=
  match del k s with
  | Ok (_, s') => s'
  | _ => s
  end.

Definition value_of {A} (r : result (string * A)) : option string :=
  match r with
  | Ok (v, _) => Some v
  | _ => None
  end.

End EngineSpec.

(** ** Specification of the log of part-a *)

Module PartASpec.
Import PartA.
Local Open Scope string_scope.

(** The record of the specification:
    [u32 key_len | key bytes | u32 value_len | value bytes], little-endian. *)
Definition record (k v : string) : string :=
  u32_bytes (N.of_nat (String.length k)) ++ k
  ++ u32_bytes (N.of_nat (String.length v)) ++ v.

Fixpoint records (l : list (string * string)) : string :=
  match l with
  | [] => ""
  | (k, v) :: l' => record k v ++ records l'
  end.

(** The fields of the record that starts at [off] in the log [f]. *)
Definition key_len_at (f : string) (off : nat) : N :=
  u32_of_bytes (substr_to 4 (substr_from off f)).

Definition key_at (f : string) (off : nat) : string :=
  substr_to (N.to_nat (key_len_at f off)) (substr_from (off + 4) f).

Definition value_len_at (f : string) (off : nat) : N :=
  u32_of_bytes
    (substr_to 4 (substr_from (off + 4 + N.to_nat (key_len_at f off)) f)).

Definition value_at (f : string) (off : nat) : string :=
  substr_to (N.to_nat (value_len_at f off))
    (substr_from (off + 4 + N.to_nat (key_len_at f off) + 4) f).

Definition record_size (f : string) (off : nat) : nat :=
  (4 + N.to_nat (key_len_at f off) + 4 + N.to_nat (value_len_at f off))%nat.

(** The four ways in which the record at [off] is corrupt for a read of
    [key]: the log ends before the record does, the stored key length is
    above 256, the stored value length is above 1024, the stored key is not
    the requested one. *)
Inductive corrupt (f : string) (off : nat) (key : string) : Prop :=
  | short_read :
      (String.length f < off + record_size f off)%nat → corrupt f off key
  | key_length_exceeds :
      (MAX_KEY_SIZE < key_len_at f off)%N → corrupt f off key
  | value_length_exceeds :
      (MAX_VALUE_SIZE < value_len_at f off)%N → corrupt f off key
  | key_differs :
      key_at f off ≠ key → corrupt f off key.

(** The records of a log, read from its start; [fuel] bounds their number. *)
Fixpoint decode_log (fuel : nat) (f : string) : option (list (string * string)) :=
  match f, fuel with
  | EmptyString, _ => Some []
  | _, O => None
  | _, S fuel' =>
      match read_u32 f 0 with
      | None => None
      | Some (key_len, pos) =>
          match read_bytes f pos (N.to_nat key_len) with
          | None => None
          | Some (k, pos) =>
              match read_u32 f pos with
              | None => None
              | Some (value_len, pos) =>
                  match read_bytes f pos (N.to_nat value_len) with
                  | None => None
                  | Some (v, pos) =>
                      match decode_log fuel' (substr_from pos f) with
                      | Some l => Some ((k, v) :: l)
                      | None => None
                      end
                  end
              end
          end
      end
  end.

Definition decode (f : string) : option (list (string * string)) :=
  decode_log (String.length f) f.

(** A run of [set] calls. *)
Fixpoint sets (l : list (string * string)) (s : t) : t :=
  match l with
  | [] => s
  | (k, v) :: l' => sets l' (set k v s).2
  end.

Definition short (s : string) : Prop :=
  (N.of_nat (String.length s) < 4294967296)%N.

Definition short_pair (kv : string * string) : Prop := short kv.1 ∧ short kv.2.

(** The index names the record of [k] at offset 0, and the log was cut
    inside the value, after nine of the ten bytes of the record. The
    constructor starts from this state: see [truncated_log_loaded]. *)
Definition truncated_index : list (string * DiskEntry.t) := [("k", DiskEntry.mk 0 10)].

Definition truncated_file : string := substr_to 9 (record "k" "v").

Definition truncated_log : t :=
  mk ∅ [] 0 {[ "k" := DiskEntry.mk 0 10 ]} [] truncated_file.

Definition two_writes : list (string * string) := [("k", "v"); ("k", "w")].

End PartASpec.

(** ** Specification of requests and replies *)

Module RequestSpec.
Import WireSpec.
Local Open Scope string_scope.

(** Requests sent back to back. *)
Fixpoint frames (l : list (list string)) : string :=
  match l with
  | [] => ""
  | args :: l' => frame args ++ frames l'
  end.

(** [process_command] on each command line in turn, collecting the replies. *)
Fixpoint run_commands (cmds : list string) (s : Server.t) (out : list string)
  : result (Server.t * list string) :=
  match cmds with
  | [] => Ok (s, out)
  | c :: cmds' =>
      match Server.process_command c s with
      | Ok (r, s') => run_commands cmds' s' (out ++ [r])
      | UB => UB
      | Throw => Throw
      end
  end.

(** A request the parser reads in full. *)
Definition well_framed (args : list string) : Prop :=
  args ≠ [] ∧ Forall fits args ∧ (Z.of_nat (length args) <= INT_MAX)%Z.

(** The reply of one command, as the only output of a read. *)
Definition lift (r : result (string * Server.t)) : result (Server.t * list string) :=
  match r with
  | Ok (x, s') => Ok (s', [x])
  | UB => UB
  | Throw => Throw
  end.

Definition lift_buffer (b : string) (r : result (string * Server.t))
  : result (string * Server.t) :=
  match r with
  | Ok (x, s') => Ok (x, Server.with_buffer b s')
  | UB => UB
  | Throw => Throw
  end.

(** The command words [process_command] knows. *)
Definition known (w : string) : bool :=
  String.eqb w "PING" || String.eqb w "SET" || String.eqb w "GET" || String.eqb w "DEL"
  || String.eqb w "CLEAR" || String.eqb w "FLUSHALL" || String.eqb w "FLUSHDB"
  || String.eqb w "EXIT".

(** The first three tokens of a command line, empty where there is none:
    all that [process_command] reads of it. *)
Definition first3 (c : string) : string * string * string :=
  let (a, r) := extract c in
  let (b, r) := extract r in
  let (d, _) := extract r in (a, b, d).

Definition heads (l : list string) : string * string * string :=
  (nth 0 l "", nth 1 l "", nth 2 l "").

(** A reply that starts with one of the five type bytes of the protocol. *)
Definition typed (r : string) : bool :=
  match r with
  | String c _ =>
      Ascii.eqb c "+" || Ascii.eqb c "-" || Ascii.eqb c ":" || Ascii.eqb c "$"
      || Ascii.eqb c "*"
  | EmptyString => false
  end.

End RequestSpec.

(** ** Specification of the engine of part-a as a map *)

Module PartAMap.
Import PartA PartASpec.
Local Open Scope string_scope.

(** The calls of the public interface of the engine, and what each returns. *)
Inductive op :=
  | DoSet (k v : string)
  | DoGet (k : string)
  | DoDel (k : string)
  | DoClear
  | DoFlush.

Inductive reply :=
  | RBool (b : bool)
  | RString (v : string)
  | RVoid.

Definition exec (o : op) (s : t) : reply * t :=
  match o with
  | DoSet k v => let (b, s') := set k v s in (RBool b, s')
  | DoGet k => let (v, s') := get k s in (RString v, s')
  | DoDel k => let (b, s') := del k s in (RBool b, s')
  | DoClear => (RVoid, clear s)
  | DoFlush => (RVoid, force_flush s)
  end.

Fixpoint run (ops : list op) (s : t) : list reply * t :=
  match ops with
  | [] => ([], s)
  | o :: ops' =>
      let (r, s') := exec o s in
      let (rs, s'') := run ops' s' in (r :: rs, s'')
  end.

(** The same calls on a finite map: [get] of a missing key is the empty
    string, [del] reports whether the key was there. *)
Definition map_exec (o : op) (m : gmap string string) : reply * gmap string string :=
  match o with
  | DoSet k v => (RBool true, <[k := v]> m)
  | DoGet k => (RString (default "" (m !! k)), m)
  | DoDel k => (RBool (bool_decide (is_Some (m !! k))), delete k m)
  | DoClear => (RVoid, ∅)
  | DoFlush => (RVoid, m)
  end.

Fixpoint map_run (ops : list op) (m : gmap string string)
  : list reply * gmap string string :=
  match ops with
  | [] => ([], m)
  | o :: ops' =>
      let (r, m') := map_exec o m in
      let (rs, m'') := map_run ops' m' in (r :: rs, m'')
  end.

(** Keys and values the disk branch of [get] accepts. *)
Definition within_limits (k v : string) : Prop :=
  (N.of_nat (String.length k) ≤ MAX_KEY_SIZE)%N ∧
  (N.of_nat (String.length v) ≤ MAX_VALUE_SIZE)%N.

Definition bounded (o : op) : Prop :=
  match o with
  | DoSet k v => within_limits k v
  | _ => True
  end.

(** The engine state [s] holds the map [m]: the write buffer is empty, the
    cache is a part of [m], and the index holds exactly the keys of [m], each
    with the offset of a record of the key and its value in the log. *)
Definition holds (s : t) (m : gmap string string) : Prop :=
  write_buffer s = [] ∧
  data_ s ⊆ m ∧
  ∀ k, match disk_index s !! k with
       | Some e =>
           ∃ v pre rest, m !! k = Some v ∧ within_limits k v ∧
                         data_file s = pre ++ record k v ++ rest ∧
                         DiskEntry.offset e = String.length pre
       | None => m !! k = None
       end.

Definition sample_run : list op :=
  [DoSet "k" "v"; DoSet "j" "a b"; DoGet "k"; DoSet "k" "w"; DoGet "k"; DoDel "k";
   DoGet "k"; DoDel "k"; DoClear; DoGet "j"].

(** The call is no [set] or [del] of [k] and no [clear]: it leaves the index
    entry of [k] and the bytes of the log alone. *)
Definition keeps_record (k : string) (o : op) : bool :=
  match o with
  | DoSet k' _ | DoDel k' => negb (String.eqb k' k)
  | DoClear => false
  | _ => true
  end.

(** The write buffer is empty and the index entry of [k] names a record of
    [k] and [v] in the log. *)
Definition indexed (k v : string) (s : t) : Prop :=
  write_buffer s = [] ∧
  ∃ e pre rest, disk_index s !! k = Some e ∧
                data_file s = pre ++ record k v ++ rest ∧
                DiskEntry.offset e = String.length pre.

(** A pair the disk branch of [get] rejects. *)
Definition oversize (k v : string) : Prop :=
  (MAX_KEY_SIZE < N.of_nat (String.length k))%N
  ∨ (MAX_VALUE_SIZE < N.of_nat (String.length v))%N.

(** [set] of each key in turn, and as many keys of two bytes and more as the
    cache holds entries. *)
Definition set_each (keys : list string) : list op := map (λ k', DoSet k' "x") keys.

Definition fresh_keys : list string :=
  map (λ i, WireSpec.repeat_char "a" (2 + i)) (seq 0 (N.to_nat MAX_CACHE_SIZE)).

End PartAMap.

(** * Proofs *)

(** ** Strings and numerals *)

Module StringFacts.
Import WireSpec.
Local Open Scope string_scope.

Lemma append_nil (t : string) : "" ++ t = t.
Proof. reflexivity. Qed.

Lemma append_cons c (s t : string) : String c s ++ t = String c (s ++ t).
Proof. reflexivity. Qed.

Lemma app_length (s t : string) :
  String.length (s ++ t) = (String.length s + String.length t)%nat.
Proof.
  induction s as [|c s IH]; [done|]. rewrite append_cons. cbn [String.length].
  by rewrite IH.
Qed.

Lemma app_assoc (s t u : string) : (s ++ t) ++ u = s ++ t ++ u.
Proof. induction s as [|c s IH]; [done|]. rewrite !append_cons. by rewrite IH. Qed.

Lemma app_empty_r (s : string) : s ++ "" = s.
Proof. induction s as [|c s IH]; [done|]. rewrite append_cons. by rewrite IH. Qed.

Lemma substr_to_app (s t : string) : substr_to (String.length s) (s ++ t) = s.
Proof.
  induction s as [|c s IH]; [by destruct t|].
  rewrite append_cons. cbn [String.length substr_to]. by rewrite IH.
Qed.

Lemma substr_from_app (s t : string) (n : nat) :
  substr_from (String.length s + n) (s ++ t) = substr_from n t.
Proof.
  induction s as [|c s IH]; [done|].
  rewrite append_cons. cbn [String.length Nat.add substr_from]. by rewrite IH.
Qed.

Lemma substr_from_0 (s : string) : substr_from 0 s = s.
Proof. by destruct s. Qed.

(** ** Finding the line terminator *)

Lemma find_crlf_cons c (s : string) :
  find_crlf (String c s)
  = if starts_crlf (String c s) then Some 0 else S <$> find_crlf s.
Proof. reflexivity. Qed.

Lemma find_crlf_app (s t : string) :
  find_crlf s = None → find_crlf (s ++ crlf ++ t) = Some (String.length s).
Proof.
  induction s as [|c s IH]; [done|]. rewrite find_crlf_cons. intros H.
  destruct (starts_crlf (String c s)) eqn:E; [done|].
  destruct (find_crlf s) eqn:F; [done|].
  rewrite append_cons, find_crlf_cons.
  assert (starts_crlf (String c (s ++ crlf ++ t)) = false) as ->.
  { destruct s as [|c' s]; [|done].
    cbn. apply andb_false_iff. by right. }
  by rewrite IH.
Qed.

(** ** Decimal numerals *)

Lemma all_digits_string_of_uint d : all_digits (NilEmpty.string_of_uint d) = true.
Proof. induction d; cbn; done. Qed.

Lemma string_of_uint_nonempty d : d ≠ Decimal.Nil → NilEmpty.string_of_uint d ≠ "".
Proof. by destruct d. Qed.

Lemma to_little_uint_nonnil n d : d ≠ Decimal.Nil → Nat.to_little_uint n d ≠ Decimal.Nil.
Proof.
  revert d. induction n as [|n IH]; intros d Hd; cbn; [done|].
  apply IH. by destruct d.
Qed.

Lemma to_uint_nonnil n : Nat.to_uint n ≠ Decimal.Nil.
Proof.
  unfold Nat.to_uint. intros H. apply DecimalFacts.rev_nil_inv in H.
  by apply to_little_uint_nonnil in H.
Qed.

Lemma to_string_all_digits n : all_digits (to_string n) = true.
Proof. apply all_digits_string_of_uint. Qed.

Lemma to_string_nonempty n : to_string n ≠ "".
Proof. apply string_of_uint_nonempty, to_uint_nonnil. Qed.

Lemma isdigit_not_space c : isdigit c = true → isspace c = false.
Proof.
  unfold isdigit, isspace. intros H. apply andb_true_iff in H as [H1 H2].
  apply N.leb_le in H1. apply orb_false_iff. split.
  - apply N.eqb_neq. lia.
  - apply andb_false_iff. right. apply N.leb_gt. lia.
Qed.

Lemma isdigit_not_CR c : isdigit c = true → Ascii.eqb c CR = false.
Proof.
  intros H. destruct (Ascii.eqb_spec c CR) as [->|]; [|done]. by vm_compute in H.
Qed.

Lemma all_digits_find_crlf s : all_digits s = true → find_crlf s = None.
Proof.
  induction s as [|c s IH]; [done|]. cbn [all_digits find_crlf].
  intros H. apply andb_true_iff in H as [Hc Hs].
  assert (starts_crlf (String c s) = false) as ->.
  { destruct s; [done|]. cbn. by rewrite (isdigit_not_CR c Hc). }
  by rewrite IH.
Qed.

Lemma digits_of_uint d acc :
  (0 <= acc)%Z →
  digits acc (NilEmpty.string_of_uint d) = Z.of_nat (Nat.of_uint_acc d (Z.to_nat acc)).
Proof.
  revert acc. induction d; intros acc Hacc; cbn [NilEmpty.string_of_uint digits Nat.of_uint_acc];
    [by rewrite Z2Nat.id|..];
    (rewrite IHd by (cbn; lia)); f_equal; f_equal; rewrite Nat.tail_mul_spec; cbn; lia.
Qed.

Lemma stoi_to_string n :
  (Z.of_nat n <= INT_MAX)%Z → stoi (to_string n) = Some (Z.of_nat n).
Proof.
  intros Hn. unfold stoi.
  pose proof (to_string_all_digits n) as Hd. pose proof (to_string_nonempty n) as Hne.
  assert (Hv : digits 0 (to_string n) = Z.of_nat n).
  { unfold to_string. rewrite digits_of_uint by done.
    change (Nat.of_uint_acc (Nat.to_uint n) (Z.to_nat 0)) with (Nat.of_uint (Nat.to_uint n)).
    by rewrite Unsigned.of_to. }
  destruct (to_string n) as [|c s] eqn:E; [done|].
  cbn [all_digits] in Hd. apply andb_true_iff in Hd as [Hc Hs].
  cbn [skip_ws]. rewrite (isdigit_not_space c Hc).
  assert (Ascii.eqb c "-" = false) as ->.
  { destruct (Ascii.eqb_spec c "-") as [->|]; [|done]. by vm_compute in Hc. }
  assert (Ascii.eqb c "+" = false) as ->.
  { destruct (Ascii.eqb_spec c "+") as [->|]; [|done]. by vm_compute in Hc. }
  rewrite Hc, Hv.
  assert ((INT_MIN <=? Z.of_nat n)%Z && (Z.of_nat n <=? INT_MAX)%Z = true) as ->; [|done].
  apply andb_true_iff. split; apply Z.leb_le; [|done]. unfold INT_MIN. lia.
Qed.

End StringFacts.

(** ** The LRU cache *)

Module LRUProofs.
Import LRUCache LRUSpec.

Lemma last_ptr_snoc l c p : last_ptr (l ++ [c]) p = Some c.1.
Proof. unfold last_ptr. by rewrite last_snoc. Qed.

Lemma last_ptr_cons c l p : last_ptr (c :: l) p = last_ptr l (Some c.1).
Proof. unfold last_ptr. destruct l as [|d l]; [done|]. 
  rewrite last_cons. simpl. destruct (last (d :: l)) eqn:E; [done|].
  by destruct l. Qed.

Lemma hd_ptr_app l1 l2 q : hd_ptr (l1 ++ l2) q = hd_ptr l1 (hd_ptr l2 q).
Proof. by destruct l1. Qed.

Lemma last_ptr_app l1 l2 p : last_ptr (l1 ++ l2) p = last_ptr l2 (last_ptr l1 p).
Proof. unfold last_ptr. rewrite last_app. destruct (last l2); [done|]. done. Qed.

Lemma dseg_app h p l1 l2 q :
  dseg h p (l1 ++ l2) q ↔ dseg h p l1 (hd_ptr l2 q) ∧ dseg h (last_ptr l1 p) l2 q.
Proof.
  revert p. induction l1 as [|c l1 IH]; intros p; simpl.
  - unfold last_ptr; simpl. tauto.
  - rewrite IH, hd_ptr_app, last_ptr_cons. tauto.
Qed.

Lemma dseg_frame h a n p l q :
  a ∉ l.*1 → dseg h p l q → dseg (<[a := n]> h) p l q.
Proof.
  revert p. induction l as [|c l IH]; intros p Hn; simpl; [done|].
  intros [H1 H2]. rewrite fmap_cons, not_elem_of_cons in Hn. destruct Hn.
  split; [by rewrite lookup_insert_ne | by apply IH].
Qed.

Lemma dseg_lookup h p l q c :
  dseg h p l q → c ∈ l → ∃ n, h !! c.1 = Some n ∧ key n = c.2.1 ∧ value n = c.2.2.
Proof.
  revert p. induction l as [|d l IH]; intros p Hd Hc; [by apply elem_of_nil in Hc|].
  destruct Hd as [H1 H2]. apply elem_of_cons in Hc as [->|Hc]; [eauto|].
  by eapply IH.
Qed.

(** [c.1->prev = p'] on the first node of a segment *)
Lemma dseg_set_prev h p p' c l q n :
  c.1 ∉ l.*1 → dseg h p (c :: l) q → h !! c.1 = Some n →
  dseg (<[c.1 := set_prev p' n]> h) p' (c :: l) q.
Proof.
  intros Hn [H1 H2] Hc. rewrite H1 in Hc. injection Hc as <-. split.
  - by rewrite lookup_insert_eq.
  - by apply dseg_frame.
Qed.

(** [c.1->next = q'] on the last node of a segment *)
Lemma dseg_set_next h p l c q q' n :
  c.1 ∉ l.*1 → dseg h p (l ++ [c]) q → h !! c.1 = Some n →
  dseg (<[c.1 := set_next q' n]> h) p (l ++ [c]) q'.
Proof.
  intros Hn Hd Hc. apply dseg_app in Hd as [H1 [H2 _]]. simpl in *.
  rewrite H2 in Hc. injection Hc as <-.
  apply dseg_app. split; simpl.
  - by apply dseg_frame.
  - split; [|done]. by rewrite lookup_insert_eq.
Qed.

Lemma dseg_set_value h p l1 c l2 q v n :
  NoDup (l1 ++ c :: l2).*1 → dseg h p (l1 ++ c :: l2) q → h !! c.1 = Some n →
  dseg (<[c.1 := set_value v n]> h) p (l1 ++ (c.1, (c.2.1, v)) :: l2) q.
Proof.
  intros Hn Hd Hc. apply dseg_app in Hd as [H1 [H2 H3]]. simpl in *.
  rewrite H2 in Hc. injection Hc as <-.
  rewrite fmap_app, fmap_cons in Hn. apply NoDup_app in Hn as (? & Hn1 & Hn2).
  apply NoDup_cons in Hn2 as [? ?].
  apply dseg_app. split; simpl.
  - apply dseg_frame; [|done]. intros Hin. by eapply Hn1, elem_of_cons; [|left].
  - split; [by rewrite lookup_insert_eq|]. by apply dseg_frame.
Qed.

Lemma last_ptr_elem c l p : ∃ x, x ∈ c :: l ∧ last_ptr (c :: l) p = Some x.1.
Proof.
  unfold last_ptr. destruct (last (c :: l)) as [x|] eqn:E.
  - exists x. split; [|done]. apply last_Some in E as [l' ->].
    apply elem_of_app. right. left.
  - by apply last_None in E.
Qed.

Lemma last_ptr_indep c l p p' : last_ptr (c :: l) p = last_ptr (c :: l) p'.
Proof.
  unfold last_ptr. destruct (last (c :: l)) eqn:E; [done|]. by apply last_None in E.
Qed.

Lemma nonempty_snoc {A} (l : list A) : l ≠ [] → ∃ l' x, l = l' ++ [x].
Proof.
  intros H. destruct (last l) as [x|] eqn:E.
  - apply last_Some in E as [l' ->]. eauto.
  - apply last_None in E. done.
Qed.

Lemma bind_eq {A B} (m : M A) (f : A → M B) s :
  bind m f s = match m s with Ok (a, s') => f a s' | UB => UB | Throw => Throw end.
Proof. reflexivity. Qed.

Lemma deref_ok c m hd tl h b a n :
  h !! a = Some n → deref (Some a) (mk c m hd tl h b) = Ok (n, mk c m hd tl h b).
Proof. intros H. unfold deref. simpl. by rewrite H. Qed.

Lemma store_ok c m hd tl h b a n f :
  h !! a = Some n →
  store (Some a) f (mk c m hd tl h b) = Ok (tt, mk c m hd tl (<[a := f n]> h) b).
Proof. intros H. unfold store. simpl. by rewrite H. Qed.

Lemma delete_ok c m hd tl h b a n :
  h !! a = Some n →
  delete_node (Some a) (mk c m hd tl h b) = Ok (tt, mk c m hd tl (delete a h) b).
Proof. intros H. unfold delete_node. simpl. by rewrite H. Qed.

Lemma get_head_eq s : get_head s = Ok (head_ s, s).
Proof. reflexivity. Qed.
Lemma get_tail_eq s : get_tail s = Ok (tail_ s, s).
Proof. reflexivity. Qed.
Lemma set_head_eq p s :
  set_head p s = Ok (tt, mk (capacity_ s) (cache_ s) p (tail_ s) (heap s) (brk s)).
Proof. reflexivity. Qed.
Lemma set_tail_eq p s :
  set_tail p s = Ok (tt, mk (capacity_ s) (cache_ s) (head_ s) p (heap s) (brk s)).
Proof. reflexivity. Qed.
Lemma find_eq k s : find k s = Ok (cache_ s !! k, s).
Proof. reflexivity. Qed.
Lemma map_erase_eq k s :
  map_erase k s
  = Ok (tt, mk (capacity_ s) (delete k (cache_ s)) (head_ s) (tail_ s) (heap s) (brk s)).
Proof. reflexivity. Qed.
Lemma map_insert_eq k a s :
  map_insert k a s
  = Ok (tt, mk (capacity_ s) (<[k := a]> (cache_ s)) (head_ s) (tail_ s) (heap s) (brk s)).
Proof. reflexivity. Qed.
Lemma new_node_eq k v s :
  new_node k v s
  = Ok (brk s, mk (capacity_ s) (cache_ s) (head_ s) (tail_ s)
                  (<[brk s := mkNode k v None None]> (heap s)) (S (brk s))).
Proof. reflexivity. Qed.
Lemma ret_eq {A} (a : A) s : ret a s = Ok (a, s).
Proof. reflexivity. Qed.
Lemma set_prev_eq q n : set_prev q n = mkNode (key n) (value n) q (next n).
Proof. reflexivity. Qed.
Lemma set_next_eq q n : set_next q n = mkNode (key n) (value n) (prev n) q.
Proof. reflexivity. Qed.
Lemma set_value_eq v n : set_value v n = mkNode (key n) v (prev n) (next n).
Proof. reflexivity. Qed.

Ltac prim :=
  repeat first
    [ rewrite get_head_eq | rewrite get_tail_eq | rewrite set_head_eq
    | rewrite set_tail_eq | rewrite find_eq | rewrite map_erase_eq
    | rewrite map_insert_eq | rewrite new_node_eq | rewrite ret_eq
    | rewrite set_prev_eq | rewrite set_next_eq | rewrite set_value_eq
    | progress cbn [head_ tail_ heap cache_ capacity_ brk key value prev next] ].
Ltac mstep := rewrite bind_eq; prim.
Ltac mderef H := rewrite bind_eq; rewrite (deref_ok _ _ _ _ _ _ _ _ H); prim.
Ltac mstore H := rewrite bind_eq; rewrite (store_ok _ _ _ _ _ _ _ _ _ H); prim.

Lemma NoDup_mid (l1 : list cell) d l2 :
  NoDup (l1 ++ d :: l2).*1 → (d.1 ∉ l1.*1) ∧ (d.1 ∉ l2.*1) ∧ NoDup (l1 ++ l2).*1.
Proof.
  rewrite !fmap_app, fmap_cons. intros H.
  apply NoDup_app in H as (H1 & H2 & H3). apply NoDup_cons in H3 as [H3 H4].
  split_and!; [|done|].
  - intros Hin. apply (H2 _ Hin). left.
  - apply NoDup_app. split_and!; [done| |done].
    intros x Hx Hx'. apply (H2 _ Hx). by right.
Qed.

Lemma unlink_spec c m hd h b l1 pc d l2 :
  dseg h None ((l1 ++ [pc]) ++ d :: l2) None →
  NoDup ((l1 ++ [pc]) ++ d :: l2).*1 →
  ∃ h',
    unlink d.1 (mk c m hd (last_ptr ((l1 ++ [pc]) ++ d :: l2) None) h b)
    = Ok (tt, mk c m hd (last_ptr ((l1 ++ [pc]) ++ l2) None) h' b) ∧
    dseg h' None ((l1 ++ [pc]) ++ l2) None ∧
    h' !! d.1 = h !! d.1.
Proof.
  intros Hseg Hnd.
  destruct (NoDup_mid _ _ _ Hnd) as (Hd1 & Hd2 & Hnd').
  assert (Hpc : pc.1 ∉ l1.*1).
  { rewrite !fmap_app in Hnd. apply NoDup_app in Hnd as (Hnd & _ & _).
    apply NoDup_app in Hnd as (_ & Hnd & _). intros Hin. apply (Hnd _ Hin). left. }
  assert (Hdpc : d.1 ≠ pc.1).
  { intros Heq. apply Hd1. rewrite fmap_app, Heq. apply elem_of_app. right. left. }
  apply dseg_app in Hseg as [S1 [HD S2]]. cbn [hd_ptr] in S1.
  rewrite last_ptr_snoc in *.
  pose proof S1 as S1'. apply dseg_app in S1' as [_ [HP _]]. cbn [hd_ptr] in HP.
  unfold unlink. mstep.
  rewrite !(last_ptr_app (l1 ++ [pc])), last_ptr_cons, last_ptr_snoc.
  destruct l2 as [|nc l2].
  - (* the node is the tail *)
    unfold last_ptr at 1 2. cbn [last]. rewrite decide_True by done.
    mderef HD. mstep. mstep.
    rewrite (store_ok _ _ _ _ _ _ _ _ _ HP). prim.
    eexists. split; [reflexivity|]. rewrite app_nil_r. split.
    + exact (dseg_set_next h None l1 pc (Some d.1) None _ Hpc S1 HP).
    + by rewrite lookup_insert_ne.
  - (* the node has a successor *)
    assert (Hdn : d.1 ≠ nc.1).
    { intros Heq. apply Hd2. rewrite Heq. left. }
    assert (Hnl : nc.1 ∉ l2.*1).
    { rewrite fmap_app in Hnd'. apply NoDup_app in Hnd' as (_ & _ & Hn).
      by apply NoDup_cons in Hn as [? _]. }
    assert (Hnpc : nc.1 ∉ (l1 ++ [pc]).*1).
    { pose proof Hnd' as Hn. rewrite fmap_app in Hn. apply NoDup_app in Hn as (_ & Hn & _).
      intros Hin. apply (Hn _ Hin). left. }
    rewrite (last_ptr_indep nc l2 (Some pc.1) (Some d.1)).
    rewrite decide_False.
    2:{ intros Heq. destruct (last_ptr_elem nc l2 (Some d.1)) as (x & Hx & Ex).
        rewrite Ex in Heq. injection Heq as Heq. apply Hd2. rewrite Heq.
        by apply (list_elem_of_fmap_2 fst). }
    mderef HD. cbn [hd_ptr]. mstore HP.
    assert (HD1 : <[pc.1:={| key := pc.2.1; value := pc.2.2;
                            prev := last_ptr l1 None; next := Some nc.1 |}]> h !! d.1
                  = Some {| key := d.2.1; value := d.2.2; prev := Some pc.1;
                            next := Some nc.1 |}).
    { by rewrite lookup_insert_ne. }
    mderef HD1.
    destruct S2 as [HN S2].
    assert (HN1 : <[pc.1:={| key := pc.2.1; value := pc.2.2;
                            prev := last_ptr l1 None; next := Some nc.1 |}]> h !! nc.1
                  = Some {| key := nc.2.1; value := nc.2.2;
                            prev := Some d.1; next := hd_ptr l2 None |}).
    { rewrite lookup_insert_ne; [done|]. intros Heq. apply Hnpc.
      rewrite fmap_app, <- Heq. apply elem_of_app. right. left. }
    rewrite (store_ok _ _ _ _ _ _ _ _ _ HN1). prim.
    eexists. split; [reflexivity|]. split.
    + apply dseg_app. rewrite last_ptr_snoc. split.
      * apply dseg_frame; [done|]. cbn [hd_ptr].
        exact (dseg_set_next h None l1 pc (Some d.1) (Some nc.1) _ Hpc S1 HP).
      * refine (dseg_set_prev _ (Some d.1) (Some pc.1) nc l2 None _ Hnl _ HN1).
        apply dseg_frame.
        { intros Hin. apply elem_of_cons in Hin as [Hin|Hin].
          - apply Hnpc. rewrite fmap_app, <- Hin. apply elem_of_app. right. left.
          - rewrite fmap_app in Hnd'. apply NoDup_app in Hnd' as (_ & Hn & _).
            eapply (Hn pc.1); [|right; exact Hin].
            rewrite fmap_app. apply elem_of_app. right. left. }
        by split.
    + rewrite !lookup_insert_ne; [done| |done]. congruence.
Qed.

Lemma move_to_front_spec c m hd tl h b l1 d l2 :
  wf_list h hd tl (l1 ++ d :: l2) →
  ∃ h' hd' tl',
    move_to_front d.1 (mk c m hd tl h b) = Ok (tt, mk c m hd' tl' h' b) ∧
    wf_list h' hd' tl' (d :: l1 ++ l2).
Proof.
  intros [Hseg -> -> Hnd].
  destruct l1 as [|e l1].
  { simpl in *. eexists _, _, _. split; [|by split].
    unfold move_to_front. mstep. by rewrite decide_True. }
  destruct (NoDup_mid _ _ _ Hnd) as (Hd1 & Hd2 & Hnd').
  assert (Hne : d.1 ≠ e.1).
  { intros Heq. apply Hd1. rewrite Heq. left. }
  destruct (nonempty_snoc (e :: l1)) as (l1' & pc & E); [done|].
  unfold move_to_front. mstep. cbn [hd_ptr app].
  rewrite decide_False by (intros [=]; done).
  change (∃ h' hd' tl',
    (unlink d.1 ;;;
     store (Some d.1) (set_prev None) ;;;
     h'0 <- get_head ;;
     store (Some d.1) (set_next h'0) ;;;
     store h'0 (set_prev (Some d.1)) ;;;
     set_head (Some d.1))
      (mk c m (Some e.1) (last_ptr ((e :: l1) ++ d :: l2) None) h b)
    = Ok (tt, mk c m hd' tl' h' b) ∧ wf_list h' hd' tl' (d :: (e :: l1) ++ l2)).
  rewrite E in Hseg, Hnd |- *.
  destruct (unlink_spec c m (Some e.1) h b l1' pc d l2 Hseg Hnd) as (h1 & Hu & S & HD1).
  rewrite bind_eq, Hu.
  apply dseg_app in Hseg as [_ [HD _]]. rewrite HD in HD1.
  mstore HD1. mstep.
  assert (HD2 : <[d.1:={| key := d.2.1; value := d.2.2; prev := None;
                         next := hd_ptr l2 None |}]> h1 !! d.1
                = Some {| key := d.2.1; value := d.2.2; prev := None;
                         next := hd_ptr l2 None |}) by apply lookup_insert_eq.
  mstore HD2. rewrite insert_insert_eq.
  rewrite <- E in S |- *. cbn [app] in S.
  assert (S' : dseg (<[d.1:={| key := d.2.1; value := d.2.2; prev := None;
                         next := Some e.1 |}]> h1) None (e :: l1 ++ l2) None).
  { apply dseg_frame; [|done]. change (e :: l1 ++ l2) with ((e :: l1) ++ l2).
    rewrite fmap_app.
    intros Hin. apply elem_of_app in Hin as [Hin|Hin]; [by apply Hd1|by apply Hd2]. }
  pose proof S' as [HE _].
  mstore HE.
  prim. eexists _, _, _. split; [reflexivity|]. split.
  - split.
    + rewrite lookup_insert_ne by done. by rewrite lookup_insert_eq.
    + refine (dseg_set_prev _ None (Some d.1) e (l1 ++ l2) None _ _ S' HE).
      cbn [app] in Hnd'. rewrite fmap_cons in Hnd'. by apply NoDup_cons in Hnd' as [? _].
  - done.
  - rewrite last_ptr_cons. cbn [app]. rewrite !last_ptr_cons. rewrite !last_ptr_app.
    destruct l2 as [|x l2]; [|by rewrite !last_ptr_cons].
    unfold last_ptr at 1 3. cbn [last].
    change (e :: l1) with ([e] ++ l1) in E.
    destruct l1 as [|y l1]; [done|]. by rewrite !last_ptr_cons.
  - rewrite fmap_cons. apply NoDup_cons. split; [|done].
    rewrite fmap_app.
    intros Hin. apply elem_of_app in Hin as [Hin|Hin]; [by apply Hd1|by apply Hd2].
Qed.

Lemma wf_key_addr s l a a' k v v' :
  wf s l → (a, (k, v)) ∈ l → (a', (k, v')) ∈ l → a = a'.
Proof.
  intros W H1 H2.
  assert (cache_ s !! k = Some a) as E1 by (apply (wf_map _ _ W); eauto).
  assert (cache_ s !! k = Some a') as E2 by (apply (wf_map _ _ W); eauto).
  congruence.
Qed.

Lemma NoDup_fst_eq (l : list cell) x y : NoDup l.*1 → x ∈ l → y ∈ l → x.1 = y.1 → x = y.
Proof.
  induction l as [|c l IH]; intros Hn Hx Hy E; [by apply elem_of_nil in Hx|].
  rewrite fmap_cons in Hn. apply NoDup_cons in Hn as [Hc Hn].
  apply elem_of_cons in Hx as [->|Hx], Hy as [->|Hy]; [done| | |by apply IH].
  - exfalso. apply Hc. rewrite E. by apply (list_elem_of_fmap_2 fst).
  - exfalso. apply Hc. rewrite <- E. by apply (list_elem_of_fmap_2 fst).
Qed.

Lemma wf_key_unique s l x y : wf s l → x ∈ l → y ∈ l → x.2.1 = y.2.1 → x = y.
Proof.
  intros W Hx Hy E. destruct x as [a [k v]], y as [a' [k' v']]. simpl in E. subst k'.
  assert (a = a') as <- by (by eapply wf_key_addr).
  eapply NoDup_fst_eq; [apply W|done..].
Qed.

Lemma wf_lookup s l x : wf s l → x ∈ l → cache_ s !! x.2.1 = Some x.1.
Proof. intros W Hx. apply (wf_map _ _ W). exists x.2.2. by destruct x as [? [? ?]]. Qed.

Lemma wf_lookup_None s l k : wf s l → k ∉ l.*2.*1 → cache_ s !! k = None.
Proof.
  intros W Hk. destruct (cache_ s !! k) as [a|] eqn:E; [|done].
  apply (wf_map _ _ W) in E as [v Hin]. exfalso. apply Hk.
  apply (list_elem_of_fmap_2 snd) in Hin. by apply (list_elem_of_fmap_2 fst) in Hin.
Qed.

Lemma wf_size s l : wf s l → size s = length l.
Proof.
  intros W. unfold size.
  assert (Hk : NoDup ((λ x : cell, (x.2.1, x.1)) <$> l).*1).
  { rewrite <- list_fmap_compose. apply NoDup_fmap_2_strong; [|eapply (NoDup_fmap_1 fst), W].
    intros x y Hx Hy E. by eapply wf_key_unique. }
  assert (cache_ s = list_to_map ((λ x : cell, (x.2.1, x.1)) <$> l)) as ->.
  { apply map_eq. intros k. apply option_eq. intros a.
    rewrite (wf_map _ _ W). rewrite <- elem_of_list_to_map by done.
    rewrite list_elem_of_fmap. split.
    - intros [v Hin]. by exists (a, (k, v)).
    - intros ([a' [k' v']] & [= -> ->] & Hin). eauto. }
  rewrite map_size_list_to_map by done. by rewrite length_fmap.
Qed.

Lemma elem_of_mid {A} (x d : A) l1 l2 : x ∈ l1 ++ d :: l2 ↔ x ∈ d :: l1 ++ l2.
Proof. rewrite elem_of_app, !elem_of_cons, elem_of_app. tauto. Qed.

Lemma get_miss k s : cache_ s !! k = None → get k s = Ok (None, s).
Proof. intros H. unfold get. mstep. by rewrite H. Qed.

Lemma get_hit s l1 d l2 :
  wf s (l1 ++ d :: l2) →
  ∃ s', get d.2.1 s = Ok (Some d.2.2, s') ∧ wf s' (d :: l1 ++ l2) ∧
        capacity_ s' = capacity_ s.
Proof.
  intros W. pose proof (wf_lookup _ _ d W) as Hm.
  destruct s as [c m hd tl h b]. destruct W as [WL WM WB]. cbn [heap head_ tail_ cache_ brk capacity_] in *.
  destruct (move_to_front_spec c m hd tl h b l1 d l2 WL) as (h' & hd' & tl' & E & WL').
  unfold get. mstep. rewrite Hm by (apply elem_of_app; right; left).
  rewrite bind_eq, E. pose proof (wl_seg _ _ _ _ WL') as [HD _].
  mderef HD. eexists. split; [reflexivity|]. split; [|done]. split; cbn.
  - done.
  - intros k a. rewrite WM. by setoid_rewrite elem_of_mid.
  - intros x Hx. apply WB. by apply elem_of_mid.
Qed.

Lemma put_hit s l1 d l2 v :
  wf s (l1 ++ d :: l2) →
  ∃ s', put d.2.1 v s = Ok (true, s') ∧ wf s' ((d.1, (d.2.1, v)) :: l1 ++ l2) ∧
        capacity_ s' = capacity_ s.
Proof.
  intros W. pose proof (wf_lookup _ _ d W) as Hm.
  destruct d as [da [dk dv]].
  destruct s as [c m hd tl h b]. destruct W as [WL WM WB].
  cbn [heap head_ tail_ cache_ brk capacity_ fst snd] in *.
  destruct WL as [Hseg Hhd Htl Hnd].
  pose proof Hseg as Hseg'. apply dseg_app in Hseg' as [_ [HD _]].
  unfold put. mstep. rewrite Hm by (apply elem_of_app; right; left).
  mstore HD.
  cbn [fst snd] in HD.
  pose proof (dseg_set_value h None l1 _ l2 None v _ Hnd Hseg HD) as Hseg1.
  unfold set_value in Hseg1. cbn [key value prev next] in Hseg1.
  cbn [fst snd] in Hseg1.
  assert (WL1 : wf_list (<[da:={| key := dk; value := v; prev := last_ptr l1 None;
                                  next := hd_ptr l2 None |}]> h) hd tl
                  (l1 ++ (da, (dk, v)) :: l2)).
  { split; [done| | |].
    - by rewrite Hhd, !hd_ptr_app.
    - by rewrite Htl, !last_ptr_app, !last_ptr_cons.
    - by rewrite fmap_app, fmap_cons in Hnd |- *. }
  destruct (move_to_front_spec c m hd tl _ b l1 (da, (dk, v)) l2 WL1)
    as (h' & hd' & tl' & E & WL').
  cbn [fst snd] in E |- *. rewrite bind_eq, E. prim.
  eexists. split; [reflexivity|]. split; [|done]. split; cbn.
  - done.
  - intros k a. rewrite WM. split; intros [v' Hin].
    + apply elem_of_mid in Hin. apply elem_of_cons in Hin as [Hin|Hin].
      * injection Hin as -> -> ->. exists v. left.
      * exists v'. by right.
    + apply elem_of_cons in Hin as [Hin|Hin].
      * injection Hin as -> -> ->. exists dv. apply elem_of_mid. left.
      * exists v'. apply elem_of_mid. by right.
  - intros x Hx. apply elem_of_cons in Hx as [->|Hx]; cbn.
    + apply (WB (da, (dk, dv))). apply elem_of_mid. left.
    + apply WB. apply elem_of_mid. by right.
Qed.

Lemma put_unfold_miss k v s :
  cache_ s !! k = None →
  put k v s =
  ((fun s => (if (capacity_ s <=? size s)%nat then evict_lru else ret tt) s) ;;;
   push_front k v) s.
Proof. intros H. unfold put. rewrite bind_eq. prim. by rewrite H. Qed.

Lemma wf_fresh s l : wf s l → brk s ∉ l.*1.
Proof.
  intros W Hin. apply list_elem_of_fmap in Hin as (x & E & Hx).
  apply (wf_brk _ _ W) in Hx. lia.
Qed.

Lemma push_front_spec s l k v :
  wf s l → cache_ s !! k = None →
  ∃ s', push_front k v s = Ok (true, s') ∧ wf s' ((brk s, (k, v)) :: l) ∧
        capacity_ s' = capacity_ s.
Proof.
  intros W Hk. pose proof (wf_fresh _ _ W) as Hf.
  destruct s as [c m hd tl h b]. destruct W as [[Hseg Hhd Htl Hnd] WM WB].
  cbn [heap head_ tail_ cache_ brk capacity_] in *.
  assert (WM' : ∀ k0 a, <[k:=b]> m !! k0 = Some a ↔ ∃ v0, (a, (k0, v0)) ∈ (b, (k, v)) :: l).
  { intros k0 a. destruct (decide (k = k0)) as [<-|Hne].
    - rewrite lookup_insert_eq. split.
      + intros [= <-]. exists v. left.
      + intros [v0 Hin]. apply elem_of_cons in Hin as [[= -> ->]|Hin]; [done|].
        assert (m !! k = Some a) as E by (apply WM; eauto). congruence.
    - rewrite lookup_insert_ne by done. rewrite WM. split; intros [v0 Hin].
      + exists v0. by right.
      + apply elem_of_cons in Hin as [[= -> -> ->]|Hin]; [done|]. eauto. }
  assert (WB' : ∀ x, x ∈ (b, (k, v)) :: l → x.1 < S b).
  { intros x Hx. apply elem_of_cons in Hx as [->|Hx]; cbn; [lia|].
    apply WB in Hx. lia. }
  unfold push_front. mstep. mstep. mstep.
  destruct l as [|e l]; cbn [hd_ptr] in Hhd; subst hd.
  - mstep. mstep. prim.
    eexists. split; [reflexivity|]. split; [|done]. split; [|done..].
    cbn. split; [|done|done|].
    + cbn. split; [|done]. by rewrite lookup_insert_eq.
    + rewrite fmap_cons. apply NoDup_cons. split; [|done]. apply not_elem_of_nil.
  - mstep.
    assert (HB : <[b:={| key := k; value := v; prev := None; next := None |}]> h !! b
                 = Some {| key := k; value := v; prev := None; next := None |})
      by apply lookup_insert_eq.
    mstore HB. rewrite insert_insert_eq.
    assert (S' : dseg (<[b:={| key := k; value := v; prev := None; next := Some e.1 |}]> h)
                   None (e :: l) None) by (by apply dseg_frame).
    pose proof S' as [HE _].
    mstore HE. prim.
    assert (Heb : e.1 ≠ b).
    { intros <-. apply Hf. left. }
    eexists. split; [reflexivity|]. split; [|done]. split; [|done..].
    cbn [heap head_ tail_]. split.
    + split.
      * rewrite lookup_insert_ne by done. by rewrite lookup_insert_eq.
      * cbn [fst]. refine (dseg_set_prev _ None (Some b) e l None _ _ S' HE).
        rewrite fmap_cons in Hnd. by apply NoDup_cons in Hnd as [? _].
    + done.
    + subst tl. rewrite (last_ptr_cons (b, (k, v))). apply last_ptr_indep.
    + rewrite fmap_cons. apply NoDup_cons. by split.
Qed.

Lemma dseg_delete h a p l q :
  a ∉ l.*1 → dseg h p l q → dseg (delete a h) p l q.
Proof.
  revert p. induction l as [|c l IH]; intros p Hn; simpl; [done|].
  intros [H1 H2]. rewrite fmap_cons, not_elem_of_cons in Hn. destruct Hn.
  split; [by rewrite lookup_delete_ne | by apply IH].
Qed.

(** Erasing the key of a cell that leaves the list keeps the map in step. *)
Lemma wf_map_erase (m : gmap string nat) (l1 : list cell) d l2 :
  NoDup (l1 ++ d :: l2).*1 →
  (∀ k a, m !! k = Some a ↔ ∃ v, (a, (k, v)) ∈ l1 ++ d :: l2) →
  ∀ k a, delete d.2.1 m !! k = Some a ↔ ∃ v, (a, (k, v)) ∈ l1 ++ l2.
Proof.
  intros Hnd WM k a. destruct (NoDup_mid _ _ _ Hnd) as (Hd1 & Hd2 & _).
  assert (Hd : d.1 ∉ (l1 ++ l2).*1).
  { rewrite fmap_app. intros Hin. apply elem_of_app in Hin as [?|?]; tauto. }
  destruct (decide (d.2.1 = k)) as [<-|Hne].
  - rewrite lookup_delete_eq. split; [done|]. intros [v Hin]. exfalso.
    assert (m !! d.2.1 = Some a) as E1.
    { apply WM. exists v. apply elem_of_mid. right. done. }
    assert (m !! d.2.1 = Some d.1) as E2.
    { apply WM. exists d.2.2. apply elem_of_mid. destruct d as [? [? ?]]. left. }
    rewrite E1 in E2. injection E2 as ->. apply Hd.
    by apply (list_elem_of_fmap_2 fst) in Hin.
  - rewrite lookup_delete_ne by done. rewrite WM. split; intros [v Hin]; exists v.
    + apply elem_of_mid in Hin. apply elem_of_cons in Hin as [Heq|Hin]; [|done].
      subst d. by cbn in Hne.
    + apply elem_of_mid. by right.
Qed.

Lemma evict_lru_spec s l pc d :
  wf s ((l ++ [pc]) ++ [d]) →
  ∃ s', evict_lru s = Ok (tt, s') ∧ wf s' (l ++ [pc]) ∧
        capacity_ s' = capacity_ s ∧ cache_ s' = delete d.2.1 (cache_ s) ∧
        brk s' = brk s.
Proof.
  intros W. destruct s as [c m hd tl h b]. destruct W as [[Hseg Hhd Htl Hnd] WM WB].
  cbn [heap head_ tail_ cache_ brk capacity_] in *.
  destruct (NoDup_mid _ _ _ Hnd) as (Hd1 & _ & Hnd'). rewrite app_nil_r in Hnd'.
  assert (Hpc : pc.1 ∉ l.*1).
  { rewrite fmap_app in Hnd'. apply NoDup_app in Hnd' as (_ & Hn & _).
    intros Hin. apply (Hn _ Hin). left. }
  pose proof Hseg as Hs. apply dseg_app in Hs as [S1 [HD _]]. cbn [hd_ptr] in S1.
  rewrite last_ptr_snoc in *.
  pose proof S1 as Hs. apply dseg_app in Hs as [_ [HP _]]. cbn [hd_ptr] in HP.
  unfold evict_lru. mstep. subst tl. mderef HD. mstep. mstep. mstep. mstore HP.
  assert (HD' : <[pc.1:={| key := pc.2.1; value := pc.2.2; prev := last_ptr l None;
                          next := None |}]> h !! d.1
                = Some {| key := d.2.1; value := d.2.2; prev := Some pc.1; next := None |}).
  { rewrite lookup_insert_ne; [done|]. intros Heq. apply Hd1.
    rewrite fmap_app, <- Heq. apply elem_of_app. right. left. }
  rewrite (delete_ok _ _ _ _ _ _ _ _ HD').
  eexists. split; [reflexivity|]. split; [|done]. split; cbn [heap head_ tail_ cache_ brk].
  - split.
    + apply dseg_delete; [done|].
      exact (dseg_set_next h None l pc (Some d.1) None _ Hpc S1 HP).
    + rewrite Hhd, !hd_ptr_app. by destruct l.
    + by rewrite last_ptr_snoc.
    + done.
  - pose proof (wf_map_erase m (l ++ [pc]) d [] Hnd WM) as WM'.
    by rewrite app_nil_r in WM'.
  - intros x Hx. apply WB. apply elem_of_app. by left.
Qed.

Lemma evict_lru_empty s : wf s [] → evict_lru s = Ok (tt, s).
Proof.
  intros [[_ _ Htl _] _ _]. unfold evict_lru. mstep. by rewrite Htl.
Qed.

(** With a single entry the tail is also the head: [evict_lru] resets [tail_]
    and frees the node but leaves [head_] pointing at it. *)
Lemma evict_lru_single s d :
  wf s [d] →
  evict_lru s = Ok (tt, mk (capacity_ s) (delete d.2.1 (cache_ s)) (Some d.1) None
                          (delete d.1 (heap s)) (brk s)).
Proof.
  intros W. destruct s as [c m hd tl h b]. destruct W as [[Hseg Hhd Htl Hnd] WM WB].
  cbn [heap head_ tail_ cache_ brk capacity_] in *.
  destruct Hseg as [HD _]. cbn in Hhd, Htl, HD. subst hd tl.
  unfold evict_lru. mstep. mderef HD. mstep. mstep. mstep. mstep.
  by rewrite (delete_ok _ _ _ _ _ _ _ _ HD).
Qed.

Lemma put_fresh_room s l k v :
  wf s l → cache_ s !! k = None → length l < capacity_ s →
  ∃ s', put k v s = Ok (true, s') ∧ wf s' ((brk s, (k, v)) :: l) ∧
        capacity_ s' = capacity_ s.
Proof.
  intros W Hk Hlen. rewrite put_unfold_miss by done. rewrite bind_eq.
  rewrite (wf_size _ _ W).
  destruct (Nat.leb_spec (capacity_ s) (length l)) as [?|_]; [lia|].
  unfold ret at 1. by apply push_front_spec.
Qed.

Lemma put_fresh_empty s k v :
  wf s [] →
  ∃ s', put k v s = Ok (true, s') ∧ wf s' [(brk s, (k, v))] ∧
        capacity_ s' = capacity_ s.
Proof.
  intros W.
  assert (Hk : cache_ s !! k = None).
  { apply (wf_lookup_None _ _ _ W). apply not_elem_of_nil. }
  rewrite put_unfold_miss by done. rewrite bind_eq.
  destruct (capacity_ s <=? size s)%nat.
  - rewrite (evict_lru_empty _ W). by apply push_front_spec.
  - unfold ret at 1. by apply push_front_spec.
Qed.

Lemma put_fresh_evict s l pc d k v :
  wf s ((l ++ [pc]) ++ [d]) → cache_ s !! k = None →
  capacity_ s ≤ length ((l ++ [pc]) ++ [d]) →
  ∃ s', put k v s = Ok (true, s') ∧ wf s' ((brk s, (k, v)) :: l ++ [pc]) ∧
        capacity_ s' = capacity_ s.
Proof.
  intros W Hk Hlen. rewrite put_unfold_miss by done. rewrite bind_eq.
  rewrite (wf_size _ _ W).
  destruct (Nat.leb_spec (capacity_ s) (length ((l ++ [pc]) ++ [d]))) as [_|?]; [|lia].
  destruct (evict_lru_spec s l pc d W) as (s1 & E & W1 & Hc & Hm & Hb).
  rewrite E.
  assert (Hk1 : cache_ s1 !! k = None).
  { rewrite Hm. apply lookup_delete_None. by right. }
  destruct (push_front_spec s1 (l ++ [pc]) k v W1 Hk1) as (s2 & E2 & W2 & Hc2).
  rewrite Hb in *. exists s2. split_and!; [done|done|congruence].
Qed.

(** The defect of [evict_lru] shows in the [put] that follows: [head_] still
    points at the freed node and [head_->prev = new_node] writes through it. *)
Lemma put_fresh_single_UB s d k v :
  wf s [d] → cache_ s !! k = None → capacity_ s ≤ 1 → put k v s = UB.
Proof.
  intros W Hk Hlen. rewrite put_unfold_miss by done. rewrite bind_eq.
  rewrite (wf_size _ _ W).
  destruct (Nat.leb_spec (capacity_ s) (length [d])) as [_|?]; [|simpl in *; lia].
  rewrite (evict_lru_single _ _ W).
  assert (Hb : d.1 ≠ brk s).
  { intros E. assert (d.1 < brk s); [|lia]. apply (wf_brk _ _ W). left. }
  destruct s as [c m hd tl h b]. cbn [heap head_ tail_ cache_ brk capacity_] in *.
  unfold push_front. mstep. mstep. mstep.
  assert (HB : <[b:={| key := k; value := v; prev := None; next := None |}]>
                 (delete d.1 h) !! b
               = Some {| key := k; value := v; prev := None; next := None |})
    by apply lookup_insert_eq.
  mstep. mstore HB.
  rewrite bind_eq. unfold store at 1. cbn [heap].
  rewrite lookup_insert_ne by done. rewrite lookup_insert_ne by done.
  by rewrite lookup_delete_eq.
Qed.

Lemma remove_miss k s : cache_ s !! k = None → remove k s = Ok (false, s).
Proof. intros H. unfold remove. mstep. by rewrite H. Qed.

Lemma remove_hit s l1 d l2 :
  wf s (l1 ++ d :: l2) →
  ∃ s', remove d.2.1 s = Ok (true, s') ∧ wf s' (l1 ++ l2) ∧
        capacity_ s' = capacity_ s.
Proof.
  intros W. pose proof (wf_lookup _ _ d W) as Hm.
  destruct s as [c m hd tl h b]. destruct W as [[Hseg Hhd Htl Hnd] WM WB].
  cbn [heap head_ tail_ cache_ brk capacity_] in *.
  pose proof (wf_map_erase m l1 d l2 Hnd WM) as WM'.
  assert (WB' : ∀ x, x ∈ l1 ++ l2 → x.1 < b).
  { intros x Hx. apply WB. apply elem_of_mid. by right. }
  destruct (NoDup_mid _ _ _ Hnd) as (Hd1 & Hd2 & Hnd').
  pose proof Hseg as Hs. apply dseg_app in Hs as [S1 [HD S2]]. cbn [hd_ptr] in S1.
  unfold remove. mstep. rewrite Hm by (apply elem_of_app; right; left).
  mstep. mstep. mderef HD.
  destruct l1 as [|e l1].
  - (* the node is the head *)
    cbn [app hd_ptr] in *. subst hd. rewrite decide_True by done.
    rewrite bind_eq. mstep. mstep.
    destruct l2 as [|x l2]; cbn [hd_ptr].
    + prim. mstep. rewrite bind_eq. rewrite (delete_ok _ _ _ _ _ _ _ _ HD). prim.
      eexists. split; [reflexivity|]. by split.
    + destruct S2 as [HX S2]. rewrite (store_ok _ _ _ _ _ _ _ _ _ HX). prim.
      mstep. rewrite bind_eq.
      assert (HD' : <[x.1:={| key := x.2.1; value := x.2.2; prev := None;
                             next := hd_ptr l2 None |}]> h !! d.1 = Some
                 {| key := d.2.1; value := d.2.2; prev := last_ptr [] None;
                    next := Some x.1 |}).
      { rewrite lookup_insert_ne; [done|]. intros Heq. apply Hd2. rewrite <- Heq. left. }
      rewrite (delete_ok _ _ _ _ _ _ _ _ HD'). prim.
      eexists. split; [reflexivity|]. split; [|done]. split; [|done..].
      cbn [heap head_ tail_]. split; [|done| |done].
      * apply dseg_delete; [done|].
        refine (dseg_set_prev h (Some d.1) None x l2 None _ _ _ HX); [|by split].
        rewrite fmap_cons in Hnd'. by apply NoDup_cons in Hnd' as [? _].
      * subst tl. rewrite last_ptr_cons. apply last_ptr_indep.
  - (* the node has a predecessor *)
    assert (Hne : d.1 ≠ e.1).
    { intros Heq. apply Hd1. rewrite Heq. left. }
    destruct (nonempty_snoc (e :: l1)) as (l1' & pc & E); [done|].
    cbn [app hd_ptr] in Hhd. subst hd.
    rewrite decide_False by (intros [=]; done).
    rewrite E in *. rewrite last_ptr_snoc in HD |- *.
    destruct (unlink_spec c m (Some e.1) h b l1' pc d l2 Hseg Hnd) as (h1 & Hu & S & HD1).
    assert (Hbr : (if decide (Some d.1 = tl) then
         set_tail (Some pc.1) ;;;
         tl' <- get_tail ;;
         match tl' with
         | Some _ => store tl' (set_next None)
         | None => ret tt
         end
       else
         store (Some pc.1) (set_next (hd_ptr l2 None)) ;;;
         n' <- deref (Some d.1) ;;
         store (next n') (set_prev (prev n'))) (mk c m (Some e.1) tl h b)
       = unlink d.1 (mk c m (Some e.1) tl h b)).
    { unfold unlink. rewrite (bind_eq get_tail). prim.
      destruct (decide (Some d.1 = tl)).
      - rewrite (bind_eq (deref _)), (deref_ok _ _ _ _ _ _ _ _ HD). by prim.
      - rewrite (bind_eq (deref _)), (deref_ok _ _ _ _ _ _ _ _ HD). by prim. }
    rewrite bind_eq, Hbr. subst tl. rewrite Hu. mstep. rewrite bind_eq.
    rewrite HD in HD1. rewrite (delete_ok _ _ _ _ _ _ _ _ HD1). prim.
    eexists. split; [reflexivity|]. split; [|done]. split; [|done..].
    cbn [heap head_ tail_]. split; [| |done|done].
    2:{ rewrite hd_ptr_app. destruct l1'; [|cbn in E |- *; congruence]. cbn in E. by injection E as ->. }
    apply dseg_delete; [|done].
    rewrite fmap_app. intros Hin. apply elem_of_app in Hin as [?|?]; tauto.
Qed.

Lemma walk_dseg h l p fuel :
  dseg h p l None → length l ≤ fuel → walk fuel h (hd_ptr l None) = l.*2.
Proof.
  revert p fuel. induction l as [|c l IH]; intros p fuel Hd Hlen.
  - by destruct fuel.
  - destruct fuel as [|fuel]; [simpl in Hlen; lia|].
    destruct Hd as [Hc Hd]. cbn [hd_ptr walk]. rewrite Hc. cbn [key value next].
    rewrite (IH (Some c.1) fuel Hd) by (simpl in Hlen; lia).
    by destruct c as [? [? ?]].
Qed.

Lemma dseg_length h p l q : NoDup l.*1 → dseg h p l q → length l ≤ base.size h.
Proof.
  intros Hnd Hd. rewrite <- (length_fmap fst l), <- (length_map_to_list h).
  rewrite <- (length_fmap fst (map_to_list h)).
  apply submseteq_length, NoDup_submseteq; [done|].
  intros a Ha. apply list_elem_of_fmap in Ha as (c & -> & Hc).
  destruct (dseg_lookup _ _ _ _ _ Hd Hc) as (n & Hn & _).
  apply list_elem_of_fmap. exists (c.1, n). split; [done|].
  by apply elem_of_map_to_list.
Qed.

Lemma wf_recency s l : wf s l → recency s = l.*2.
Proof.
  intros [[Hseg Hhd Htl Hnd] _ _]. unfold recency. rewrite Hhd.
  apply (walk_dseg _ _ None); [done|].
  pose proof (dseg_length _ _ _ _ Hnd Hseg) as HH. lia.
Qed.

Lemma assoc_Some_split (l : list cell) k v :
  assoc k l.*2 = Some v → ∃ l1 a l2, l = l1 ++ (a, (k, v)) :: l2 ∧ k ∉ l1.*2.*1.
Proof.
  induction l as [|[a [k' v']] l IH]; [done|]. cbn. case_decide as E.
  - intros [= ->]. subst k'. exists [], a, l. split; [done|]. apply not_elem_of_nil.
  - intros H. destruct (IH H) as (l1 & a' & l2 & -> & Hk).
    exists ((a, (k', v')) :: l1), a', l2. split; [done|].
    cbn. rewrite not_elem_of_cons. done.
Qed.

Lemma assoc_None (l : list (string * string)) k : assoc k l = None ↔ k ∉ l.*1.
Proof.
  induction l as [|[k' v'] l IH].
  - split; [intros _; apply not_elem_of_nil|done].
  - rewrite fmap_cons, not_elem_of_cons. cbn [assoc fst snd].
    destruct (decide (k' = k)) as [->|Hne].
    + split; [done|]. by intros [? _].
    + rewrite IH. split; [by split|]. by intros [_ ?].
Qed.

Lemma drop_key_notin (l : list (string * string)) k : k ∉ l.*1 → drop_key k l = l.
Proof.
  induction l as [|[k' v'] l IH]; [done|]. rewrite fmap_cons, not_elem_of_cons.
  intros [Hne Hk]. unfold drop_key in *.
  rewrite filter_cons_True by (cbn; intros ->; done). by rewrite IH.
Qed.

Lemma wf_keys_nodup s l : wf s l → NoDup l.*2.*1.
Proof.
  intros W. rewrite <- list_fmap_compose.
  apply NoDup_fmap_2_strong; [|eapply (NoDup_fmap_1 fst), W].
  intros x y Hx Hy E. by eapply wf_key_unique.
Qed.

Lemma drop_key_mid (l1 l2 : list (string * string)) k v :
  NoDup (l1 ++ (k, v) :: l2).*1 → drop_key k (l1 ++ (k, v) :: l2) = l1 ++ l2.
Proof.
  intros Hnd. rewrite fmap_app, fmap_cons in Hnd.
  apply NoDup_app in Hnd as (_ & H1 & H2). apply NoDup_cons in H2 as [H2 _].
  unfold drop_key. rewrite filter_app, filter_cons_False by (cbn; naive_solver).
  fold (drop_key k l1). fold (drop_key k l2).
  rewrite !drop_key_notin; [done|done|]. intros Hin. apply (H1 _ Hin). left.
Qed.

Lemma cached_lookup s l k : wf s l → cached k s = None ↔ cache_ s !! k = None.
Proof.
  intros W. unfold cached. rewrite (wf_recency _ _ W), assoc_None. split.
  - by apply wf_lookup_None.
  - intros Hm Hin. apply list_elem_of_fmap in Hin as ([k' v] & -> & Hin).
    apply list_elem_of_fmap in Hin as ([a kv] & E & Hin). cbn in E. subst kv.
    apply (wf_lookup _ _ _ W) in Hin. cbn in Hin, Hm. congruence.
Qed.

Theorem get_spec s k :
  Inv s →
  match cached k s with
  | Some v =>
      ∃ s', get k s = Ok (Some v, s') ∧ Inv s' ∧ capacity_ s' = capacity_ s ∧
            recency s' = (k, v) :: drop_key k (recency s)
  | None => get k s = Ok (None, s)
  end.
Proof.
  intros [l W]. destruct (cached k s) as [v|] eqn:E.
  - unfold cached in E. rewrite (wf_recency _ _ W) in E |- *.
    apply assoc_Some_split in E as (l1 & a & l2 & -> & _).
    destruct (get_hit s l1 (a, (k, v)) l2 W) as (s' & Hg & W' & Hc).
    exists s'. split_and!; [done|by eexists|done|].
    rewrite (wf_recency _ _ W'). rewrite fmap_cons, !fmap_app, fmap_cons. cbn.
    rewrite drop_key_mid; [done|].
    pose proof (wf_keys_nodup _ _ W) as Hnd. by rewrite fmap_app, fmap_cons in Hnd.
  - apply get_miss. by apply (cached_lookup _ _ _ W).
Qed.

Theorem put_spec s k v :
  Inv s → put_defined k s = true →
  ∃ s', put k v s = Ok (true, s') ∧ Inv s' ∧ capacity_ s' = capacity_ s ∧
        recency s' = a_put (capacity_ s) k v (recency s).
Proof.
  intros [l W]. unfold put_defined, a_put. pose proof (cached_lookup s l k W) as Hcl.
  unfold cached in *. rewrite (wf_recency _ _ W) in *.
  destruct (assoc k l.*2) as [v0|] eqn:E.
  - intros _. apply assoc_Some_split in E as (l1 & a & l2 & -> & _).
    destruct (put_hit s l1 (a, (k, v0)) l2 v W) as (s' & Hp & W' & Hc).
    exists s'. split_and!; [done|by eexists|done|].
    rewrite (wf_recency _ _ W'). cbn [fst snd]. rewrite fmap_cons, !fmap_app, fmap_cons.
    cbn [fst snd]. rewrite drop_key_mid; [done|].
    pose proof (wf_keys_nodup _ _ W) as Hnd. by rewrite fmap_app, fmap_cons in Hnd.
  - intros Hdef. assert (Hk : cache_ s !! k = None) by (by apply Hcl).
    rewrite length_fmap in *.
    destruct (Nat.leb_spec (capacity_ s) (length l)) as [Hle|Hlt].
    + destruct l as [|x l] using rev_ind.
      { destruct (put_fresh_empty s k v W) as (s' & Hp & W' & Hc).
        exists s'. split_and!; [done|by eexists|done|].
        by rewrite (wf_recency _ _ W'). }
      clear IHl. destruct l as [|y l] using rev_ind.
      { cbn [app length] in Hle, Hdef. apply orb_true_iff in Hdef as [Hd|Hd]; [done|].
        apply Nat.leb_le in Hd. lia. }
      clear IHl.
      destruct (put_fresh_evict s l y x k v W Hk Hle) as (s' & Hp & W' & Hc).
      exists s'. split_and!; [done|by eexists|done|].
      rewrite (wf_recency _ _ W'). rewrite fmap_cons. cbn [snd].
      rewrite (fmap_app _ (l ++ [y]) [x]). change (snd <$> [x]) with [x.2].
      by rewrite removelast_last.
    + destruct (put_fresh_room s l k v W Hk Hlt) as (s' & Hp & W' & Hc).
      exists s'. split_and!; [done|by eexists|done|].
      by rewrite (wf_recency _ _ W').
Qed.

Theorem put_undefined s k v :
  Inv s → put_defined k s = false → put k v s = UB.
Proof.
  intros [l W]. unfold put_defined. pose proof (cached_lookup s l k W) as Hcl.
  unfold cached in *. rewrite (wf_recency _ _ W) in *.
  destruct (assoc k l.*2) as [v0|] eqn:E; [done|].
  rewrite length_fmap. intros Hdef. apply orb_false_iff in Hdef as [H1 H2].
  apply negb_false_iff, Nat.eqb_eq in H1. apply Nat.leb_gt in H2.
  destruct l as [|d [|? ?]]; try done.
  apply (put_fresh_single_UB s d k v W); [by apply Hcl|lia].
Qed.

Theorem remove_spec s k :
  Inv s →
  ∃ s', remove k s = Ok (bool_decide (is_Some (cached k s)), s') ∧ Inv s' ∧
        capacity_ s' = capacity_ s ∧ recency s' = drop_key k (recency s).
Proof.
  intros [l W]. pose proof (cached_lookup s l k W) as Hcl.
  unfold cached in *. rewrite (wf_recency _ _ W) in *.
  destruct (assoc k l.*2) as [v0|] eqn:E.
  - apply assoc_Some_split in E as (l1 & a & l2 & -> & _).
    destruct (remove_hit s l1 (a, (k, v0)) l2 W) as (s' & Hp & W' & Hc).
    exists s'. rewrite bool_decide_eq_true_2 by eauto.
    split_and!; [done|by eexists|done|].
    rewrite (wf_recency _ _ W'). rewrite !fmap_app, fmap_cons.
    cbn [fst snd]. rewrite drop_key_mid; [done|].
    pose proof (wf_keys_nodup _ _ W) as Hnd. by rewrite fmap_app, fmap_cons in Hnd.
  - exists s. rewrite bool_decide_eq_false_2 by (by intros [? ?]).
    split_and!; [|by eexists|done|].
    + apply remove_miss. by apply Hcl.
    + rewrite (wf_recency _ _ W). rewrite drop_key_notin; [done|]. by apply assoc_None.
Qed.

Lemma wf_create c : wf (create c) [].
Proof.
  split; [by split; [| | |apply NoDup_nil_2]| |].
  - intros k a. cbn. rewrite lookup_empty. split; [done|].
    intros [v Hin]. by apply elem_of_nil in Hin.
  - intros x Hx. by apply elem_of_nil in Hx.
Qed.

Lemma Inv_create c : Inv (create c).
Proof. eexists. apply wf_create. Qed.

Lemma size_recency s : Inv s → size s = length (recency s).
Proof.
  intros [l W]. by rewrite (wf_recency _ _ W), length_fmap, (wf_size _ _ W).
Qed.

Lemma step_Inv o s s' :
  Inv s → step o s = Ok s' → Inv s' ∧ capacity_ s' = capacity_ s.
Proof.
  intros HI. destruct o as [k|k v|k]; cbn [step].
  - pose proof (get_spec s k HI) as H. destruct (cached k s) as [v|].
    + destruct H as (s1 & -> & HI' & Hc & _). by intros [= <-].
    + rewrite H. by intros [= <-].
  - destruct (put_defined k s) eqn:E.
    + destruct (put_spec s k v HI E) as (s1 & -> & HI' & Hc & _). by intros [= <-].
    + by rewrite (put_undefined s k v HI E).
  - destruct (remove_spec s k HI) as (s1 & -> & HI' & Hc & _). by intros [= <-].
Qed.

Lemma run_list_Inv ops s s' :
  Inv s → run_list step ops s = Ok s' → Inv s' ∧ capacity_ s' = capacity_ s.
Proof.
  revert s. induction ops as [|o ops IH]; intros s HI; cbn [run_list].
  - by intros [= <-].
  - destruct (step o s) as [s1| |] eqn:E; [|done..].
    destruct (step_Inv o s s1 HI E) as [HI1 Hc1]. intros Hr.
    destruct (IH s1 HI1 Hr) as [? ?]. split; [done|congruence].
Qed.

Lemma run_Inv c ops s : run c ops = Ok s → Inv s ∧ capacity_ s = c.
Proof. intros H. by apply (run_list_Inv ops (create c)); [apply Inv_create|]. Qed.

Lemma assoc_drop_key_ne k k' l : k ≠ k' → assoc k (drop_key k' l) = assoc k l.
Proof.
  intros Hne. induction l as [|[k0 v0] l IH]; [done|]. unfold drop_key in *.
  destruct (decide (k0 = k')) as [->|Hk0].
  - rewrite filter_cons_False by (cbn; naive_solver). rewrite IH. cbn.
    by rewrite decide_False.
  - rewrite filter_cons_True by done. cbn. by rewrite IH.
Qed.

Lemma assoc_removelast k v l :
  l ≠ [] → assoc k (removelast ((k, v) :: l)) = Some v.
Proof. destruct l; [done|]. intros _. cbn. by rewrite decide_True. Qed.

(** C7. For a cache reached from the constructor by any calls that returned:
    [get k] on a hit returns the stored value and moves [k] to the front of
    the recency order, the other entries keeping their order, so that a [put]
    of another key straight after does not evict [k]; on a miss it returns
    nothing and the cache is unchanged. *)
Theorem get_promotes_or_leaves c ops s k :
  run c ops = Ok s →
  match cached k s with
  | Some v =>
      ∃ s', get k s = Ok (Some v, s') ∧
            recency s' = (k, v) :: drop_key k (recency s) ∧
            ∀ k' v' s'', k' ≠ k → put k' v' s' = Ok (true, s'') →
                         cached k s'' = Some v
  | None => get k s = Ok (None, s)
  end.
Proof.
  intros Hr. destruct (run_Inv _ _ _ Hr) as [HI _].
  pose proof (get_spec s k HI) as H. destruct (cached k s) as [v|]; [|done].
  destruct H as (s' & Hg & HI' & Hc & Hrec). exists s'. split_and!; [done..|].
  intros k' v' s'' Hne Hp. assert (Hne' : k ≠ k') by congruence.
  destruct (put_defined k' s') eqn:Hdef.
  - destruct (put_spec s' k' v' HI' Hdef) as (s2 & Hp2 & _ & _ & Hrec2).
    rewrite Hp in Hp2. injection Hp2 as <-.
    unfold cached. rewrite Hrec2. unfold a_put.
    unfold put_defined, cached in Hdef. rewrite Hrec in Hdef |- *.
    cbn [assoc fst snd] in *. rewrite decide_False in * by done.
    destruct (assoc k' (drop_key k (recency s))) eqn:E.
    + cbn [assoc fst]. rewrite decide_False by done.
      rewrite (assoc_drop_key_ne k k' _ Hne'). cbn [assoc fst snd]. by rewrite decide_True.
    + cbn [length] in *. destruct (Nat.leb_spec (capacity_ s') (S (length (drop_key k (recency s))))).
      * cbn [assoc fst]. rewrite decide_False by done.
        apply assoc_removelast. intros E0. rewrite E0 in *. cbn [length] in *.
        apply orb_true_iff in Hdef as [Hd|Hd]; [done|]. apply Nat.leb_le in Hd. lia.
      * cbn [assoc fst snd]. rewrite decide_False by done. by rewrite decide_True.
  - by rewrite (put_undefined s' k' v' HI' Hdef) in Hp.
Qed.

Lemma get_promotes_or_leaves_witness :
  ∃ s, run 2 [Put "a" "1"; Put "b" "2"] = Ok s ∧
       match cached "a" s with
       | Some v =>
           ∃ s', get "a" s = Ok (Some v, s') ∧
                 recency s' = ("a"%string, v) :: drop_key "a" (recency s) ∧
                 ∀ k' v' s'', k' ≠ "a"%string → put k' v' s' = Ok (true, s'') →
                              cached "a" s'' = Some v
       | None => get "a" s = Ok (None, s)
       end.
Proof.
  destruct (run 2 [Put "a" "1"; Put "b" "2"]) as [s| |] eqn:E.
  - exists s. split; [reflexivity|].
    exact (get_promotes_or_leaves 2 [Put "a" "1"; Put "b" "2"] s "a" E).
  - exfalso. vm_compute in E. discriminate E.
  - exfalso. vm_compute in E. discriminate E.
Defined.

Lemma assoc_Some_length k v (l : list (string * string)) :
  assoc k l = Some v → S (length (drop_key k l)) ≤ length l.
Proof.
  induction l as [|[k0 v0] l IH]; [done|]. cbn [assoc fst snd]. unfold drop_key in *.
  destruct (decide (k0 = k)) as [->|Hne].
  - intros _. rewrite filter_cons_False by (cbn; naive_solver).
    cbn [length]. pose proof (length_filter (λ kv : string * string, kv.1 ≠ k) l). lia.
  - intros H. rewrite filter_cons_True by done. cbn [length]. apply IH in H. lia.
Qed.

Lemma a_put_length c k v l :
  1 ≤ c → length l ≤ c → length (a_put c k v l) ≤ c.
Proof.
  intros Hc Hl. unfold a_put. destruct (assoc k l) eqn:E.
  - cbn [length]. apply assoc_Some_length in E. lia.
  - destruct (Nat.leb_spec c (length l)); cbn [length]; [|lia].
    destruct l as [|x l _] using rev_ind; [cbn; lia|].
    rewrite removelast_last. rewrite length_app in Hl. cbn in Hl. lia.
Qed.

Lemma step_size o s s' :
  Inv s → 1 ≤ capacity_ s → size s ≤ capacity_ s → step o s = Ok s' →
  size s' ≤ capacity_ s'.
Proof.
  intros HI Hc Hs Hst. destruct (step_Inv o s s' HI Hst) as [HI' Hc'].
  rewrite Hc'. rewrite (size_recency _ HI) in Hs. rewrite (size_recency _ HI').
  destruct o as [k|k v|k]; cbn [step] in Hst.
  - pose proof (get_spec s k HI) as H. destruct (cached k s) as [v|] eqn:E.
    + destruct H as (s1 & Hg & _ & _ & Hrec). rewrite Hg in Hst. injection Hst as <-.
      rewrite Hrec. cbn [length]. apply assoc_Some_length in E. lia.
    + rewrite H in Hst. by injection Hst as <-.
  - destruct (put_defined k s) eqn:E.
    + destruct (put_spec s k v HI E) as (s1 & Hp & _ & _ & Hrec).
      rewrite Hp in Hst. injection Hst as <-. rewrite Hrec. by apply a_put_length.
    + by rewrite (put_undefined s k v HI E) in Hst.
  - destruct (remove_spec s k HI) as (s1 & Hp & _ & _ & Hrec).
    rewrite Hp in Hst. injection Hst as <-. rewrite Hrec.
    pose proof (length_filter (λ kv : string * string, kv.1 ≠ k) (recency s)).
    unfold drop_key. lia.
Qed.

(** Supporting C6: whenever the calls return, the size stays within a
    capacity of one or more. *)
Lemma size_le_capacity c ops s : 1 ≤ c → run c ops = Ok s → size s ≤ c.
Proof.
  intros Hc. unfold run.
  assert (Hgen : ∀ s0, Inv s0 → capacity_ s0 = c → size s0 ≤ c →
                       run_list step ops s0 = Ok s → size s ≤ c).
  { induction ops as [|o ops IH]; intros s0 HI Hcap Hs; cbn [run_list].
    - by intros [= <-].
    - destruct (step o s0) as [s1| |] eqn:E; [|done..].
      destruct (step_Inv o s0 s1 HI E) as [HI1 Hc1].
      apply IH; [done|congruence|].
      replace c with (capacity_ s1) by congruence.
      apply (step_size o s0); [done|lia|lia|done]. }
  apply Hgen; [apply Inv_create|done|]. cbn. rewrite map_size_empty. lia.
Qed.

(** Supporting C6: with a capacity of two or more every call returns. *)
Lemma run_total c ops : 2 ≤ c → ∃ s, run c ops = Ok s.
Proof.
  intros Hc. unfold run.
  assert (Hgen : ∀ s0, Inv s0 → capacity_ s0 = c → ∃ s, run_list step ops s0 = Ok s).
  { induction ops as [|o ops IH]; intros s0 HI Hcap; cbn [run_list]; [eauto|].
    assert (∃ s1, step o s0 = Ok s1) as [s1 E].
    { destruct o as [k|k v|k]; cbn [step].
      - pose proof (get_spec s0 k HI) as H. destruct (cached k s0).
        + destruct H as (s1 & -> & _). eauto.
        + rewrite H. eauto.
      - assert (put_defined k s0 = true) as E.
        { unfold put_defined. destruct (cached k s0); [done|].
          apply orb_true_iff. right. apply Nat.leb_le. lia. }
        destruct (put_spec s0 k v HI E) as (s1 & -> & _). eauto.
      - destruct (remove_spec s0 k HI) as (s1 & -> & _). eauto. }
    rewrite E. destruct (step_Inv o s0 s1 HI E) as [HI1 Hc1].
    apply IH; [done|congruence]. }
  apply Hgen; [apply Inv_create|done].
Qed.

(** Supporting C6: a [put] of a new key into a full cache that returns has
    dropped the last entry of the recency order and nothing else. *)
Lemma put_evicts_least_recent c ops s k v s' :
  run c ops = Ok s → cached k s = None → c ≤ size s →
  put k v s = Ok (true, s') →
  recency s' = (k, v) :: removelast (recency s).
Proof.
  intros Hr Hk Hfull Hp. destruct (run_Inv _ _ _ Hr) as [HI Hc].
  destruct (put_defined k s) eqn:Hdef.
  - destruct (put_spec s k v HI Hdef) as (s1 & Hp1 & _ & _ & Hrec).
    rewrite Hp in Hp1. injection Hp1 as <-. rewrite Hrec. unfold a_put.
    unfold cached in Hk. rewrite Hk. rewrite (size_recency _ HI) in Hfull.
    rewrite Hc. by destruct (Nat.leb_spec c (length (recency s))); [|lia].
  - by rewrite (put_undefined s k v HI Hdef) in Hp.
Qed.

(** C6. With capacity 1 the second [put] of a new key evicts the only node:
    [evict_lru] frees it and clears [tail_] but not [head_], and [put] then
    writes [head_->prev] through the dangling pointer. *)
Theorem capacity_one_second_put_UB :
  run 1 [Put "a" "1"; Put "b" "2"] = UB.
Proof. vm_compute. reflexivity. Qed.

End LRUProofs.

(** ** The server: parsing and dispatch *)

Module ServerProofs.
Import WireSpec StringFacts Server.
Import LRUSpec.
Local Open Scope string_scope.

Lemma substr_from_line (s t : string) :
  substr_from (String.length s + 2) (s ++ crlf ++ t) = t.
Proof. rewrite substr_from_app. reflexivity. Qed.

Lemma parse_args_step n (line buf : string) args :
  find_crlf line = None →
  parse_args (S n) (String "$" line ++ crlf ++ buf) args =
  match stoi line with
  | None => Throw
  | Some len =>
      if (len <? 0)%Z then parse_args n buf (args ++ [""])%list
      else if (INT_MAX - 2 <? len)%Z then UB
      else if (String.length buf <? Z.to_nat (len + 2))%nat
      then Ok (buf, args, false)
      else parse_args n (substr_from (Z.to_nat (len + 2)) buf)
                      (args ++ [substr_to (Z.to_nat len) buf])%list
  end.
Proof.
  intros Hl. cbn [parse_args].
  assert (Hf : find_crlf (String "$" line) = None).
  { rewrite find_crlf_cons. destruct line; [done|]. cbn [starts_crlf].
    replace (Ascii.eqb "$" CR) with false by reflexivity. cbn [andb].
    by rewrite Hl. }
  rewrite (find_crlf_app _ buf Hf). rewrite substr_to_app, substr_from_line.
  reflexivity.
Qed.



Lemma to_string_find_crlf n : find_crlf (to_string n) = None.
Proof. apply all_digits_find_crlf, to_string_all_digits. Qed.

Lemma parse_args_bulk n (a rest : string) args :
  fits a →
  parse_args (S n) (bulk_arg a ++ rest) args = parse_args n rest (args ++ [a])%list.
Proof.
  intros Ha. unfold fits in Ha. unfold bulk_arg.
  repeat first [rewrite append_cons | rewrite append_nil | rewrite app_assoc].
  change (String "$" (to_string (String.length a) ++ crlf ++ a ++ crlf ++ rest))
    with (String "$" (to_string (String.length a)) ++ crlf ++ a ++ crlf ++ rest).
  rewrite parse_args_step by apply to_string_find_crlf.
  rewrite stoi_to_string by (unfold INT_MAX in *; lia).
  destruct (Z.ltb_spec (Z.of_nat (String.length a)) 0); [lia|].
  destruct (Z.ltb_spec (INT_MAX - 2) (Z.of_nat (String.length a))); [lia|].
  replace (Z.to_nat (Z.of_nat (String.length a) + 2)) with (String.length a + 2)%nat by lia.
  rewrite Nat2Z.id.
  destruct (Nat.ltb_spec (String.length (a ++ crlf ++ rest)) (String.length a + 2)) as [Hlt|_].
  { rewrite !app_length in Hlt. cbn in Hlt. lia. }
  by rewrite substr_from_line, substr_to_app.
Qed.

Lemma parse_args_encode args (rest : string) acc :
  Forall fits args →
  parse_args (length args) (encode_args args ++ rest) acc = Ok (rest, (acc ++ args)%list, true).
Proof.
  revert acc. induction args as [|a args IH]; intros acc Hf.
  - cbn. by rewrite app_nil_r.
  - apply Forall_cons in Hf as [Ha Hf]. cbn [length encode_args].
    rewrite app_assoc, parse_args_bulk by done. rewrite IH by done.
    by rewrite <- List.app_assoc.
Qed.

Lemma process_command_buffer cmd s r s' :
  process_command cmd s = Ok (r, s') → client_buffer s' = client_buffer s.
Proof.
  unfold process_command. destruct (extract cmd) as [c iss].
  repeat match goal with
         | |- context [if ?b then _ else _] => destruct b
         | |- context [let (_, _) := ?x in _] => destruct x
         | |- context [match ?x with Ok _ => _ | UB => _ | Throw => _ end] => destruct x as [[[] ?]| |]
         | |- context [match ?x with Ok _ => _ | UB => _ | Throw => _ end] => destruct x as [[? ?]| |]
         end; try done; by intros [= <- <-].
Qed.

Lemma process_buffer_frame fuel s out args (rest : string) :
  args ≠ [] → Forall fits args → (Z.of_nat (length args) <= INT_MAX)%Z →
  client_buffer s = frame args ++ rest →
  process_buffer (S fuel) s out =
  match process_command (join_args args) (with_buffer rest s) with
  | Ok (response, s') => process_buffer fuel s' (out ++ [response])%list
  | UB => UB
  | Throw => Throw
  end.
Proof.
  intros Hne Hf Hn Hb. cbn [process_buffer]. rewrite Hb. unfold frame.
  repeat first [rewrite append_cons | rewrite append_nil | rewrite app_assoc].
  change (String "*" (to_string (length args) ++ crlf ++ encode_args args ++ rest))
    with (String "*" (to_string (length args)) ++ crlf ++ encode_args args ++ rest).
  assert (Hfc : find_crlf (String "*" (to_string (length args))) = None).
  { rewrite find_crlf_cons.
    pose proof (to_string_nonempty (length args)).
    destruct (to_string (length args)) eqn:E; [done|]. cbn [starts_crlf].
    replace (Ascii.eqb "*" CR) with false by reflexivity. cbn [andb].
    rewrite <- E. by rewrite to_string_find_crlf. }
  rewrite (find_crlf_app _ _ Hfc), substr_to_app, substr_from_line.
  cbn [with_buffer client_buffer storage should_stop].
  rewrite stoi_to_string by done. rewrite Nat2Z.id.
  rewrite parse_args_encode by done. cbn [negb app].
  destruct args as [|a args]; [done|]. reflexivity.
Qed.

Lemma handle_read_frame s args :
  client_buffer s = "" → args ≠ [] → Forall fits args →
  (Z.of_nat (length args) <= INT_MAX)%Z →
  handle_read (frame args) s =
  match process_command (join_args args) s with
  | Ok (response, s') => Ok (s', [response])
  | UB => UB
  | Throw => Throw
  end.
Proof.
  intros Hb Hne Hf Hn. unfold handle_read.
  rewrite (process_buffer_frame _ _ _ args "") by
    (try done; cbn [with_buffer client_buffer]; by rewrite Hb, app_empty_r).
  assert (with_buffer "" (with_buffer (client_buffer s ++ frame args) s) = s) as ->.
  { destruct s. cbn in *. by subst. }
  destruct (process_command (join_args args) s) as [[r s']| |] eqn:E; [|done..].
  apply process_command_buffer in E. rewrite Hb in E.
  destruct (String.length _); cbn [process_buffer]; [done|]. by rewrite E.
Qed.

Lemma token_cons s : token s = true → ∃ c s', s = String c s' ∧ isspace c = false ∧ no_space s' = true.
Proof.
  unfold token. destruct s as [|c s']; [done|]. cbn [no_space String.eqb negb andb].
  intros H. apply andb_true_iff in H as [H1 H2]. apply negb_true_iff in H1. eauto.
Qed.

Lemma word_cons c (s : string) :
  word (String c s) = if isspace c then ("", String c s)
                      else let (w, r) := word s in (String c w, r).
Proof. reflexivity. Qed.

Lemma word_no_space (k rest : string) :
  no_space k = true → skip_ws rest = rest ∨ True →
  (rest = "" ∨ ∃ c r, rest = String c r ∧ isspace c = true) →
  word (k ++ rest) = (k, rest).
Proof.
  intros Hk _ Hr. induction k as [|c k IH].
  - rewrite append_nil. destruct Hr as [->|(c & r & -> & Hc)]; [done|].
    by rewrite word_cons, Hc.
  - cbn [no_space] in Hk. apply andb_true_iff in Hk as [Hc Hk].
    apply negb_true_iff in Hc. rewrite append_cons, word_cons, Hc, IH by done. done.
Qed.

Lemma extract_token (k rest : string) :
  token k = true →
  (rest = "" ∨ ∃ c r, rest = String c r ∧ isspace c = true) →
  extract (String " " (k ++ rest)) = (k, rest).
Proof.
  intros Hk Hr. unfold extract. cbn [skip_ws].
  replace (isspace " ") with true by reflexivity.
  destruct (token_cons k Hk) as (c & k' & -> & Hc & Hk').
  rewrite append_cons. cbn [skip_ws]. rewrite Hc. rewrite <- append_cons.
  apply word_no_space; [|by right|done].
  cbn [no_space]. by rewrite Hc, Hk'.
Qed.

Lemma token_nonempty k : token k = true → String.eqb k "" = false.
Proof. unfold token. intros H. apply andb_true_iff in H as [H _]. by apply negb_true_iff. Qed.

Lemma join_set (k v : string) :
  join_args ["SET"; k; v] = String "S" (String "E" (String "T" (String " " (k ++ String " " v)))).
Proof.
  cbn [join_args fold_left].
  repeat first [rewrite append_cons | rewrite append_nil | rewrite app_assoc]. done.
Qed.

Lemma join_cmd (c k : string) : join_args [c; k] = c ++ String " " k.
Proof. cbn [join_args fold_left]. by rewrite append_cons, append_nil. Qed.

Lemma process_command_set (k v : string) s :
  token k = true → token v = true →
  process_command (join_args ["SET"; k; v]) s =
  match StorageEngine.set k v (storage s) with
  | Ok (true, e) => Ok ("+OK" ++ crlf, with_storage e s)
  | Ok (false, e) => Ok ("-ERR invalid key or value" ++ crlf, with_storage e s)
  | UB => UB
  | Throw => Throw
  end.
Proof.
  intros Hk Hv. rewrite join_set. unfold process_command.
  change (extract (String "S" (String "E" (String "T" (String " " (k ++ String " " v))))))
    with (let (w, r) := word (String " " (k ++ String " " v)) in
          (String "S" (String "E" (String "T" w)), r)).
  rewrite word_cons. replace (isspace " ") with true by reflexivity.
  cbn [upper]. 
  change (String.eqb (String (toupper "S") (String (toupper "E") (String (toupper "T") ""))) "PING") with false.
  change (String.eqb (String (toupper "S") (String (toupper "E") (String (toupper "T") ""))) "SET") with true.
  cbv iota.
  rewrite (extract_token k (String " " v)) by (try done; right; by eexists _, _).
  rewrite <- (app_empty_r v) at 1.
  rewrite (extract_token v "") by (try done; by left).
  by rewrite (token_nonempty k), (token_nonempty v).
Qed.

Lemma process_command_set_empty (k : string) s :
  token k = true →
  process_command (join_args ["SET"; k; ""]) s =
  Ok ("-ERR wrong number of arguments for 'set' command" ++ crlf, s).
Proof.
  intros Hk. rewrite join_set. unfold process_command.
  change (extract (String "S" (String "E" (String "T" (String " " (k ++ String " " ""))))))
    with (let (w, r) := word (String " " (k ++ String " " "")) in
          (String "S" (String "E" (String "T" w)), r)).
  rewrite word_cons. replace (isspace " ") with true by reflexivity.
  cbn [upper].
  change (String.eqb (String (toupper "S") (String (toupper "E") (String (toupper "T") ""))) "PING") with false.
  change (String.eqb (String (toupper "S") (String (toupper "E") (String (toupper "T") ""))) "SET") with true.
  cbv iota.
  rewrite (extract_token k (String " " "")) by (try done; right; by eexists _, _).
  change (extract " ") with ("", "").
  by rewrite (token_nonempty k).
Qed.

Lemma process_command_get (k : string) s :
  token k = true →
  process_command (join_args ["GET"; k]) s =
  match StorageEngine.get k (storage s) with
  | Ok (value, e) =>
      if String.eqb value "" then Ok ("$-1" ++ crlf, with_storage e s)
      else Ok (bulk value, with_storage e s)
  | UB => UB
  | Throw => Throw
  end.
Proof.
  intros Hk. rewrite join_cmd. unfold process_command.
  repeat first [rewrite append_cons | rewrite append_nil].
  change (extract (String "G" (String "E" (String "T" (String " " k)))))
    with (let (w, r) := word (String " " k) in
          (String "G" (String "E" (String "T" w)), r)).
  rewrite word_cons. replace (isspace " ") with true by reflexivity.
  cbn [upper].
  change (String.eqb (String (toupper "G") (String (toupper "E") (String (toupper "T") ""))) "PING") with false.
  change (String.eqb (String (toupper "G") (String (toupper "E") (String (toupper "T") ""))) "SET") with false.
  change (String.eqb (String (toupper "G") (String (toupper "E") (String (toupper "T") ""))) "GET") with true.
  cbv iota.
  rewrite <- (app_empty_r k) at 1.
  rewrite (extract_token k "") by (try done; by left).
  by rewrite (token_nonempty k).
Qed.

Lemma process_command_del (k : string) s :
  token k = true →
  process_command (join_args ["DEL"; k]) s =
  match StorageEngine.del k (storage s) with
  | Ok (true, e) => Ok (":1" ++ crlf, with_storage e s)
  | Ok (false, e) => Ok (":0" ++ crlf, with_storage e s)
  | UB => UB
  | Throw => Throw
  end.
Proof.
  intros Hk. rewrite join_cmd. unfold process_command.
  repeat first [rewrite append_cons | rewrite append_nil].
  change (extract (String "D" (String "E" (String "L" (String " " k)))))
    with (let (w, r) := word (String " " k) in
          (String "D" (String "E" (String "L" w)), r)).
  rewrite word_cons. replace (isspace " ") with true by reflexivity.
  cbn [upper].
  change (String.eqb (String (toupper "D") (String (toupper "E") (String (toupper "L") ""))) "PING") with false.
  change (String.eqb (String (toupper "D") (String (toupper "E") (String (toupper "L") ""))) "SET") with false.
  change (String.eqb (String (toupper "D") (String (toupper "E") (String (toupper "L") ""))) "GET") with false.
  change (String.eqb (String (toupper "D") (String (toupper "E") (String (toupper "L") ""))) "DEL") with true.
  cbv iota.
  rewrite <- (app_empty_r k) at 1.
  rewrite (extract_token k "") by (try done; by left).
  by rewrite (token_nonempty k).
Qed.

Lemma cached_a_put c k v l : assoc k (a_put c k v l) = Some v.
Proof.
  unfold a_put. destruct (assoc k l); [|destruct (c <=? length l)%nat];
    cbn [assoc fst snd]; by rewrite decide_True.
Qed.

Lemma engine_set e k v :
  Inv (StorageEngine.cache_ e) → put_defined k (StorageEngine.cache_ e) = true →
  ∃ c, StorageEngine.set k v e
       = Ok (true, StorageEngine.mk c (StorageEngine.disk_storage_ e)
                     (StorageEngine.write_queue_ e ++ [(k, v)])
                     (StorageEngine.in_flight e) (StorageEngine.running_ e)) ∧
       Inv c ∧ cached k c = Some v ∧
       LRUCache.capacity_ c = LRUCache.capacity_ (StorageEngine.cache_ e).
Proof.
  intros HI Hd. destruct (LRUProofs.put_spec _ k v HI Hd) as (c & Hp & HI' & Hc & Hrec).
  exists c. unfold StorageEngine.set, StorageEngine.put. rewrite Hp.
  split_and!; [done|done| |done]. unfold cached. rewrite Hrec. apply cached_a_put.
Qed.

Lemma engine_get_cached e k v :
  Inv (StorageEngine.cache_ e) → cached k (StorageEngine.cache_ e) = Some v →
  ∃ c, StorageEngine.get k e = Ok (v, StorageEngine.with_cache c e) ∧
       Inv c ∧ cached k c = Some v ∧
       LRUCache.capacity_ c = LRUCache.capacity_ (StorageEngine.cache_ e).
Proof.
  intros HI Hc. pose proof (LRUProofs.get_spec _ k HI) as H. rewrite Hc in H.
  destruct H as (c & Hg & HI' & Hcap & Hrec). exists c.
  unfold StorageEngine.get, StorageEngine.get2. rewrite Hg.
  split_and!; [done|done| |done]. unfold cached. rewrite Hrec.
  cbn [assoc fst snd]. by rewrite decide_True.
Qed.

Lemma worker_step_cache ev s out s' out' :
  worker_event ev → Server.step ev (s, out) = Ok (s', out') →
  StorageEngine.cache_ (storage s') = StorageEngine.cache_ (storage s) ∧
  client_buffer s' = client_buffer s ∧ out' = out.
Proof.
  destruct ev as [chunk| |]; [done| |]; intros _; cbn [Server.step].
  - unfold StorageEngine.worker_pop.
    destruct (StorageEngine.running_ (storage s)), (StorageEngine.in_flight (storage s)),
      (StorageEngine.write_queue_ (storage s)); by intros [= <- <-].
  - unfold StorageEngine.worker_write.
    destruct (StorageEngine.in_flight (storage s)); by intros [= <- <-].
Qed.

Lemma worker_steps_cache ws s out :
  Forall worker_event ws →
  ∃ s', run_list Server.step ws (s, out) = Ok (s', out) ∧
        StorageEngine.cache_ (storage s') = StorageEngine.cache_ (storage s) ∧
        client_buffer s' = client_buffer s.
Proof.
  revert s. induction ws as [|ev ws IH]; intros s Hw; [by exists s|].
  apply Forall_cons in Hw as [Hev Hw]. cbn [run_list].
  destruct (Server.step ev (s, out)) as [[s1 out1]| |] eqn:E.
  - destruct (worker_step_cache _ _ _ _ _ Hev E) as (Hc & Hb & ->).
    destruct (IH s1 Hw) as (s' & Hr & Hc' & Hb'). exists s'.
    split_and!; [done|congruence|congruence].
  - destruct ev; [done|cbn in E..].
    + by destruct (StorageEngine.worker_pop _).
    + by destruct (StorageEngine.worker_write _).
  - destruct ev; [done|cbn in E..].
    + by destruct (StorageEngine.worker_pop _).
    + by destruct (StorageEngine.worker_write _).
Qed.

Lemma fits_le (a : string) n :
  (String.length a ≤ n)%nat → (Z.of_nat n <= 2147483645)%Z → fits a.
Proof. unfold fits, INT_MAX. lia. Qed.

(** ** Reads of at most [BUFFER_SIZE] bytes *)

Lemma substr_to_ge n : ∀ s : string, (String.length s ≤ n)%nat → substr_to n s = s.
Proof.
  induction n as [|n IH]; intros [|c s] H; cbn [String.length] in H; try done; [lia|].
  cbn [substr_to]. rewrite IH; [done|lia].
Qed.

Lemma substr_from_ge n : ∀ s : string, (String.length s ≤ n)%nat → substr_from n s = "".
Proof.
  induction n as [|n IH]; intros [|c s] H; cbn [String.length] in H; try done; [lia|].
  cbn [substr_from]. apply IH. lia.
Qed.

(** Bytes that fit the read buffer are taken by one [read]. *)
Lemma handle_client_data_one_read (chunk : string) s :
  chunk ≠ "" → (String.length chunk ≤ BUFFER_SIZE)%nat →
  handle_client_data chunk s = handle_read chunk s.
Proof.
  intros Hne Hl. unfold handle_client_data.
  destruct chunk as [|c r]; [done|]. cbn [String.length read_loop].
  rewrite substr_to_ge, substr_from_ge by done.
  destruct (handle_read (String c r) s) as [[s' out']| |]; [|done..].
  by destruct r.
Qed.

Lemma buffer_fits (a : string) : (String.length a ≤ BUFFER_SIZE)%nat → fits a.
Proof. intros H. apply (fits_le a BUFFER_SIZE); [done|]. vm_compute. discriminate. Qed.

Lemma encode_args_lengths args :
  Forall (λ a : string, (String.length a ≤ String.length (encode_args args))%nat) args ∧
  (length args ≤ String.length (encode_args args))%nat.
Proof.
  induction args as [|a args [IH1 IH2]]; [split; [constructor|done]|].
  cbn [encode_args length]. unfold bulk_arg.
  rewrite !app_length. cbn [String.length].
  split; [|lia]. constructor; [lia|].
  eapply Forall_impl; [exact IH1|]. cbn. intros x Hx. lia.
Qed.

Lemma frame_lengths args :
  Forall (λ a : string, (String.length a ≤ String.length (frame args))%nat) args ∧
  (length args ≤ String.length (frame args))%nat.
Proof.
  destruct (encode_args_lengths args) as [H1 H2]. unfold frame.
  rewrite !app_length. split; [|lia].
  eapply Forall_impl; [exact H1|]. cbn. intros x Hx. lia.
Qed.

Lemma handle_client_data_frame s args :
  client_buffer s = "" → args ≠ [] →
  (String.length (frame args) ≤ BUFFER_SIZE)%nat →
  handle_client_data (frame args) s =
  match process_command (join_args args) s with
  | Ok (response, s') => Ok (s', [response])
  | UB => UB
  | Throw => Throw
  end.
Proof.
  intros Hb Hne Hl. destruct (frame_lengths args) as [H1 H2].
  rewrite handle_client_data_one_read; [|by unfold frame; rewrite append_cons|done].
  rewrite handle_read_frame; [done|done|done| |].
  - eapply Forall_impl; [exact H1|]. cbn. intros x Hx. apply buffer_fits. lia.
  - pose proof (buffer_fits (frame args) Hl) as Hf. unfold fits, INT_MAX in *. lia.
Qed.



(** C4 (amended). The ingress path checks no size. On a connection with an
    empty buffer, for a SET frame of at most [BUFFER_SIZE] bytes that the
    server finds whole in the socket, with a key that is not empty and holds
    no white space, and a cache in which [put k] does not meet the eviction
    defect of C6: when the value is not empty and holds no white space
    either, the request is answered +OK, the pair is cached and queued for
    the writer and the buffer is left empty, whatever the two lengths; when
    the value is empty, the request is answered with the arity error and
    the server is left as it was. *)
Theorem oversize_set_is_accepted s (k v : string) :
  SInv s → client_buffer s = "" →
  token k = true →
  (String.length (frame ["SET"; k; v]) ≤ BUFFER_SIZE)%nat →
  put_defined k (StorageEngine.cache_ (storage s)) = true →
  (token v = true →
   ∃ s', handle_client_data (frame ["SET"; k; v]) s = Ok (s', ["+OK" ++ crlf]) ∧
         client_buffer s' = "" ∧
         cached k (StorageEngine.cache_ (storage s')) = Some v ∧
         StorageEngine.write_queue_ (storage s')
         = (StorageEngine.write_queue_ (storage s) ++ [(k, v)])%list) ∧
  (v = "" →
   handle_client_data (frame ["SET"; k; v]) s
   = Ok (s, ["-ERR wrong number of arguments for 'set' command" ++ crlf])).
Proof.
  intros HI Hb Hk Hl Hd.
  rewrite handle_client_data_frame by done.
  split.
  - intros Hv. rewrite process_command_set by done.
    destruct (engine_set (storage s) k v HI Hd) as (c & -> & HI1 & Hc1 & _).
    eexists. split; [reflexivity|]. by split_and!.
  - intros ->. by rewrite process_command_set_empty.
Qed.

Lemma oversize_set_is_accepted_witness :
  String.length (repeat_char "a" 257) = 257%nat ∧
  String.length (repeat_char "b" 1025) = 1025%nat ∧
  ∃ s', handle_client_data (frame ["SET"; repeat_char "a" 257; repeat_char "b" 1025])
          (create "")
        = Ok (s', ["+OK" ++ crlf]) ∧
        client_buffer s' = "" ∧
        cached (repeat_char "a" 257) (StorageEngine.cache_ (storage s'))
        = Some (repeat_char "b" 1025) ∧
        StorageEngine.write_queue_ (storage s')
        = [(repeat_char "a" 257, repeat_char "b" 1025)].
Proof.
  split; [reflexivity|]. split; [reflexivity|].
  destruct (oversize_set_is_accepted (create "") (repeat_char "a" 257)
              (repeat_char "b" 1025)) as [H _].
  - apply LRUProofs.Inv_create.
  - reflexivity.
  - vm_compute. reflexivity.
  - apply Nat.leb_le. vm_compute. reflexivity.
  - vm_compute. reflexivity.
  - apply H. vm_compute. reflexivity.
Defined.

(** A request longer than the read buffer is no longer a request: the first
    [read] ends inside the value, the parser drops the headers it has read,
    and the value's bytes are then taken for an inline command. Nothing is
    stored. *)
Example long_frame_is_cut :
  let v := repeat_char "b" 4100 in
  (BUFFER_SIZE < String.length (frame ["SET"; "k"; v]))%nat ∧
  handle_client_data (frame ["SET"; "k"; v]) (create "")
  = Ok (create "", ["-ERR unknown command '" ++ v ++ "'" ++ crlf]).
Proof.
  cbv zeta. split; [apply Nat.ltb_lt|]; vm_compute; reflexivity.
Qed.

(** C4, as stated, fails: a 257-byte key is stored and served, and an empty
    value is refused. *)
Lemma oversize_key_is_stored :
  String.length (repeat_char "a" 257) = 257%nat ∧
  replies "" [Read (frame ["SET"; repeat_char "a" 257; "v"]);
              Read (frame ["GET"; repeat_char "a" 257])]
  = Ok ["+OK" ++ crlf; bulk "v"] ∧
  replies "" [Read (frame ["SET"; "k"; ""])]
  = Ok ["-ERR wrong number of arguments for 'set' command" ++ crlf].
Proof. split; [reflexivity|]. split; vm_compute; reflexivity. Qed.


(** C5. The frame GET foo in one read is answered with one reply. Cut after
    the array header [*2], the first read consumes the header and leaves the
    buffer empty, and the second read is then taken for four inline
    commands: four error replies instead of one. *)
Theorem split_frame_is_not_reassembled :
  let whole := frame ["GET"; "foo"] in
  let first := "*2" ++ crlf in
  let second := bulk_arg "GET" ++ bulk_arg "foo" in
  whole = first ++ second ∧
  replies "" [Read whole] = Ok ["$-1" ++ crlf] ∧
  (∃ s, handle_read first (create "") = Ok (s, []) ∧ client_buffer s = "") ∧
  replies "" [Read first; Read second]
  = Ok ["-ERR unknown command '$3'" ++ crlf;
        "-ERR wrong number of arguments for 'get' command" ++ crlf;
        "-ERR unknown command '$3'" ++ crlf;
        "-ERR unknown command 'foo'" ++ crlf].
Proof.
  cbv zeta. split_and!.
  - reflexivity.
  - vm_compute. reflexivity.
  - eexists. split; [vm_compute; reflexivity|reflexivity].
  - vm_compute. reflexivity.
Qed.

End ServerProofs.

(** ** The engine of part-b: deletion *)

Module EngineProofs.
Import LRUSpec EngineSpec StorageEngine.

Ltac eng :=
  cbn [cache_ disk_storage_ write_queue_ in_flight running_ with_cache with_disk
       sync force_flush].
Ltac engd :=
  cbn [cache_ disk_storage_ write_queue_ in_flight running_ with_cache with_disk
       DiskStorage.data_ DiskStorage.file DiskStorage.put DiskStorage.remove
       DiskStorage.save_data].

(** What the three calls of the cache return and leave behind. *)
Lemma cache_get_result c k r c' :
  Inv c → LRUCache.get k c = Ok (r, c') →
  r = cached k c ∧ Inv c' ∧ LRUCache.capacity_ c' = LRUCache.capacity_ c ∧
  LRUCache.recency c' = match cached k c with
                        | Some v => (k, v) :: drop_key k (LRUCache.recency c)
                        | None => LRUCache.recency c
                        end.
Proof.
  intros HI Hg. pose proof (LRUProofs.get_spec c k HI) as H.
  destruct (cached k c) as [v|].
  - destruct H as (c1 & Hg1 & HI1 & Hc & Hrec). rewrite Hg in Hg1.
    by injection Hg1 as -> ->.
  - rewrite Hg in H. by injection H as -> ->.
Qed.

Lemma cache_put_result c k v b c' :
  Inv c → LRUCache.put k v c = Ok (b, c') →
  b = true ∧ Inv c' ∧ LRUCache.capacity_ c' = LRUCache.capacity_ c ∧
  LRUCache.recency c' = a_put (LRUCache.capacity_ c) k v (LRUCache.recency c).
Proof.
  intros HI Hp. destruct (put_defined k c) eqn:Hd.
  - destruct (LRUProofs.put_spec c k v HI Hd) as (c1 & Hp1 & HI1 & Hc & Hrec).
    rewrite Hp in Hp1. by injection Hp1 as -> ->.
  - by rewrite (LRUProofs.put_undefined c k v HI Hd) in Hp.
Qed.

Lemma cache_remove_result c k b c' :
  Inv c → LRUCache.remove k c = Ok (b, c') →
  Inv c' ∧ LRUCache.capacity_ c' = LRUCache.capacity_ c ∧
  LRUCache.recency c' = drop_key k (LRUCache.recency c).
Proof.
  intros HI Hr. destruct (LRUProofs.remove_spec c k HI) as (c1 & Hr1 & HI1 & Hc & Hrec).
  rewrite Hr in Hr1. by injection Hr1 as -> ->.
Qed.

Lemma assoc_drop_key_same k l : assoc k (drop_key k l) = None.
Proof.
  apply LRUProofs.assoc_None. intros Hin.
  apply list_elem_of_fmap in Hin as ([k' v] & -> & Hin).
  unfold drop_key in Hin. apply list_elem_of_filter in Hin as [Hne _]. done.
Qed.

Lemma assoc_drop_key_None k k' l : assoc k l = None → assoc k (drop_key k' l) = None.
Proof.
  rewrite !LRUProofs.assoc_None. intros Hk Hin. apply Hk.
  apply list_elem_of_fmap in Hin as (kv & -> & Hin).
  unfold drop_key in Hin. apply list_elem_of_filter in Hin as [_ Hin].
  by apply (list_elem_of_fmap_2 fst).
Qed.

Lemma assoc_removelast_None k (l : list (string * string)) :
  assoc k l = None → assoc k (removelast l) = None.
Proof.
  rewrite !LRUProofs.assoc_None. intros Hk Hin. apply Hk.
  destruct l as [|x l _] using rev_ind; [done|].
  rewrite removelast_last in Hin. rewrite fmap_app. apply elem_of_app. by left.
Qed.

Lemma assoc_a_put_None c k k' v l :
  k' ≠ k → assoc k l = None → assoc k (a_put c k' v l) = None.
Proof.
  intros Hne Hk. unfold a_put.
  destruct (assoc k' l); [|destruct (c <=? length l)];
    cbn [assoc fst snd]; rewrite decide_False by done;
    [by apply assoc_drop_key_None|by apply assoc_removelast_None|done].
Qed.

Lemma del_result s k b s1 :
  Inv (cache_ s) → del k s = Ok (b, s1) →
  Inv (cache_ s1) ∧
  LRUCache.recency (cache_ s1) = drop_key k (LRUCache.recency (cache_ s)) ∧
  LRUCache.capacity_ (cache_ s1) = LRUCache.capacity_ (cache_ s) ∧
  DiskStorage.data_ (disk_storage_ s1) = delete k (DiskStorage.data_ (disk_storage_ s)) ∧
  write_queue_ s1 = write_queue_ s ∧ in_flight s1 = in_flight s ∧
  running_ s1 = running_ s.
Proof.
  intros HI. unfold del.
  destruct (LRUCache.get k (cache_ s)) as [[hit c]| |] eqn:Hg; [|done..].
  destruct (cache_get_result _ _ _ _ HI Hg) as (-> & HI1 & Hcap & Hrec).
  unfold DiskStorage.get.
  destruct (cached k (cache_ s)) as [v|] eqn:E.
  - destruct (LRUCache.remove k c) as [[b' c1]| |] eqn:Hr; [|done..].
    destruct (cache_remove_result _ _ _ _ HI1 Hr) as (HI2 & Hcap2 & Hrec2).
    assert (Hrec3 : LRUCache.recency c1 = drop_key k (LRUCache.recency (cache_ s))).
    { rewrite Hrec2, Hrec. unfold drop_key. rewrite filter_cons_False by (cbn; naive_solver).
      fold (drop_key k (LRUCache.recency (cache_ s))).
      apply LRUProofs.drop_key_notin. apply LRUProofs.assoc_None, assoc_drop_key_same. }
    destruct (DiskStorage.data_ (disk_storage_ s) !! k) eqn:Ed; intros [= <- <-]; cbn;
      split_and!; try done; try congruence.
    by rewrite delete_id.
  - assert (Hrec3 : LRUCache.recency c = drop_key k (LRUCache.recency (cache_ s))).
    { rewrite Hrec. symmetry. apply LRUProofs.drop_key_notin. by apply LRUProofs.assoc_None. }
    destruct (DiskStorage.data_ (disk_storage_ s) !! k) eqn:Ed; intros [= <- <-]; cbn;
      split_and!; try done.
    by rewrite delete_id.
Qed.

Lemma del_gone s k b s1 :
  Inv (cache_ s) → pending k s = false → del k s = Ok (b, s1) → gone k s1.
Proof.
  intros HI Hp Hd.
  destruct (del_result _ _ _ _ HI Hd) as (HI1 & Hrec & _ & Hdisk & Hq & Hf & _).
  split_and!; [done| | |].
  - unfold cached. rewrite Hrec. apply assoc_drop_key_same.
  - rewrite Hdisk. apply lookup_delete_eq.
  - unfold pending in *. by rewrite Hq, Hf.
Qed.

Lemma has_key_false k kv : has_key k kv = false ↔ kv.1 ≠ k.
Proof. unfold has_key. by rewrite String.eqb_neq. Qed.

Lemma fold_put_lookup k q d :
  existsb (has_key k) q = false →
  DiskStorage.data_ (fold_left (λ d kv, DiskStorage.put kv.1 kv.2 d) q d) !! k
  = DiskStorage.data_ d !! k.
Proof.
  revert d. induction q as [|kv q IH]; intros d; [done|]. cbn [existsb fold_left].
  intros H. apply orb_false_iff in H as [Hk Hq]. rewrite IH by done.
  cbn. apply lookup_insert_ne. by apply has_key_false.
Qed.

Lemma step_gone k o s s' :
  gone k s → leaves k o = true → step o s = Ok s' → gone k s'.
Proof.
  intros (HI & Hc & Hd & Hp) Hl. destruct o as [k'|k' v'|k'| | | |]; cbn [step leaves] in *.
  - (* Get *)
    unfold get, get2.
    destruct (LRUCache.get k' (cache_ s)) as [[hit c]| |] eqn:Hg; [|done..].
    destruct (cache_get_result _ _ _ _ HI Hg) as (-> & HI1 & _ & Hrec).
    assert (Hc1 : cached k c = None).
    { unfold cached in *. rewrite Hrec. destruct (assoc k' (LRUCache.recency (cache_ s))) eqn:E; [|done].
      cbn [assoc fst snd]. destruct (decide (k' = k)) as [->|Hne]; [congruence|].
      by apply assoc_drop_key_None. }
    destruct (cached k' (cache_ s)) as [v|] eqn:E.
    + intros [= <-]. by split_and!.
    + unfold DiskStorage.get.
      destruct (DiskStorage.data_ (disk_storage_ s) !! k') as [v|] eqn:Ed.
      * destruct (LRUCache.put k' v c) as [[b c']| |] eqn:Hput; [|done..].
        intros [= <-]. destruct (cache_put_result _ _ _ _ _ HI1 Hput) as (_ & HI2 & _ & Hrec2).
        split_and!; [done| |done|done]. unfold cached. cbn [cache_ with_cache]. rewrite Hrec2.
        apply assoc_a_put_None; [congruence|done].
      * intros [= <-]. by split_and!.
  - (* Put *)
    apply negb_true_iff, String.eqb_neq in Hl. unfold put.
    destruct (LRUCache.put k' v' (cache_ s)) as [[b c']| |] eqn:Hput; [|done..].
    destruct (cache_put_result _ _ _ _ _ HI Hput) as (-> & HI2 & _ & Hrec2).
    intros [= <-]. split_and!; eng; [done| |done|].
    + unfold cached. rewrite Hrec2. by apply assoc_a_put_None.
    + unfold pending in *. eng. apply orb_false_iff in Hp as [Hq Hf].
      rewrite existsb_app, Hq, Hf. cbn [existsb]. rewrite !orb_false_r.
      by apply has_key_false.
  - (* Del *)
    destruct (del k' s) as [[b s1]| |] eqn:Ed; [|done..]. intros [= <-].
    destruct (del_result _ _ _ _ HI Ed) as (HI1 & Hrec & _ & Hdisk & Hq & Hf & _).
    split_and!; [done| | |].
    + unfold cached in *. rewrite Hrec. by apply assoc_drop_key_None.
    + rewrite Hdisk. destruct (decide (k' = k)) as [->|Hne]; [apply lookup_delete_eq|].
      by rewrite lookup_delete_ne.
    + unfold pending in *. by rewrite Hq, Hf.
  - (* Sync *)
    intros [= <-]. unfold pending in *. apply orb_false_iff in Hp as [Hq Hf].
    split_and!; eng; [done|done| |done]. by rewrite fold_put_lookup.
  - done.
  - (* Pop *)
    intros [= <-]. unfold worker_pop.
    destruct (running_ s), (in_flight s) eqn:Ef, (write_queue_ s) eqn:Eq;
      try (by split_and!).
    unfold pending in *. rewrite Eq, Ef in Hp. cbn in Hp.
    split_and!; eng; [done|done|done|]. unfold pending. cbn.
    rewrite orb_false_r in Hp. apply orb_false_iff in Hp as [? ?].
    apply orb_false_iff. done.
  - (* Write *)
    intros [= <-]. unfold worker_write. destruct (in_flight s) as [kv|] eqn:Ef; [|by split_and!].
    unfold pending in *. rewrite Ef in Hp. apply orb_false_iff in Hp as [Hq Hf].
    split_and!; engd; [done|done| |].
    + rewrite lookup_insert_ne; [done|]. by apply has_key_false.
    + unfold pending. eng. by rewrite Hq.
Qed.

Lemma run_gone k ops s s' :
  gone k s → forallb (leaves k) ops = true → run_list step ops s = Ok s' → gone k s'.
Proof.
  revert s. induction ops as [|o ops IH]; intros s Hg Hl; cbn [run_list].
  - by intros [= <-].
  - cbn [forallb] in Hl. apply andb_true_iff in Hl as [Ho Hl].
    destruct (step o s) as [s1| |] eqn:E; [|done..].
    apply IH; [|done]. by eapply step_gone.
Qed.

Lemma gone_get_nil k s : gone k s → ∃ s', get k s = Ok (""%string, s').
Proof.
  intros (HI & Hc & Hd & _). unfold get, get2.
  pose proof (LRUProofs.get_spec _ k HI) as H. rewrite Hc in H. rewrite H.
  unfold DiskStorage.get. rewrite Hd. eauto.
Qed.

Lemma engine_step_Inv o s s' :
  Inv (cache_ s) → step o s = Ok s' →
  Inv (cache_ s') ∧
  LRUCache.capacity_ (cache_ s') = LRUCache.capacity_ (cache_ s).
Proof.
  intros HI. destruct o as [k|k v|k| | | |]; cbn [step].
  - unfold get, get2.
    destruct (LRUCache.get k (cache_ s)) as [[hit c]| |] eqn:Hg; [|done..].
    destruct (cache_get_result _ _ _ _ HI Hg) as (-> & HI1 & Hcap & _).
    destruct (cached k (cache_ s)); [by intros [= <-]|].
    destruct (DiskStorage.get k (disk_storage_ s)); [|by intros [= <-]].
    destruct (LRUCache.put k s0 c) as [[b c']| |] eqn:Hput; [|done..].
    destruct (cache_put_result _ _ _ _ _ HI1 Hput) as (_ & HI2 & Hcap2 & _).
    intros [= <-]. split; [done|]. eng. congruence.
  - unfold put.
    destruct (LRUCache.put k v (cache_ s)) as [[b c']| |] eqn:Hput; [|done..].
    destruct (cache_put_result _ _ _ _ _ HI Hput) as (-> & HI2 & Hcap2 & _).
    by intros [= <-].
  - destruct (del k s) as [[b s1]| |] eqn:Ed; [|done..]. intros [= <-].
    by destruct (del_result _ _ _ _ HI Ed) as (HI1 & _ & Hcap & _).
  - by intros [= <-].
  - destruct (writer_idle s); [|done].
    intros [= <-]. split; [apply LRUProofs.Inv_create|done].
  - intros [= <-]. unfold worker_pop.
    by destruct (running_ s), (in_flight s), (write_queue_ s).
  - intros [= <-]. unfold worker_write. by destruct (in_flight s).
Qed.

Lemma engine_run_Inv ops s s' :
  Inv (cache_ s) → run_list step ops s = Ok s' → Inv (cache_ s').
Proof.
  revert s. induction ops as [|o ops IH]; intros s HI; cbn [run_list].
  - by intros [= <-].
  - destruct (step o s) as [s1| |] eqn:E; [|done..].
    apply IH. by destruct (engine_step_Inv _ _ _ HI E).
Qed.

Lemma create_Inv c f : Inv (cache_ (create c f)).
Proof. apply LRUProofs.Inv_create. Qed.

(** ** Runs that return *)

Lemma put_defined_ok c k v :
  Inv c → put_defined k c = true → ∃ c', LRUCache.put k v c = Ok (true, c').
Proof.
  intros HI Hd. destruct (LRUProofs.put_spec c k v HI Hd) as (c' & Hp & _). eauto.
Qed.

Lemma del_total s k : Inv (cache_ s) → ∃ b s1, del k s = Ok (b, s1).
Proof.
  intros HI. unfold del. pose proof (LRUProofs.get_spec _ k HI) as Hg.
  destruct (cached k (cache_ s)) as [v|].
  - destruct Hg as (c1 & -> & HI1 & _).
    destruct (LRUProofs.remove_spec c1 k HI1) as (c2 & -> & _).
    destruct (DiskStorage.get k (disk_storage_ s)); eauto.
  - rewrite Hg. destruct (DiskStorage.get k (disk_storage_ s)); eauto.
Qed.

Lemma step_defined o s :
  Inv (cache_ s) → insert_defined o s = true → clear_idle o s = true →
  ∃ s', step o s = Ok s'.
Proof.
  intros HI Hd Hc. destruct o as [k|k v|k| | | |]; cbn [step insert_defined clear_idle] in *.
  - unfold get, get2. pose proof (LRUProofs.get_spec _ k HI) as Hg.
    destruct (cached k (cache_ s)) as [v|].
    + destruct Hg as (c1 & -> & _). cbn. eauto.
    + rewrite Hg. destruct (DiskStorage.get k (disk_storage_ s)) as [v|]; [|cbn; eauto].
      destruct (put_defined_ok _ k v HI Hd) as (c' & ->). cbn. eauto.
  - unfold put. destruct (put_defined_ok _ k v HI Hd) as (c' & ->). cbn. eauto.
  - destruct (del_total s k HI) as (b & s1 & ->). cbn. eauto.
  - eauto.
  - rewrite Hc. eauto.
  - eauto.
  - eauto.
Qed.

Lemma along_cons P o ops s s1 :
  along P (o :: ops) s = true → step o s = Ok s1 →
  P o s = true ∧ along P ops s1 = true.
Proof.
  cbn [along]. intros H E. rewrite E in H. by apply andb_true_iff in H.
Qed.

Lemma along_app P l1 l2 s s1 :
  along P (l1 ++ l2) s = true → run_list step l1 s = Ok s1 → along P l2 s1 = true.
Proof.
  revert s. induction l1 as [|o l1 IH]; intros s H; cbn [run_list app].
  - by intros [= <-].
  - destruct (step o s) as [s'| |] eqn:E; [|done..].
    destruct (along_cons _ _ _ _ _ H E) as [_ H']. by apply IH.
Qed.

Lemma run_defined ops : ∀ s,
  Inv (cache_ s) → inserts_defined ops s = true → clears_idle ops s = true →
  ∃ s', run_list step ops s = Ok s'.
Proof.
  induction ops as [|o ops IH]; intros s HI Hd Hc; cbn [run_list]; [eauto|].
  assert (Ho : insert_defined o s = true).
  { cbn [inserts_defined along] in Hd. by apply andb_true_iff in Hd as [? _]. }
  assert (Hco : clear_idle o s = true).
  { cbn [clears_idle along] in Hc. by apply andb_true_iff in Hc as [? _]. }
  destruct (step_defined o s HI Ho Hco) as (s1 & E). rewrite E.
  destruct (along_cons _ _ _ _ _ Hd E) as [_ Hd1].
  destruct (along_cons _ _ _ _ _ Hc E) as [_ Hc1].
  destruct (engine_step_Inv _ _ _ HI E) as [HI1 _]. by apply IH.
Qed.

(** A run without [clear()] has no [clear()] to race with the thread. *)
Lemma leaves_clears_idle k ops : ∀ s,
  forallb (leaves k) ops = true → clears_idle ops s = true.
Proof.
  induction ops as [|o ops IH]; intros s Hl; [done|].
  cbn [forallb] in Hl. apply andb_true_iff in Hl as [Ho Hl].
  cbn [clears_idle along]. apply andb_true_iff. split.
  - by destruct o.
  - destruct (step o s); [|done..]. by apply IH.
Qed.

Local Open Scope string_scope.

(** C2 (amended). In a state with a well-formed cache in which no pair for
    [k] is waiting in the queue or with the writer thread, [del k] followed
    by any calls that neither [put] [k] nor [clear()], and by any steps of
    the writer thread, returns whenever none of these calls inserts a new key
    into a cache that holds one entry at a capacity below 2; [get k] then
    returns the empty string, [k] is not in the disk map, and the server on
    that engine answers GET k with the nil reply. *)
Theorem del_then_nil s k ops :
  Inv (cache_ s) → pending k s = false →
  forallb (leaves k) ops = true →
  inserts_defined (Del k :: ops) s = true →
  ∃ s2 s3,
    run_list step (Del k :: ops) s = Ok s2 ∧
    get k s2 = Ok ("", s3) ∧
    DiskStorage.get k (disk_storage_ s2) = None ∧
    (WireSpec.token k = true → ∀ srv, Server.storage srv = s2 →
     Server.process_command (Server.join_args ["GET"; k]) srv
     = Ok ("$-1" ++ crlf, Server.with_storage s3 srv)).
Proof.
  intros HI Hp Hl Hd.
  assert (Hc : clears_idle (Del k :: ops) s = true)
    by (by apply (leaves_clears_idle k (Del k :: ops))).
  destruct (run_defined _ _ HI Hd Hc) as (s2 & Hr). exists s2.
  assert (Hg : gone k s2).
  { cbn [run_list step] in Hr.
    destruct (del k s) as [[b s1]| |] eqn:Ed; [|done..]. cbn [discard] in Hr.
    eapply run_gone; [by eapply del_gone|done..]. }
  destruct (gone_get_nil k s2 Hg) as (s3 & Hget). exists s3.
  split; [done|]. split; [done|]. split; [by destruct Hg as (_ & _ & ? & _)|].
  intros Htok srv <-. rewrite ServerProofs.process_command_get by done.
  by rewrite Hget.
Qed.

Lemma del_then_nil_witness :
  let s := state_after [Put "k" "v"; Pop; Write] (create 1 "") in
  let ops := [Put "j" "w"; Pop; Get "j"; Write; Sync; Del "j"; Get "k"; Put "i" "u"] in
  ∃ s2 s3,
    run_list step (Del "k" :: ops) s = Ok s2 ∧
    get "k" s2 = Ok ("", s3) ∧
    DiskStorage.get "k" (disk_storage_ s2) = None ∧
    (WireSpec.token "k" = true → ∀ srv, Server.storage srv = s2 →
     Server.process_command (Server.join_args ["GET"; "k"]) srv
     = Ok ("$-1" ++ crlf, Server.with_storage s3 srv)).
Proof.
  cbv zeta.
  apply (del_then_nil (state_after [Put "k" "v"; Pop; Write] (create 1 "")) "k"
           [Put "j" "w"; Pop; Get "j"; Write; Sync; Del "j"; Get "k"; Put "i" "u"]).
  - apply (engine_run_Inv [Put "k" "v"; Pop; Write] (create 1 "")); [apply create_Inv|].
    vm_compute. reflexivity.
  - vm_compute. reflexivity.
  - reflexivity.
  - vm_compute. reflexivity.
Defined.

(** C2, as stated, fails: [del] leaves the queued pair where it is, and the
    writer thread puts the key back on disk. *)
Lemma queued_write_survives_del :
  WireSpec.replies "" [Server.Read (WireSpec.frame ["SET"; "foo"; "bar"]);
                       Server.Read (WireSpec.frame ["DEL"; "foo"]);
                       Server.WorkerPop; Server.WorkerWrite;
                       Server.Read (WireSpec.frame ["GET"; "foo"])]
  = Ok ["+OK" ++ crlf; ":1" ++ crlf; Server.bulk "bar"] ∧
  (let s := state_after [Put "foo" "bar"] (create 1 "") in
   del "foo" s = Ok (true, after_del "foo" s) ∧
   write_queue_ (after_del "foo" s) = [("foo", "bar")] ∧
   DiskStorage.get "foo" (disk_storage_ (state_after [Pop; Write] (after_del "foo" s)))
   = Some "bar").
Proof. split; [|cbv zeta; split_and!]; vm_compute; reflexivity. Qed.

End EngineProofs.

(** ** The text file of part-b *)

Module DiskProofs.
Import StringFacts EngineSpec DiskStorage.
Local Open Scope string_scope.

Lemma find_char_cons c c' (s : string) :
  find_char c (String c' s) = if Ascii.eqb c' c then Some 0%nat else S <$> find_char c s.
Proof. reflexivity. Qed.

Lemma find_char_app_None c (s t : string) :
  find_char c s = None → find_char c t = None → find_char c (s ++ t) = None.
Proof.
  intros Hs Ht. induction s as [|c' s IH]; [done|].
  rewrite append_cons, find_char_cons. rewrite find_char_cons in Hs.
  destruct (Ascii.eqb c' c); [done|]. destruct (find_char c s); [done|]. by rewrite IH.
Qed.

Lemma find_char_app_first c (s t : string) :
  find_char c s = None → find_char c (s ++ String c t) = Some (String.length s).
Proof.
  intros Hs. induction s as [|c' s IH].
  - rewrite append_nil, find_char_cons. by rewrite Ascii.eqb_refl.
  - rewrite append_cons, find_char_cons. rewrite find_char_cons in Hs.
    destruct (Ascii.eqb c' c); [done|]. destruct (find_char c s); [done|]. by rewrite IH.
Qed.

Lemma find_char_substr_to c n (s : string) :
  find_char c s = None → find_char c (substr_to n s) = None.
Proof.
  revert n. induction s as [|c' s IH]; intros [|n]; try done.
  cbn [substr_to]. rewrite !find_char_cons. destruct (Ascii.eqb c' c); [done|].
  destruct (find_char c s) eqn:E; [done|]. intros _. by rewrite IH.
Qed.

Lemma find_char_substr_from c n (s : string) :
  find_char c s = None → find_char c (substr_from n s) = None.
Proof.
  revert n. induction s as [|c' s IH]; intros [|n]; try done.
  cbn [substr_from]. rewrite !find_char_cons. destruct (Ascii.eqb c' c); [done|].
  destruct (find_char c s) eqn:E; [done|]. intros _. by apply IH.
Qed.

Lemma find_char_before c (s : string) pos :
  find_char c s = Some pos → find_char c (substr_to pos s) = None.
Proof.
  revert pos. induction s as [|c' s IH]; intros pos; [done|].
  rewrite find_char_cons. destruct (Ascii.eqb c' c) eqn:E; [by intros [= <-]|].
  destruct (find_char c s) as [p|] eqn:F; [|done]. intros [= <-].
  cbn [substr_to]. rewrite find_char_cons, E. by rewrite (IH p).
Qed.

(** ** Lines *)

Lemma split_lines_cons c (s : string) :
  split_lines (String c s)
  = if Ascii.eqb c LF then "" :: split_lines s
    else match split_lines s with
         | [] => [String c ""]
         | l :: ls => String c l :: ls
         end.
Proof. reflexivity. Qed.

Lemma split_lines_line (line rest : string) :
  find_char LF line = None →
  split_lines (line ++ newline ++ rest) = line :: split_lines rest.
Proof.
  intros Hl. induction line as [|c line IH]; [done|].
  rewrite find_char_cons in Hl. rewrite append_cons, split_lines_cons.
  destruct (Ascii.eqb c LF); [done|]. destruct (find_char LF line); [done|].
  by rewrite IH.
Qed.

Lemma split_lines_no_LF (s : string) :
  Forall (λ l, find_char LF l = None) (split_lines s).
Proof.
  induction s as [|c s IH]; [constructor|]. rewrite split_lines_cons.
  destruct (Ascii.eqb c LF) eqn:E; [by constructor|].
  destruct (split_lines s) as [|l ls]; [repeat constructor|].
  - by rewrite find_char_cons, E.
  - apply Forall_cons in IH as [Hl Hls]. constructor; [|done].
    by rewrite find_char_cons, E, Hl.
Qed.

Lemma clean_pair_spec k v :
  clean_pair (k, v) = true ↔
  find_char "=" k = None ∧ find_char LF k = None ∧ find_char LF v = None.
Proof.
  unfold clean_pair, clean_key, clean_value. cbn [fst snd].
  destruct (find_char "=" k), (find_char LF k), (find_char LF v); cbn [andb];
    split; try done; intros (? & ? & ?); done.
Qed.

Lemma write_lines_split l :
  Forall (λ kv, clean_pair kv = true) l →
  split_lines (write_lines l) = text_line <$> l.
Proof.
  induction l as [|[k v] l IH]; intros Hl; [done|].
  apply Forall_cons in Hl as [Hkv Hl]. apply clean_pair_spec in Hkv as (_ & Hk & Hv).
  cbn [write_lines]. unfold line_of. cbn [fst snd].
  replace ((k ++ "=" ++ v ++ newline) ++ write_lines l)
    with ((k ++ "=" ++ v) ++ newline ++ write_lines l)
    by (by repeat first [rewrite append_cons | rewrite append_nil | rewrite app_assoc]).
  rewrite split_lines_line, IH; [done|done|].
  apply find_char_app_None; [done|].
  by rewrite append_cons, append_nil, find_char_cons, Hv.
Qed.

Lemma load_line_text m k v :
  find_char "=" k = None → load_line m (text_line (k, v)) = <[k := v]> m.
Proof.
  intros Hk. unfold load_line, text_line. cbn [fst snd].
  rewrite append_cons, append_nil. rewrite (find_char_app_first _ _ _ Hk).
  rewrite substr_to_app.
  change (k ++ String "=" v) with (k ++ String "=" "" ++ v).
  rewrite <- app_assoc.
  replace (String.length k + 1)%nat with (String.length (k ++ String "=" "") + 0)%nat
    by (rewrite app_length; cbn; lia).
  by rewrite substr_from_app, substr_from_0.
Qed.

Lemma fold_load_lines l m :
  Forall (λ kv, clean_pair kv = true) l →
  fold_left load_line (text_line <$> l) m
  = fold_left (λ m kv, <[kv.1 := kv.2]> m) l m.
Proof.
  revert m. induction l as [|[k v] l IH]; intros m Hl; [done|].
  apply Forall_cons in Hl as [Hkv Hl]. apply clean_pair_spec in Hkv as (Hk & _ & _).
  cbn [fmap list_fmap fold_left]. rewrite load_line_text by done. by apply IH.
Qed.

Lemma fold_insert_list_to_map (l : list (string * string)) (m : gmap string string) :
  NoDup l.*1 →
  fold_left (λ m kv, <[kv.1 := kv.2]> m) l m = list_to_map l ∪ m.
Proof.
  revert m. induction l as [|[k v] l IH]; intros m Hnd.
  - cbn. by rewrite (left_id_L ∅ (∪)).
  - rewrite fmap_cons in Hnd. apply NoDup_cons in Hnd as [Hk Hnd].
    cbn [fold_left list_to_map foldr fst snd]. rewrite IH by done.
    rewrite <- insert_union_l. rewrite <- insert_union_r; [done|].
    by apply not_elem_of_list_to_map_1.
Qed.

(** Loading what [save_data] wrote gives the map back, whatever the order
    in which the entries were written. *)
Lemma load_write_lines (l : list (string * string)) :
  Forall (λ kv, clean_pair kv = true) l → NoDup l.*1 →
  load_data (write_lines l) = list_to_map l.
Proof.
  intros Hc Hnd. unfold load_data. rewrite write_lines_split, fold_load_lines by done.
  rewrite fold_insert_list_to_map by done. by rewrite (right_id_L ∅ (∪)).
Qed.

Lemma load_save m :
  clean_map m → load_data (write_lines (map_to_list m)) = m.
Proof.
  intros Hm. rewrite load_write_lines.
  - apply list_to_map_to_list.
  - apply Forall_forall. intros [k v] Hin. apply elem_of_map_to_list in Hin.
    by apply Hm in Hin.
  - apply NoDup_fst_map_to_list.
Qed.

End DiskProofs.

(** ** The engine of part-b: durability *)

Module DurabilityProofs.
Import StringFacts LRUSpec EngineSpec DiskProofs.

(** ** The disk map and its file *)

Lemma load_line_clean m line :
  clean_map m → find_char LF line = None → clean_map (DiskStorage.load_line m line).
Proof.
  intros Hm Hl. unfold DiskStorage.load_line.
  destruct (find_char "=" line) as [pos|] eqn:E; [|done].
  apply map_Forall_insert_2; [|done]. apply clean_pair_spec. split_and!.
  - by apply find_char_before.
  - by apply find_char_substr_to.
  - by apply find_char_substr_from.
Qed.

Lemma load_data_clean f : clean_map (DiskStorage.load_data f).
Proof.
  unfold DiskStorage.load_data.
  assert (∀ lines m, Forall (λ l, find_char LF l = None) lines → clean_map m →
                     clean_map (fold_left DiskStorage.load_line lines m)) as H.
  { induction lines as [|l lines IH]; intros m Hl Hm; [done|].
    apply Forall_cons in Hl as [? ?]. cbn [fold_left]. apply IH; [done|].
    by apply load_line_clean. }
  apply H; [apply split_lines_no_LF|apply map_Forall_empty].
Qed.

Lemma disk_ok_create f : disk_ok (DiskStorage.create f).
Proof. split; [apply load_data_clean|done]. Qed.

Lemma disk_ok_put k v d :
  disk_ok d → clean_pair (k, v) = true → disk_ok (DiskStorage.put k v d).
Proof.
  intros [Hc Hl] Hkv.
  assert (clean_map (<[k:=v]> (DiskStorage.data_ d))) by (by apply map_Forall_insert_2).
  split; cbn; [done|]. by apply load_save.
Qed.

Lemma disk_ok_remove k d : disk_ok d → disk_ok (DiskStorage.remove k d).
Proof.
  intros [Hc Hl].
  assert (clean_map (delete k (DiskStorage.data_ d))) by (by apply map_Forall_delete).
  split; cbn; [done|]. by apply load_save.
Qed.

Lemma disk_ok_fold q d :
  disk_ok d → Forall (λ kv, clean_pair kv = true) q →
  disk_ok (fold_left (λ d kv, DiskStorage.put kv.1 kv.2 d) q d).
Proof.
  revert d. induction q as [|[k v] q IH]; intros d Hd Hq; [done|].
  apply Forall_cons in Hq as [? ?]. cbn [fold_left]. apply IH; [|done].
  by apply disk_ok_put.
Qed.

(** ** The engine's invariant for clean runs *)

Lemma outstanding_queue s :
  Forall (λ kv, clean_pair kv = true) (outstanding s) →
  Forall (λ kv, clean_pair kv = true) (StorageEngine.write_queue_ s).
Proof.
  unfold outstanding. destruct (StorageEngine.in_flight s); [|done].
  intros H. by apply Forall_cons in H as [_ ?].
Qed.

Lemma engine_ok_create c f : engine_ok (StorageEngine.create c f).
Proof. split_and!; [apply EngineProofs.create_Inv|apply disk_ok_create|constructor]. Qed.

Lemma step_engine_ok o s s' :
  engine_ok s → clean_op o = true → step o s = Ok s' → engine_ok s'.
Proof.
  intros (HI & Hd & Ho) Hc Hs.
  destruct (EngineProofs.engine_step_Inv _ _ _ HI Hs) as [HI' _].
  split; [done|]. clear HI'. destruct o as [k|k v|k| | | |]; cbn [step clean_op] in *.
  - unfold StorageEngine.get, StorageEngine.get2 in Hs.
    destruct (LRUCache.get k (StorageEngine.cache_ s)) as [[[v|] c]| |]; [| |done..].
    + by injection Hs as <-.
    + destruct (DiskStorage.get k (StorageEngine.disk_storage_ s)); [|by injection Hs as <-].
      destruct (LRUCache.put k s0 c) as [[b c']| |]; [|done..]. by injection Hs as <-.
  - unfold StorageEngine.put in Hs.
    destruct (LRUCache.put k v (StorageEngine.cache_ s)) as [[b c']| |] eqn:Hput; [|done..].
    destruct (EngineProofs.cache_put_result _ _ _ _ _ HI Hput) as (-> & _).
    injection Hs as <-. split; [done|]. unfold outstanding in *. cbn.
    destruct (StorageEngine.in_flight s).
    + rewrite app_comm_cons. apply Forall_app. split; [done|by repeat constructor].
    + apply Forall_app. split; [done|by repeat constructor].
  - destruct (StorageEngine.del k s) as [[b s1]| |] eqn:Ed; [|done..]. injection Hs as <-.
    destruct (EngineProofs.del_result _ _ _ _ HI Ed) as (_ & _ & _ & Hdisk & Hq & Hf & _).
    split; [|unfold outstanding in *; by rewrite Hq, Hf].
    revert Ed. unfold StorageEngine.del.
    destruct (LRUCache.get k (StorageEngine.cache_ s)) as [[[v|] c]| |]; [| |done..].
    + destruct (LRUCache.remove k c) as [[? ?]| |]; [|done..].
      destruct (DiskStorage.get k (StorageEngine.disk_storage_ s)); intros [= <- <-]; cbn;
        [by apply disk_ok_remove|done].
    + destruct (DiskStorage.get k (StorageEngine.disk_storage_ s)); intros [= <- <-]; cbn;
        [by apply disk_ok_remove|done].
  - injection Hs as <-. split; cbn.
    + apply disk_ok_fold; [done|]. by apply outstanding_queue.
    + unfold outstanding in *. cbn. destruct (StorageEngine.in_flight s); [|constructor].
      apply Forall_cons in Ho as [? _]. by repeat constructor.
  - destruct (StorageEngine.writer_idle s); [|done].
    injection Hs as <-. split; [|done]. destruct Hd as [Hcl Hl]. split; cbn.
    + by rewrite Hl.
    + rewrite Hl. by apply load_save.
  - injection Hs as <-. unfold StorageEngine.worker_pop.
    destruct (StorageEngine.running_ s), (StorageEngine.in_flight s) eqn:Ef,
      (StorageEngine.write_queue_ s) eqn:Eq; try done.
    split; [done|]. unfold outstanding in *. rewrite Ef, Eq in Ho. done.
  - injection Hs as <-. unfold StorageEngine.worker_write.
    destruct (StorageEngine.in_flight s) as [[k v]|] eqn:Ef; [|done].
    unfold outstanding in *. rewrite Ef in Ho. apply Forall_cons in Ho as [Hkv Ho].
    split; cbn; [by apply disk_ok_put|done].
Qed.

Lemma run_engine_ok ops s s' :
  engine_ok s → forallb clean_op ops = true → run_list step ops s = Ok s' →
  engine_ok s'.
Proof.
  revert s. induction ops as [|o ops IH]; intros s Hok Hc; cbn [run_list].
  - by intros [= <-].
  - cbn [forallb] in Hc. apply andb_true_iff in Hc as [Ho Hc].
    destruct (step o s) as [s1| |] eqn:E; [|done..].
    apply IH; [|done]. by eapply step_engine_ok.
Qed.

(** ** Pending or durable *)

Lemma last_write_app k l1 l2 :
  last_write k (l1 ++ l2) = match last_write k l2 with
                            | Some v => Some v
                            | None => last_write k l1
                            end.
Proof.
  induction l1 as [|kv l1 IH]; cbn [app last_write].
  - by destruct (last_write k l2).
  - rewrite IH. by destruct (last_write k l2).
Qed.

Lemma last_write_snoc_other k k' v' l :
  k' ≠ k → last_write k (l ++ [(k', v')]) = last_write k l.
Proof.
  intros Hne. rewrite last_write_app. cbn [last_write].
  by rewrite (proj2 (EngineProofs.has_key_false k (k', v')) Hne).
Qed.

Lemma last_write_snoc_same k v l : last_write k (l ++ [(k, v)]) = Some v.
Proof.
  rewrite last_write_app. cbn [last_write]. unfold has_key. cbn.
  by rewrite String.eqb_refl.
Qed.

Lemma fold_put_last_write k q d :
  DiskStorage.data_ (fold_left (λ d kv, DiskStorage.put kv.1 kv.2 d) q d) !! k
  = match last_write k q with
    | Some v => Some v
    | None => DiskStorage.data_ d !! k
    end.
Proof.
  revert d. induction q as [|kv q IH]; intros d; [done|]. cbn [fold_left last_write].
  rewrite IH. destruct (last_write k q); [done|]. cbn.
  destruct (has_key k kv) eqn:E.
  - unfold has_key in E. apply String.eqb_eq in E as <-. apply lookup_insert_eq.
  - apply lookup_insert_ne. by apply EngineProofs.has_key_false.
Qed.

Lemma put_settled k v s s' :
  Inv (StorageEngine.cache_ s) → step (Put k v) s = Ok s' → settled k v s'.
Proof.
  intros HI. cbn [step]. unfold StorageEngine.put.
  destruct (LRUCache.put k v (StorageEngine.cache_ s)) as [[b c']| |] eqn:Hput; [|done..].
  destruct (EngineProofs.cache_put_result _ _ _ _ _ HI Hput) as (-> & _).
  intros [= <-]. unfold settled, outstanding. cbn.
  destruct (StorageEngine.in_flight s).
  - by rewrite app_comm_cons, last_write_snoc_same.
  - by rewrite last_write_snoc_same.
Qed.

Lemma step_settled k v o s s' :
  engine_ok s → settled k v s → keeps k o = true →
  (o = Sync → StorageEngine.in_flight s = None) →
  step o s = Ok s' → settled k v s'.
Proof.
  intros (HI & Hd & Ho) Hs Hk Hidle. unfold settled in *.
  destruct o as [k'|k' v'|k'| | | |]; cbn [step keeps] in *.
  - unfold StorageEngine.get, StorageEngine.get2.
    destruct (LRUCache.get k' (StorageEngine.cache_ s)) as [[[w|] c]| |]; [| |done..].
    + by intros [= <-].
    + destruct (DiskStorage.get k' (StorageEngine.disk_storage_ s)); [|by intros [= <-]].
      destruct (LRUCache.put k' s0 c) as [[b c']| |]; [|done..]. by intros [= <-].
  - apply negb_true_iff, String.eqb_neq in Hk. unfold StorageEngine.put.
    destruct (LRUCache.put k' v' (StorageEngine.cache_ s)) as [[b c']| |] eqn:Hput; [|done..].
    destruct (EngineProofs.cache_put_result _ _ _ _ _ HI Hput) as (-> & _).
    intros [= <-]. unfold outstanding in *. cbn.
    destruct (StorageEngine.in_flight s).
    + by rewrite app_comm_cons, last_write_snoc_other.
    + by rewrite last_write_snoc_other.
  - apply negb_true_iff, String.eqb_neq in Hk.
    destruct (StorageEngine.del k' s) as [[b s1]| |] eqn:Ed; [|done..]. intros [= <-].
    destruct (EngineProofs.del_result _ _ _ _ HI Ed) as (_ & _ & _ & Hdisk & Hq & Hf & _).
    unfold outstanding in *. rewrite Hq, Hf, Hdisk. by rewrite lookup_delete_ne.
  - intros [= <-]. pose proof (Hidle eq_refl) as Hf. unfold outstanding in *.
    rewrite Hf in Hs.
    cbn [StorageEngine.sync StorageEngine.force_flush StorageEngine.in_flight
         StorageEngine.write_queue_ StorageEngine.disk_storage_].
    rewrite Hf. cbn [last_write]. rewrite fold_put_last_write.
    destruct (last_write k (StorageEngine.write_queue_ s)); [by subst|done].
  - destruct (StorageEngine.writer_idle s); [|done].
    intros [= <-]. destruct Hd as [_ Hl]. unfold outstanding in *. cbn. by rewrite Hl.
  - intros [= <-]. unfold StorageEngine.worker_pop.
    destruct (StorageEngine.running_ s), (StorageEngine.in_flight s) eqn:Ef,
      (StorageEngine.write_queue_ s) eqn:Eq; try done.
    unfold outstanding in *. by rewrite Ef, Eq in Hs.
  - intros [= <-]. unfold StorageEngine.worker_write.
    destruct (StorageEngine.in_flight s) as [kv|] eqn:Ef; [|done].
    unfold outstanding in *. rewrite Ef in Hs. cbn in Hs |- *.
    destruct (last_write k (StorageEngine.write_queue_ s)); [done|].
    destruct (has_key k kv) eqn:E.
    + unfold has_key in E. apply String.eqb_eq in E as <-. subst v. apply lookup_insert_eq.
    + rewrite lookup_insert_ne; [done|]. by apply EngineProofs.has_key_false.
Qed.

Lemma syncs_idle_cons o ops s s1 :
  syncs_idle (o :: ops) s = true → step o s = Ok s1 →
  (o = Sync → StorageEngine.in_flight s = None) ∧ syncs_idle ops s1 = true.
Proof.
  intros H E. change (syncs_idle (o :: ops) s) with
    (match o, StorageEngine.in_flight s with
     | Sync, Some _ => false
     | _, _ => match step o s with
               | Ok s' => syncs_idle ops s'
               | _ => true
               end
     end) in H.
  rewrite E in H. split.
  - intros ->. by destruct (StorageEngine.in_flight s).
  - by destruct o, (StorageEngine.in_flight s).
Qed.

Lemma run_settled k v ops s s' :
  engine_ok s → settled k v s →
  forallb clean_op ops = true → forallb (keeps k) ops = true →
  syncs_idle ops s = true →
  run_list step ops s = Ok s' → engine_ok s' ∧ settled k v s'.
Proof.
  revert s. induction ops as [|o ops IH]; intros s Hok Hs Hc Hk Hi; cbn [run_list].
  - by intros [= <-].
  - cbn [forallb] in Hc, Hk. apply andb_true_iff in Hc as [Hco Hc], Hk as [Hko Hk].
    destruct (step o s) as [s1| |] eqn:E; [|done..].
    destruct (syncs_idle_cons _ _ _ _ Hi E) as [Hidle Hi1].
    apply IH; [by eapply step_engine_ok|by eapply step_settled|done..].
Qed.

Lemma run_list_app {S A} (step : A → S → result S) l1 l2 s :
  run_list step (l1 ++ l2) s
  = match run_list step l1 s with
    | Ok s1 => run_list step l2 s1
    | UB => UB
    | Throw => Throw
    end.
Proof.
  revert s. induction l1 as [|o l1 IH]; intros s; [done|]. cbn [app run_list].
  destruct (step o s); [apply IH|done..].
Qed.

Lemma syncs_idle_app l1 l2 s s1 :
  syncs_idle (l1 ++ l2) s = true → run_list step l1 s = Ok s1 →
  syncs_idle l2 s1 = true.
Proof.
  revert s. induction l1 as [|o l1 IH]; intros s Hi; cbn [run_list app].
  - by intros [= <-].
  - destruct (step o s) as [s'| |] eqn:E; [|done..].
    destruct (syncs_idle_cons _ _ _ _ Hi E) as [_ Hi']. by apply IH.
Qed.

Lemma restart_get c s k v :
  disk_ok (StorageEngine.disk_storage_ s) →
  DiskStorage.data_ (StorageEngine.disk_storage_ s) !! k = Some v →
  ∃ s', StorageEngine.get k (restart c s) = Ok (v, s').
Proof.
  intros [_ Hl] Hk. unfold restart, StorageEngine.create, StorageEngine.get, StorageEngine.get2.
  cbn [StorageEngine.cache_ StorageEngine.disk_storage_].
  rewrite LRUProofs.get_miss by done.
  unfold DiskStorage.get, DiskStorage.create. cbn [DiskStorage.data_]. rewrite Hl, Hk.
  destruct (LRUProofs.put_fresh_empty (LRUCache.create c) k v (LRUProofs.wf_create c))
    as (c' & -> & _). eauto.
Qed.

(** C3 (amended). From the start of the process on any [data.txt], for a run
    of calls and writer steps that ends with [sync()] and in which
    - every [put] carries a key without '=' and newline and a value without
      newline,
    - every [sync()] finds the writer thread without a pair in its hands,
    - every [clear()] finds the writer thread idle, and
    - no call inserts a new key into a cache that holds one entry at a
      capacity below 2,
    the run returns, and a [put k v] of it that no later [put k] or [del k]
    follows is read back by [get k] after a restart; the server answers
    GET k with the bulk string of [v] when [k] is a token and [v] is not
    empty. *)
Theorem synced_set_survives_restart c f ops1 k v ops2 c' :
  forallb clean_op (ops1 ++ Put k v :: ops2) = true →
  forallb (keeps k) ops2 = true →
  syncs_idle (ops1 ++ Put k v :: ops2 ++ [Sync]) (StorageEngine.create c f) = true →
  clears_idle (ops1 ++ Put k v :: ops2 ++ [Sync]) (StorageEngine.create c f) = true →
  inserts_defined (ops1 ++ Put k v :: ops2 ++ [Sync]) (StorageEngine.create c f) = true →
  ∃ s1,
    run_list step (ops1 ++ Put k v :: ops2 ++ [Sync]) (StorageEngine.create c f) = Ok s1 ∧
    (∃ s2, StorageEngine.get k (restart c' s1) = Ok (v, s2)) ∧
    (WireSpec.token k = true → v ≠ ""%string →
     ∃ srv, Server.process_command (Server.join_args ["GET"; k]%string)
              (Server.create (DiskStorage.file (StorageEngine.disk_storage_ s1)))
            = Ok (Server.bulk v, srv)).
Proof.
  intros Hc Hk Hi Hci Hdef.
  destruct (EngineProofs.run_defined _ _ (EngineProofs.create_Inv c f) Hdef Hci)
    as (s1 & Hr).
  exists s1. split; [done|].
  rewrite forallb_app in Hc. cbn [forallb] in Hc.
  apply andb_true_iff in Hc as [Hc1 Hc]. apply andb_true_iff in Hc as [Hckv Hc2].
  rewrite run_list_app in Hr.
  destruct (run_list step ops1 (StorageEngine.create c f)) as [sa| |] eqn:E1; [|done..].
  pose proof (syncs_idle_app _ _ _ _ Hi E1) as Hi1.
  pose proof (run_engine_ok _ _ _ (engine_ok_create c f) Hc1 E1) as Hoka.
  cbn [run_list] in Hr. destruct (step (Put k v) sa) as [sb| |] eqn:E2; [|done..].
  destruct (syncs_idle_cons _ _ _ _ Hi1 E2) as [_ Hi2].
  pose proof (step_engine_ok _ _ _ Hoka Hckv E2) as Hokb.
  pose proof (put_settled k v sa sb (proj1 Hoka) E2) as Hsb.
  assert (Hc3 : forallb clean_op (ops2 ++ [Sync]) = true).
  { rewrite forallb_app, Hc2. done. }
  assert (Hk3 : forallb (keeps k) (ops2 ++ [Sync]) = true).
  { rewrite forallb_app, Hk. done. }
  destruct (run_settled k v _ _ _ Hokb Hsb Hc3 Hk3 Hi2 Hr) as [Hok1 Hs1].
  assert (Hdisk : DiskStorage.data_ (StorageEngine.disk_storage_ s1) !! k = Some v).
  { rewrite run_list_app in Hr. destruct (run_list step ops2 sb) as [sc| |] eqn:E3; [|done..].
    pose proof (syncs_idle_app _ _ _ _ Hi2 E3) as H. cbn in H.
    destruct (StorageEngine.in_flight sc) eqn:Ef; [done|].
    cbn in Hr. injection Hr as <-. unfold settled, outstanding in Hs1. cbn in Hs1.
    by rewrite Ef in Hs1. }
  destruct Hok1 as (_ & Hd1 & _).
  split; [by apply restart_get|].
  intros Htok Hv. rewrite ServerProofs.process_command_get by done.
  destruct (restart_get 1 s1 k v Hd1 Hdisk) as (s2 & Hg).
  unfold restart in Hg. cbn [Server.create Server.storage]. rewrite Hg.
  destruct (String.eqb_spec v ""); [done|]. eauto.
Qed.

Local Open Scope string_scope.

Lemma synced_set_survives_restart_witness :
  let ops1 := [Put "a" "1"; Pop; Write; Clear] in
  let ops2 := [Pop; Write; Sync; Clear; Put "b" "2"; Pop; Get "b"; Del "b"; Write] in
  ∃ s1,
    run_list step (ops1 ++ Put "foo" "bar" :: ops2 ++ [Sync])%list
      (StorageEngine.create 1 "") = Ok s1 ∧
    (∃ s2, StorageEngine.get "foo" (restart 1 s1) = Ok ("bar", s2)) ∧
    (WireSpec.token "foo" = true → "bar" ≠ "" →
     ∃ srv, Server.process_command (Server.join_args ["GET"; "foo"])
              (Server.create (DiskStorage.file (StorageEngine.disk_storage_ s1)))
            = Ok (Server.bulk "bar", srv)).
Proof.
  cbv zeta.
  apply (synced_set_survives_restart 1 "" [Put "a" "1"; Pop; Write; Clear] "foo" "bar"
           [Pop; Write; Sync; Clear; Put "b" "2"; Pop; Get "b"; Del "b"; Write]).
  - reflexivity.
  - reflexivity.
  - vm_compute. reflexivity.
  - vm_compute. reflexivity.
  - vm_compute. reflexivity.
Defined.

(** C3, as stated, fails: the line written for the key [a=b] is read back
    as the key [a], so after [sync()] and a restart GET a=b finds nothing. *)
Lemma key_with_equals_is_lost :
  let s1 := state_after [Put "a=b" "c"; Sync] (StorageEngine.create 1 "") in
  run_list step [Put "a=b" "c"; Sync] (StorageEngine.create 1 "") = Ok s1 ∧
  DiskStorage.file (StorageEngine.disk_storage_ s1) = "a=b=c" ++ newline ∧
  value_of (StorageEngine.get "a=b" (restart 1 s1)) = Some "" ∧
  value_of (Server.process_command (Server.join_args ["GET"; "a=b"])
              (Server.create (DiskStorage.file (StorageEngine.disk_storage_ s1))))
  = Some ("$-1" ++ crlf) ∧
  value_of (StorageEngine.get "a" (restart 1 s1)) = Some "b=c".
Proof. cbv zeta. split_and!; vm_compute; reflexivity. Qed.

End DurabilityProofs.

(** ** The log of part-a *)

Module PartAProofs.
Import StringFacts PartA PartASpec.
Local Open Scope string_scope.

(** *** The disk branch of [get] *)

(** Each of the four defects makes the read fail. *)
Lemma read_record_corrupt f off key :
  corrupt f off key → read_record f off key = None.
Proof.
  intros Hc. unfold read_record, read_u32, read_bytes.
  destruct (Nat.leb_spec (off + 4) (String.length f)); [|done].
  fold (key_len_at f off).
  destruct (N.ltb_spec MAX_KEY_SIZE (key_len_at f off)); [done|].
  destruct (Nat.leb_spec (off + 4 + N.to_nat (key_len_at f off)) (String.length f)); [|done].
  fold (key_at f off).
  destruct (String.eqb_spec (key_at f off) key); cbn [negb]; [|done].
  destruct (Nat.leb_spec (off + 4 + N.to_nat (key_len_at f off) + 4) (String.length f)); [|done].
  fold (value_len_at f off).
  destruct (N.ltb_spec MAX_VALUE_SIZE (value_len_at f off)); [done|].
  destruct (Nat.leb_spec (off + 4 + N.to_nat (key_len_at f off) + 4
                          + N.to_nat (value_len_at f off)) (String.length f)); [|done].
  exfalso. destruct Hc as [Hs|Hk|Hv|Hd]; [|lia|lia|done].
  unfold record_size in Hs. lia.
Qed.

(** The converse: a record that is not corrupt is read. *)
Lemma read_record_intact f off key :
  ¬ corrupt f off key → read_record f off key = Some (value_at f off).
Proof.
  intros Hc. unfold read_record, read_u32, read_bytes.
  assert (Hsz : (off + record_size f off ≤ String.length f)%nat).
  { destruct (Nat.le_gt_cases (off + record_size f off) (String.length f)); [done|].
    exfalso. apply Hc. by apply short_read. }
  unfold record_size in Hsz.
  destruct (Nat.leb_spec (off + 4) (String.length f)); [|lia].
  fold (key_len_at f off).
  destruct (N.ltb_spec MAX_KEY_SIZE (key_len_at f off)) as [Hk|_].
  { exfalso. apply Hc. by apply key_length_exceeds. }
  destruct (Nat.leb_spec (off + 4 + N.to_nat (key_len_at f off)) (String.length f)); [|lia].
  fold (key_at f off).
  destruct (String.eqb_spec (key_at f off) key) as [_|Hd]; cbn [negb].
  2:{ exfalso. apply Hc. by apply key_differs. }
  destruct (Nat.leb_spec (off + 4 + N.to_nat (key_len_at f off) + 4) (String.length f)); [|lia].
  fold (value_len_at f off).
  destruct (N.ltb_spec MAX_VALUE_SIZE (value_len_at f off)) as [Hv|_].
  { exfalso. apply Hc. by apply value_length_exceeds. }
  destruct (Nat.leb_spec (off + 4 + N.to_nat (key_len_at f off) + 4
                          + N.to_nat (value_len_at f off)) (String.length f)); [|lia].
  done.
Qed.

(** A key that is in neither map reads as the empty string. *)
Lemma get_absent s key :
  data_ s !! key = None → disk_index s !! key = None → get key s = ("", s).
Proof. intros Hd Hi. unfold get. by rewrite Hd, Hi. Qed.

(** The constructor on a log that was cut inside the value of the only
    record: the entry is indexed, and the value is not cached. On the whole
    log it is cached, without a look at the stored key. *)
Example truncated_log_loaded :
  load_disk_index truncated_index truncated_file = Ok truncated_log ∧
  (∃ s, load_disk_index truncated_index (record "j" "v") = Ok s ∧
        data_ s !! "k" = Some "v").
Proof. split; [reflexivity|]. eexists. split; reflexivity. Qed.

(** *** Four bytes and a [uint32_t] *)

Lemma byte_roundtrip n : N_of_ascii (ascii_of_N (n mod 256)) = (n mod 256)%N.
Proof. apply N_ascii_embedding, N.mod_lt. done. Qed.

Lemma u32_combine n : (n < 4294967296)%N →
  (n mod 256 + 256 * ((n / 256) mod 256) + 65536 * ((n / 65536) mod 256)
   + 16777216 * ((n / 16777216) mod 256))%N = n.
Proof. intros H. zify. Z.to_euclidean_division_equations. lia. Qed.

Lemma u32_split (n0 n1 n2 n3 : N) :
  (n0 < 256 → n1 < 256 → n2 < 256 → n3 < 256 →
   let n := n0 + 256 * n1 + 65536 * n2 + 16777216 * n3 in
   n mod 256 = n0 ∧ (n / 256) mod 256 = n1 ∧ (n / 65536) mod 256 = n2
   ∧ (n / 16777216) mod 256 = n3 ∧ n < 4294967296)%N.
Proof. intros H0 H1 H2 H3 n. subst n. zify. Z.to_euclidean_division_equations. lia. Qed.

Lemma u32_bytes_length n : String.length (u32_bytes n) = 4%nat.
Proof. reflexivity. Qed.

Lemma u32_of_bytes_app n rest :
  (n < 4294967296)%N → u32_of_bytes (u32_bytes n ++ rest) = n.
Proof.
  intros H. unfold u32_bytes. rewrite !app_assoc. unfold byte.
  rewrite !append_cons, !append_nil. cbn [u32_of_bytes]. rewrite !byte_roundtrip. by apply u32_combine.
Qed.

Lemma u32_of_bytes_lt b : (u32_of_bytes b < 4294967296)%N.
Proof.
  destruct b as [|b0 [|b1 [|b2 [|b3 b]]]]; try done. cbn [u32_of_bytes].
  apply (u32_split _ _ _ _ (N_ascii_bounded b0) (N_ascii_bounded b1)
           (N_ascii_bounded b2) (N_ascii_bounded b3)).
Qed.

Lemma u32_bytes_of_bytes b :
  String.length b = 4%nat → u32_bytes (u32_of_bytes b) = b.
Proof.
  destruct b as [|b0 [|b1 [|b2 [|b3 [|]]]]]; try done. intros _.
  cbn [u32_of_bytes].
  destruct (u32_split _ _ _ _ (N_ascii_bounded b0) (N_ascii_bounded b1)
              (N_ascii_bounded b2) (N_ascii_bounded b3)) as (E0 & E1 & E2 & E3 & _).
  unfold u32_bytes, byte. rewrite E0, E1, E2, E3, !ascii_N_embedding.
  reflexivity.
Qed.

(** *** Reading what was written *)

Lemma substr_to_length (s : string) : substr_to (String.length s) s = s.
Proof. rewrite <- (app_empty_r s) at 2. apply substr_to_app. Qed.

Lemma substr_split (n : nat) (s : string) :
  (n ≤ String.length s)%nat →
  s = substr_to n s ++ substr_from n s ∧ String.length (substr_to n s) = n.
Proof.
  revert s. induction n as [|n IH]; intros s Hn.
  - by destruct s.
  - destruct s as [|c s]; cbn [String.length] in Hn; [lia|].
    cbn [substr_to substr_from String.length]. rewrite append_cons.
    destruct (IH s) as [E1 E2]; [lia|]. by rewrite <- E1, E2.
Qed.

Lemma substr_from_add (n m : nat) (s : string) :
  (n ≤ String.length s)%nat →
  substr_from (n + m) s = substr_from m (substr_from n s).
Proof.
  revert s. induction n as [|n IH]; intros s Hn.
  - by rewrite substr_from_0.
  - destruct s as [|c s]; cbn [String.length] in Hn; [lia|].
    cbn [substr_from Nat.add]. apply IH. lia.
Qed.

Lemma substr_from_length (n : nat) (s : string) :
  (n ≤ String.length s)%nat →
  String.length (substr_from n s) = (String.length s - n)%nat.
Proof.
  revert s. induction n as [|n IH]; intros s Hn.
  - rewrite substr_from_0. lia.
  - destruct s as [|c s]; cbn [String.length] in *; [lia|].
    cbn [substr_from]. rewrite IH; lia.
Qed.

Lemma read_bytes_app (pre x rest : string) (off : nat) :
  off = String.length pre →
  read_bytes (pre ++ x ++ rest) off (String.length x) =
  Some (x, (off + String.length x)%nat).
Proof.
  intros ->. unfold read_bytes. rewrite !app_length.
  destruct (Nat.leb_spec (String.length pre + String.length x)
              (String.length pre + (String.length x + String.length rest))); [|lia].
  rewrite <- (Nat.add_0_r (String.length pre)) at 1.
  by rewrite substr_from_app, substr_from_0, substr_to_app.
Qed.

Lemma read_u32_app (pre : string) (n : N) (rest : string) (off : nat) :
  off = String.length pre → (n < 4294967296)%N →
  read_u32 (pre ++ u32_bytes n ++ rest) off = Some (n, (off + 4)%nat).
Proof.
  intros Hoff Hn. unfold read_u32.
  change 4%nat with (String.length (u32_bytes n)).
  rewrite read_bytes_app by done.
  by rewrite <- (app_empty_r (u32_bytes n)) at 1; rewrite u32_of_bytes_app.
Qed.

Lemma record_length k v :
  String.length (record k v) = (8 + String.length k + String.length v)%nat.
Proof. unfold record. rewrite !app_length, !u32_bytes_length. lia. Qed.

(** The four reads of a record that lies at [off], and what follows it. *)
Lemma record_reads (pre k v rest : string) (off : nat) :
  let f := pre ++ record k v ++ rest in
  let nk := N.of_nat (String.length k) in
  let nv := N.of_nat (String.length v) in
  off = String.length pre → short k → short v →
  read_u32 f off = Some (nk, (off + 4)%nat) ∧
  read_bytes f (off + 4) (N.to_nat nk) = Some (k, (off + 4 + N.to_nat nk)%nat) ∧
  read_u32 f (off + 4 + N.to_nat nk) = Some (nv, (off + 4 + N.to_nat nk + 4)%nat) ∧
  read_bytes f (off + 4 + N.to_nat nk + 4) (N.to_nat nv) =
    Some (v, (off + 4 + N.to_nat nk + 4 + N.to_nat nv)%nat) ∧
  substr_from (off + 4 + N.to_nat nk + 4 + N.to_nat nv) f = rest.
Proof.
  intros f nk nv Hoff Hk Hv. subst f nk nv. rewrite !Nat2N.id.
  unfold record. rewrite !app_assoc.
  set (bk := u32_bytes (N.of_nat (String.length k))).
  set (bv := u32_bytes (N.of_nat (String.length v))).
  split; [by apply read_u32_app|].
  split.
  { rewrite <- (app_assoc pre bk). apply read_bytes_app.
    rewrite app_length. subst bk. rewrite u32_bytes_length. lia. }
  split.
  { rewrite <- (app_assoc bk k), <- (app_assoc pre (bk ++ k)).
    apply read_u32_app; [|done].
    rewrite !app_length. subst bk. rewrite u32_bytes_length. lia. }
  split.
  { rewrite <- (app_assoc k bv), <- (app_assoc bk (k ++ bv)),
      <- (app_assoc pre (bk ++ k ++ bv)).
    apply read_bytes_app.
    rewrite !app_length. subst bk bv. rewrite !u32_bytes_length. lia. }
  rewrite <- (app_assoc bv v), <- (app_assoc k (bv ++ v)),
    <- (app_assoc bk (k ++ bv ++ v)), <- (app_assoc pre (bk ++ k ++ bv ++ v)).
  replace (off + 4 + String.length k + 4 + String.length v)%nat
    with (String.length (pre ++ bk ++ k ++ bv ++ v) + 0)%nat.
  - by rewrite substr_from_app, substr_from_0.
  - rewrite !app_length. subst bk bv. rewrite !u32_bytes_length. lia.
Qed.

(** A record written by [set] is read back by the disk branch of [get]. *)
Lemma read_record_written (pre k v rest : string) :
  (N.of_nat (String.length k) ≤ MAX_KEY_SIZE)%N →
  (N.of_nat (String.length v) ≤ MAX_VALUE_SIZE)%N →
  read_record (pre ++ record k v ++ rest) (String.length pre) k = Some v.
Proof.
  intros Hk Hv.
  destruct (record_reads pre k v rest (String.length pre))
    as (E1 & E2 & E3 & E4 & _); [done|..].
  { unfold short. unfold MAX_KEY_SIZE in Hk. lia. }
  { unfold short. unfold MAX_VALUE_SIZE in Hv. lia. }
  unfold read_record. rewrite E1.
  destruct (N.ltb_spec MAX_KEY_SIZE (N.of_nat (String.length k))); [lia|].
  rewrite E2, String.eqb_refl. cbn [negb]. rewrite E3.
  destruct (N.ltb_spec MAX_VALUE_SIZE (N.of_nat (String.length v))); [lia|].
  by rewrite E4.
Qed.

(** *** What [set] writes *)

Lemma to_u32_short (s : string) :
  short s → to_u32 (String.length s) = N.of_nat (String.length s).
Proof. intros H. unfold to_u32. by apply N.mod_small. Qed.

Lemma write_entry_record k v : short k → short v → write_entry k v = record k v.
Proof.
  intros Hk Hv. unfold write_entry, record.
  by rewrite !to_u32_short, !Nat2N.id, !substr_to_length.
Qed.

Lemma set_appends k v s :
  write_buffer s = [] →
  data_file (set k v s).2 = data_file s ++ write_entry k v
  ∧ write_buffer (set k v s).2 = [].
Proof.
  intros Hwb. unfold set. rewrite Hwb.
  destruct (if (MAX_CACHE_SIZE <? _)%N then _ else _) as [order d].
  done.
Qed.

Lemma sets_append l : ∀ s,
  write_buffer s = [] → Forall short_pair l →
  data_file (sets l s) = data_file s ++ records l ∧ write_buffer (sets l s) = [].
Proof.
  induction l as [|[k v] l IH]; intros s Hwb Hl.
  - cbn [sets records]. by rewrite app_empty_r.
  - apply Forall_cons in Hl as [[Hk Hv] Hl]. cbn [sets records].
    destruct (set_appends k v s Hwb) as [Ef Eb].
    destruct (IH _ Eb Hl) as [-> ->]. split; [|done].
    by rewrite Ef, write_entry_record, app_assoc.
Qed.

(** *** Decoding *)

Lemma records_app l l' : records (l ++ l') = records l ++ records l'.
Proof.
  induction l as [|[k v] l IH]; [done|].
  cbn [records app]. by rewrite IH, app_assoc.
Qed.

Lemma records_length l : (length l ≤ String.length (records l))%nat.
Proof.
  induction l as [|[k v] l IH]; [done|].
  cbn [records length]. rewrite app_length, record_length. lia.
Qed.

Lemma decode_log_nil fuel : decode_log fuel "" = Some [].
Proof. by destruct fuel. Qed.

Lemma decode_log_record fuel k v rest :
  short k → short v →
  decode_log (S fuel) (record k v ++ rest) =
  match decode_log fuel rest with Some l => Some ((k, v) :: l) | None => None end.
Proof.
  intros Hk Hv.
  destruct (record_reads "" k v rest 0) as (E1 & E2 & E3 & E4 & E5); [done..|].
  rewrite append_nil in E1, E2, E3, E4, E5.
  destruct (record k v ++ rest) as [|c f] eqn:Ef.
  { apply (f_equal String.length) in Ef. rewrite app_length, record_length in Ef.
    cbn [String.length] in Ef. lia. }
  cbn [decode_log]. by rewrite E1, E2, E3, E4, E5.
Qed.

Lemma decode_log_records l : ∀ fuel,
  Forall short_pair l → (length l ≤ fuel)%nat → decode_log fuel (records l) = Some l.
Proof.
  induction l as [|[k v] l IH]; intros fuel Hl Hf.
  - apply decode_log_nil.
  - apply Forall_cons in Hl as [[Hk Hv] Hl]. cbn [length] in Hf.
    destruct fuel as [|fuel]; [lia|]. cbn [records].
    rewrite decode_log_record by done. rewrite IH; [done|done|lia].
Qed.

Lemma decode_records l : Forall short_pair l → decode (records l) = Some l.
Proof. intros Hl. apply decode_log_records; [done|apply records_length]. Qed.

(** A log that decodes is the concatenation of the records decoded. *)
Lemma decode_log_sound fuel : ∀ f l,
  decode_log fuel f = Some l → f = records l ∧ Forall short_pair l.
Proof.
  induction fuel as [|fuel IH]; intros f l.
  - destruct f; [|done]. by intros [= <-].
  - intros H.
    destruct (String.length f) as [|n] eqn:Hne.
    { destruct f; [|done]. by injection H as <-. }
    assert (Hd : match read_u32 f 0 with
      | None => None
      | Some (key_len, pos) =>
          match read_bytes f pos (N.to_nat key_len) with
          | None => None
          | Some (k, pos) =>
              match read_u32 f pos with
              | None => None
              | Some (value_len, pos) =>
                  match read_bytes f pos (N.to_nat value_len) with
                  | None => None
                  | Some (v, pos) =>
                      match decode_log fuel (substr_from pos f) with
                      | Some l => Some ((k, v) :: l)
                      | None => None
                      end
                  end
              end
          end
      end = Some l).
    { destruct f; [done|exact H]. }
    clear H Hne. revert Hd. unfold read_u32, read_bytes.
    destruct (Nat.leb_spec (0 + 4) (String.length f)) as [H1|]; [|done].
    set (kl := u32_of_bytes (substr_to 4 (substr_from 0 f))).
    destruct (Nat.leb_spec (0 + 4 + N.to_nat kl) (String.length f)) as [H2|]; [|done].
    set (k := substr_to (N.to_nat kl) (substr_from (0 + 4) f)).
    destruct (Nat.leb_spec (0 + 4 + N.to_nat kl + 4) (String.length f)) as [H3|]; [|done].
    set (vl := u32_of_bytes (substr_to 4 (substr_from (0 + 4 + N.to_nat kl) f))).
    destruct (Nat.leb_spec (0 + 4 + N.to_nat kl + 4 + N.to_nat vl) (String.length f))
      as [H4|]; [|done].
    set (v := substr_to (N.to_nat vl) (substr_from (0 + 4 + N.to_nat kl + 4) f)).
    destruct (decode_log fuel (substr_from (0 + 4 + N.to_nat kl + 4 + N.to_nat vl) f))
      as [l'|] eqn:Hl'; [|done].
    intros [= <-]. destruct (IH _ _ Hl') as [Hrest Hshort].
    (* the four pieces of [f] *)
    destruct (substr_split 4 f) as [S1 L1]; [lia|].
    set (r1 := substr_from 4 f) in *.
    assert (Lr1 : String.length r1 = (String.length f - 4)%nat)
      by (apply substr_from_length; lia).
    destruct (substr_split (N.to_nat kl) r1) as [S2 L2]; [lia|].
    set (r2 := substr_from (N.to_nat kl) r1) in *.
    assert (Lr2 : String.length r2 = (String.length r1 - N.to_nat kl)%nat)
      by (apply substr_from_length; lia).
    destruct (substr_split 4 r2) as [S3 L3]; [lia|].
    set (r3 := substr_from 4 r2) in *.
    assert (Lr3 : String.length r3 = (String.length r2 - 4)%nat)
      by (apply substr_from_length; lia).
    destruct (substr_split (N.to_nat vl) r3) as [S4 L4]; [lia|].
    assert (E2 : substr_from (0 + 4 + N.to_nat kl) f = r2).
    { rewrite (substr_from_add (0 + 4)) by lia. done. }
    assert (E3 : substr_from (0 + 4 + N.to_nat kl + 4) f = r3).
    { rewrite (substr_from_add (0 + 4 + N.to_nat kl)) by lia. by rewrite E2. }
    assert (E4 : substr_from (0 + 4 + N.to_nat kl + 4 + N.to_nat vl) f
                 = substr_from (N.to_nat vl) r3).
    { rewrite (substr_from_add (0 + 4 + N.to_nat kl + 4)) by lia. by rewrite E3. }
    assert (Hkl : (kl < 4294967296)%N) by apply u32_of_bytes_lt.
    assert (Hvl : (vl < 4294967296)%N) by apply u32_of_bytes_lt.
    assert (Ek : u32_bytes kl = substr_to 4 f).
    { subst kl. rewrite substr_from_0. by apply u32_bytes_of_bytes. }
    assert (Ev : u32_bytes vl = substr_to 4 r2).
    { subst vl. rewrite E2. by apply u32_bytes_of_bytes. }
    assert (Ekk : k = substr_to (N.to_nat kl) r1) by reflexivity.
    assert (Evv : v = substr_to (N.to_nat vl) r3) by (subst v; by rewrite E3).
    clearbody kl vl k v r1 r2 r3. subst k v.
    split.
    + cbn [records]. unfold record.
      rewrite L2, L4, !N2Nat.id, Ek, Ev, !app_assoc, <- Hrest, E4.
      by rewrite <- S4, <- S3, <- S2.
    + apply Forall_cons. split; [|done]. split; unfold short; cbn [fst snd].
      * by rewrite L2, N2Nat.id.
      * by rewrite L4, N2Nat.id.
Qed.

Lemma decode_sound f l : decode f = Some l → f = records l ∧ Forall short_pair l.
Proof. apply decode_log_sound. Qed.

(** Every operation of the engine leaves the write buffer empty. *)
Lemma write_buffer_init : write_buffer init = [].
Proof. reflexivity. Qed.

Lemma write_buffer_get k s : write_buffer s = [] → write_buffer (get k s).2 = [].
Proof.
  intros H. unfold get. destruct (data_ s !! k); [done|].
  destruct (disk_index s !! k) as [e|]; [|done].
  by destruct (read_record _ _ _).
Qed.

Lemma write_buffer_del k s : write_buffer s = [] → write_buffer (del k s).2 = [].
Proof. intros H. unfold del. by destruct (data_ s !! k), (disk_index s !! k). Qed.

Lemma write_buffer_clear s : write_buffer (clear s) = [].
Proof. reflexivity. Qed.

Lemma write_buffer_force_flush s : write_buffer (force_flush s) = [].
Proof.
  unfold force_flush, flush_write_buffer.
  destruct (write_buffer s) eqn:E; [done|]. by destruct (flush_entries _ _ _).
Qed.

(** Only [set] and [clear] change the log. *)
Lemma data_file_get k s : data_file (get k s).2 = data_file s.
Proof.
  unfold get. destruct (data_ s !! k); [done|].
  destruct (disk_index s !! k) as [e|]; [|done].
  by destruct (read_record _ _ _).
Qed.

Lemma data_file_del k s : data_file (del k s).2 = data_file s.
Proof. unfold del. by destruct (data_ s !! k), (disk_index s !! k). Qed.

(** C9, for the log of part-a. With an empty write buffer and keys and
    values shorter than 2^32 bytes, a run of [set] calls appends to
    [data.dat] exactly the little-endian records
    [u32 key_len | key | u32 value_len | value] of the pairs, in order, after
    the bytes that were there; and when the log decoded to [l0] before, it
    decodes to [l0] followed by the pairs written. *)
Theorem set_appends_one_record s l0 l :
  write_buffer s = [] → decode (data_file s) = Some l0 → Forall short_pair l →
  data_file (sets l s) = data_file s ++ records l
  ∧ decode (data_file (sets l s)) = Some (l0 ++ l)%list.
Proof.
  intros Hwb Hd Hl. destruct (sets_append l s Hwb Hl) as [Ef _].
  split; [done|]. rewrite Ef.
  destruct (decode_sound _ _ Hd) as [-> Hl0].
  rewrite <- records_app. apply decode_records. by apply Forall_app.
Qed.

Lemma set_appends_one_record_witness :
  data_file (sets two_writes init) = data_file init ++ records two_writes
  ∧ decode (data_file (sets two_writes init)) = Some ([] ++ two_writes)%list.
Proof.
  apply (set_appends_one_record init [] two_writes).
  - reflexivity.
  - reflexivity.
  - repeat constructor; vm_compute; reflexivity.
Defined.

(** C9 does not hold of the disk storage of part-b, the one the server
    uses: [put] rewrites the whole of [data.txt] as [key=value] lines, so the
    file after the first write is not the binary record, and the file after
    the second write does not extend the file after the first. *)
Lemma part_b_file_is_rewritten_text :
  let d1 := DiskStorage.put "k" "v" (DiskStorage.create "") in
  let d2 := DiskStorage.put "k" "w" d1 in
  DiskStorage.file d1 = "k=v" ++ newline
  ∧ DiskStorage.file d1 ≠ record "k" "v"
  ∧ DiskStorage.file d2 = "k=w" ++ newline
  ∧ ∀ rest, DiskStorage.file d2 ≠ DiskStorage.file d1 ++ rest.
Proof.
  vm_compute. repeat split; discriminate.
Qed.

End PartAProofs.

(** ** Further properties of the LRU cache *)

Module LRUMore.
Import LRUCache LRUSpec LRUProofs.

Lemma Inv_keys_nodup s : Inv s → NoDup (recency s).*1.
Proof.
  intros [l W]. rewrite (wf_recency _ _ W). by eapply wf_keys_nodup.
Qed.

Lemma drop_key_length_hit k v (l : list (string * string)) :
  NoDup l.*1 → assoc k l = Some v → S (length (drop_key k l)) = length l.
Proof.
  induction l as [|[k' v'] l IH]; [done|]. intros Hnd Ha.
  apply NoDup_cons in Hnd as [Hni Hnd]. cbn in Ha. unfold drop_key in *.
  destruct (decide (k' = k)) as [->|Hne].
  - rewrite filter_cons_False by (cbn; naive_solver).
    fold (drop_key k l). rewrite drop_key_notin; done.
  - rewrite filter_cons_True by done. cbn. f_equal. by apply IH.
Qed.

Lemma last_removelast {A} (l : list A) x :
  last l = Some x → l = removelast l ++ [x].
Proof.
  intros H. destruct (decide (l = [])) as [->|Hne]; [done|].
  rewrite (app_removelast_last x Hne) at 1. f_equal. f_equal.
  clear Hne. induction l as [|y [|z l] IH]; [done|by injection H|].
  by apply IH.
Qed.

(** [LRUCache::remove] on a cache reached from the constructor never meets a
    bad pointer, whatever the capacity. It returns whether the key was
    cached; afterwards the key is not cached, every other key has the value
    it had, the order of the others is unchanged, and the size has dropped
    by one exactly when the key was there. *)
Theorem remove_drops_only_its_key c ops s k :
  run c ops = Ok s →
  ∃ s', remove k s = Ok (bool_decide (is_Some (cached k s)), s') ∧
        cached k s' = None ∧
        (∀ k', k' ≠ k → cached k' s' = cached k' s) ∧
        recency s' = drop_key k (recency s) ∧
        size s' = match cached k s with Some _ => size s - 1 | None => size s end.
Proof.
  intros Hr. destruct (run_Inv _ _ _ Hr) as [HI _].
  destruct (remove_spec s k HI) as (s' & Hrm & HI' & _ & Hrec).
  exists s'. split; [done|]. unfold cached. rewrite Hrec.
  split; [apply EngineProofs.assoc_drop_key_same|].
  split; [intros k' Hne; by apply assoc_drop_key_ne|].
  split; [done|].
  rewrite (size_recency _ HI'), (size_recency _ HI), Hrec.
  destruct (assoc k (recency s)) as [v|] eqn:Ha.
  - pose proof (drop_key_length_hit k v _ (Inv_keys_nodup _ HI) Ha). lia.
  - rewrite drop_key_notin; [done|]. by apply assoc_None.
Qed.

Lemma remove_drops_only_its_key_witness :
  ∃ s, run 1 [Put "a" "1"] = Ok s ∧
  ∃ s', remove "a" s = Ok (bool_decide (is_Some (cached "a" s)), s') ∧
        cached "a" s' = None ∧
        (∀ k', k' ≠ "a"%string → cached k' s' = cached k' s) ∧
        recency s' = drop_key "a" (recency s) ∧
        size s' = match cached "a" s with Some _ => size s - 1 | None => size s end.
Proof.
  destruct (run 1 [Put "a" "1"]) as [s| |] eqn:E.
  - exists s. split; [reflexivity|].
    exact (remove_drops_only_its_key 1 [Put "a" "1"] s "a" E).
  - exfalso. vm_compute in E. discriminate E.
  - exfalso. vm_compute in E. discriminate E.
Defined.

(** With a capacity of at least 2, no sequence of [get], [put] and [remove]
    from the constructor meets a bad pointer: every call returns, the cache
    never holds more entries than its capacity, and no key is listed twice. *)
Theorem capacity_two_is_safe c ops :
  2 ≤ c → ∃ s, run c ops = Ok s ∧ size s ≤ c ∧ NoDup (recency s).*1.
Proof.
  intros Hc. destruct (run_total c ops Hc) as [s Hr]. exists s.
  split; [done|]. split; [apply (size_le_capacity c ops); [lia|done]|].
  apply Inv_keys_nodup. by destruct (run_Inv _ _ _ Hr).
Qed.

Lemma capacity_two_is_safe_witness :
  ∃ s, run 2 [Put "a" "1"; Put "b" "2"; Put "c" "3"; Get "a"; Remove "b"; Put "d" "4"]
       = Ok s ∧ size s ≤ 2 ∧ NoDup (recency s).*1.
Proof.
  apply (capacity_two_is_safe 2
           [Put "a" "1"; Put "b" "2"; Put "c" "3"; Get "a"; Remove "b"; Put "d" "4"]).
  lia.
Defined.

(** With a capacity of at least 2, [put] of a key that is not cached into a
    full cache evicts exactly the entry at the end of the recency order: the
    new pair comes first, the others keep their order, the evicted key is no
    longer cached and the cache stays full. *)
Theorem full_cache_evicts_oldest c ops s k v :
  2 ≤ c → run c ops = Ok s → cached k s = None → size s = c →
  ∃ s' old, put k v s = Ok (true, s') ∧ last (recency s) = Some old ∧
            recency s' = (k, v) :: removelast (recency s) ∧
            cached old.1 s' = None ∧ cached k s' = Some v ∧ size s' = c.
Proof.
  intros Hc Hr Hk Hsz. destruct (run_Inv _ _ _ Hr) as [HI Hcap].
  assert (Hdef : put_defined k s = true).
  { unfold put_defined. rewrite Hk, Hcap. apply orb_true_iff. right.
    apply Nat.leb_le. lia. }
  destruct (put_spec s k v HI Hdef) as (s' & Hp & HI' & _ & Hrec).
  rewrite (size_recency _ HI) in Hsz.
  assert (Hrec' : recency s' = (k, v) :: removelast (recency s)).
  { rewrite Hrec. unfold a_put. unfold cached in Hk. rewrite Hk, Hcap.
    by destruct (Nat.leb_spec c (length (recency s))); [|lia]. }
  destruct (last (recency s)) as [old|] eqn:Hl.
  2:{ apply last_None in Hl. rewrite Hl in Hsz. cbn in Hsz. exfalso. lia. }
  exists s', old. split; [done|]. split; [done|]. split; [done|].
  pose proof (last_removelast _ _ Hl) as Hsplit.
  pose proof (Inv_keys_nodup _ HI) as Hnd.
  assert (Hlen : length (removelast (recency s)) = c - 1).
  { pose proof (f_equal length Hsplit) as HL. rewrite length_app in HL.
    change (length [old]) with 1 in HL. lia. }
  split.
  - unfold cached. rewrite Hrec'. cbn.
    assert (old.1 ≠ k).
    { intros E. unfold cached in Hk. apply assoc_None in Hk. apply Hk.
      rewrite Hsplit, fmap_app. apply elem_of_app. right. cbn. rewrite E.
      by apply list_elem_of_singleton. }
    rewrite decide_False by done. apply assoc_None.
    rewrite Hsplit, fmap_app in Hnd. apply NoDup_app in Hnd as (_ & Hd & _).
    intros Hin. apply (Hd _ Hin). cbn. by apply list_elem_of_singleton.
  - split.
    + unfold cached. rewrite Hrec'. cbn. by rewrite decide_True.
    + rewrite (size_recency _ HI'), Hrec'. cbn [length]. lia.
Qed.

Lemma full_cache_evicts_oldest_witness :
  ∃ s, run 2 [Put "a" "1"; Put "b" "2"; Get "a"] = Ok s ∧
  ∃ s' old, put "c" "3" s = Ok (true, s') ∧ last (recency s) = Some old ∧
            recency s' = ("c", "3")%string :: removelast (recency s) ∧
            cached old.1 s' = None ∧ cached "c" s' = Some "3"%string ∧ size s' = 2.
Proof.
  destruct (run 2 [Put "a" "1"; Put "b" "2"; Get "a"]) as [s| |] eqn:E.
  - exists s. split; [reflexivity|].
    apply (full_cache_evicts_oldest 2 [Put "a" "1"; Put "b" "2"; Get "a"] s "c" "3").
    + lia.
    + exact E.
    + vm_compute in E. injection E as <-. vm_compute. reflexivity.
    + vm_compute in E. injection E as <-. vm_compute. reflexivity.
  - exfalso. vm_compute in E. discriminate E.
  - exfalso. vm_compute in E. discriminate E.
Defined.

(** [put] of a key that is already cached replaces its value and moves it to
    the front; nothing is evicted, even when the cache is full or has
    capacity 1: the other keys keep their values and the size is unchanged. *)
Theorem put_cached_key_updates_in_place c ops s k v0 v :
  run c ops = Ok s → cached k s = Some v0 →
  ∃ s', put k v s = Ok (true, s') ∧
        recency s' = (k, v) :: drop_key k (recency s) ∧
        (∀ k', k' ≠ k → cached k' s' = cached k' s) ∧
        size s' = size s.
Proof.
  intros Hr Hk. destruct (run_Inv _ _ _ Hr) as [HI Hcap].
  assert (Hdef : put_defined k s = true) by (unfold put_defined; by rewrite Hk).
  destruct (put_spec s k v HI Hdef) as (s' & Hp & HI' & _ & Hrec).
  unfold a_put in Hrec. unfold cached in Hk. rewrite Hk in Hrec.
  exists s'. split; [done|]. split; [done|]. split.
  - intros k' Hne. unfold cached. rewrite Hrec. cbn.
    rewrite decide_False by done. by apply assoc_drop_key_ne.
  - rewrite (size_recency _ HI'), (size_recency _ HI), Hrec. cbn [length].
    by apply (drop_key_length_hit k v0); [apply Inv_keys_nodup|].
Qed.

Lemma put_cached_key_updates_in_place_witness :
  ∃ s, run 1 [Put "a" "1"] = Ok s ∧
  ∃ s', put "a" "2" s = Ok (true, s') ∧
        recency s' = ("a", "2")%string :: drop_key "a" (recency s) ∧
        (∀ k', k' ≠ "a"%string → cached k' s' = cached k' s) ∧
        size s' = size s.
Proof.
  destruct (run 1 [Put "a" "1"]) as [s| |] eqn:E.
  - exists s. split; [reflexivity|].
    apply (put_cached_key_updates_in_place 1 [Put "a" "1"] s "a" "1" "2").
    + exact E.
    + vm_compute in E. injection E as <-. vm_compute. reflexivity.
  - exfalso. vm_compute in E. discriminate E.
  - exfalso. vm_compute in E. discriminate E.
Defined.

(** With capacity 0 or 1 the first [put] into a new cache stores its pair, so
    that a cache of capacity 0 holds one entry, and the [put] of any second
    key then writes through the pointer [evict_lru] left dangling. *)
Theorem small_capacity_second_key_UB c k v k' v' :
  c ≤ 1 → k' ≠ k →
  (∃ s', put k v (create c) = Ok (true, s') ∧ recency s' = [(k, v)] ∧ size s' = 1) ∧
  run c [Put k v; Put k' v'] = UB.
Proof.
  intros Hc Hne.
  destruct (put_fresh_empty (create c) k v (wf_create c)) as (s' & Hp & W & Hcap).
  split.
  - exists s'. split; [done|]. split; [by rewrite (wf_recency _ _ W)|].
    by rewrite (wf_size _ _ W).
  - unfold run. cbn [run_list step]. rewrite Hp. cbn [discard].
    rewrite (put_fresh_single_UB s' _ k' v' W); [done| |].
    + apply (wf_lookup_None _ _ _ W). cbn. intros Hin.
      by apply list_elem_of_singleton in Hin.
    + rewrite Hcap. cbn. lia.
Qed.

Lemma small_capacity_second_key_UB_witness :
  (∃ s', put "a" "1" (create 0) = Ok (true, s') ∧ recency s' = [("a", "1")%string]
         ∧ size s' = 1) ∧
  run 0 [Put "a" "1"; Put "b" "2"] = UB.
Proof.
  apply (small_capacity_second_key_UB 0 "a" "1" "b" "2").
  - lia.
  - discriminate.
Defined.

End LRUMore.

(** ** Further properties of the text file *)

Module DiskMore.
Import StringFacts EngineSpec DiskStorage DiskProofs DurabilityProofs.
Local Open Scope string_scope.

(** When the map holds only keys without '=' and newline and values without
    newline, the file [put] and [remove] write loads back to the map they
    left: a [DiskStorage] constructed on the file after [put k v] holds the
    old map with [k] set to [v], and after [remove k] the old map without
    [k]. *)
Theorem disk_put_remove_survive_reload d k v :
  clean_map (data_ d) → clean_pair (k, v) = true →
  data_ (create (file (put k v d))) = <[k := v]> (data_ d) ∧
  data_ (create (file (remove k d))) = delete k (data_ d).
Proof.
  intros Hm Hkv. unfold create, put, remove, save_data. cbn [data_ file]. split.
  - apply load_save. by apply map_Forall_insert_2.
  - apply load_save. by apply map_Forall_delete.
Qed.

Lemma disk_put_remove_survive_reload_witness :
  data_ (create (file (put "b" "x=y" (create ("a=1" ++ newline)))))
  = <["b" := "x=y"]> (data_ (create ("a=1" ++ newline))) ∧
  data_ (create (file (remove "b" (create ("a=1" ++ newline)))))
  = delete "b" (data_ (create ("a=1" ++ newline))).
Proof.
  apply (disk_put_remove_survive_reload (create ("a=1" ++ newline)) "b" "x=y").
  - apply load_data_clean.
  - reflexivity.
Defined.

(** Whatever bytes [data.txt] holds, the map [load_data] builds from it has
    only keys without '=' and newline and values without newline, and the
    file the destructor then writes loads back to the same map. *)
Theorem reload_is_idempotent f :
  clean_map (data_ (create f)) ∧
  data_ (create (file (destroy (create f)))) = data_ (create f).
Proof.
  split; [apply load_data_clean|].
  unfold destroy, save_data, create. cbn [data_ file].
  apply load_save, load_data_clean.
Qed.

End DiskMore.

(** ** Further properties of the engine of part-b *)

Module EngineMore.
Import StringFacts LRUSpec EngineSpec StorageEngine.
Import EngineProofs DiskProofs DurabilityProofs.
Local Open Scope string_scope.



(** [sync()] leaves the queue empty and the cache and the writer's pair as
    they were; on disk every key then has the value of its last queued pair,
    and a key without a queued pair keeps what it had. *)
Theorem sync_drains_queue s k :
  pending_write_count (sync s) = 0%nat ∧
  cache_ (sync s) = cache_ s ∧ in_flight (sync s) = in_flight s ∧
  DiskStorage.get k (disk_storage_ (sync s))
  = match last_write k (write_queue_ s) with
    | Some v => Some v
    | None => DiskStorage.get k (disk_storage_ s)
    end.
Proof.
  unfold sync, force_flush, pending_write_count, DiskStorage.get.
  cbn [write_queue_ cache_ in_flight disk_storage_ length].
  split; [done|]. split; [done|]. split; [done|]. apply fold_put_last_write.
Qed.

(** [get] of a key that is not cached reads the disk map. A value found
    there is returned and put in the cache, without touching the disk map or
    the queue, provided that [put] does not meet the eviction defect of the
    cache; a key that is not on disk either yields the empty string and
    leaves the engine as it was. *)
Theorem get_reads_through c f ops s k :
  run_list step ops (create c f) = Ok s →
  cached k (cache_ s) = None →
  match DiskStorage.get k (disk_storage_ s) with
  | Some v =>
      put_defined k (cache_ s) = true →
      ∃ s', get k s = Ok (v, s') ∧ cached k (cache_ s') = Some v ∧
            disk_storage_ s' = disk_storage_ s ∧ write_queue_ s' = write_queue_ s
  | None => get k s = Ok ("", s)
  end.
Proof.
  intros Hr Hk.
  pose proof (engine_run_Inv _ _ _ (create_Inv c f) Hr) as HI.
  pose proof (LRUProofs.get_spec _ k HI) as Hg. rewrite Hk in Hg.
  unfold get, get2. rewrite Hg.
  destruct (DiskStorage.get k (disk_storage_ s)) as [v|].
  - intros Hd. destruct (LRUProofs.put_spec _ k v HI Hd) as (c' & -> & _ & _ & Hrec).
    eexists. split; [reflexivity|]. cbn [with_cache cache_ disk_storage_ write_queue_].
    split; [|done]. unfold cached. rewrite Hrec. apply ServerProofs.cached_a_put.
  - by destruct s.
Qed.

Lemma get_reads_through_witness :
  let s := state_after [Put "k" "v"; Sync; Clear] (create 1 "") in
  match DiskStorage.get "k" (disk_storage_ s) with
  | Some v =>
      put_defined "k" (cache_ s) = true →
      ∃ s', get "k" s = Ok (v, s') ∧ cached "k" (cache_ s') = Some v ∧
            disk_storage_ s' = disk_storage_ s ∧ write_queue_ s' = write_queue_ s
  | None => get "k" s = Ok ("", s)
  end.
Proof.
  cbv zeta.
  apply (get_reads_through 1 "" [Put "k" "v"; Sync; Clear]).
  - vm_compute. reflexivity.
  - vm_compute. reflexivity.
Defined.

(** [del] always returns in a state reached from the constructor. It returns
    true exactly when the key was cached or in the disk map, and a second
    [del] of the same key right after returns false and changes nothing. *)
Theorem del_reports_presence_once c f ops s k :
  run_list step ops (create c f) = Ok s →
  ∃ s1, del k s
        = Ok (bool_decide (is_Some (cached k (cache_ s))
                           ∨ is_Some (DiskStorage.get k (disk_storage_ s))), s1) ∧
        del k s1 = Ok (false, s1).
Proof.
  intros Hr.
  pose proof (engine_run_Inv _ _ _ (create_Inv c f) Hr) as HI.
  assert (∃ b s1, del k s = Ok (b, s1) ∧
                  b = bool_decide (is_Some (cached k (cache_ s))
                           ∨ is_Some (DiskStorage.get k (disk_storage_ s))))
    as (b & s1 & Hd & ->).
  { unfold del.
    pose proof (LRUProofs.get_spec _ k HI) as Hg.
    destruct (cached k (cache_ s)) as [v|] eqn:Hc.
    - destruct Hg as (c1 & -> & HI1 & _).
      destruct (LRUProofs.remove_spec c1 k HI1) as (c2 & -> & _).
      destruct (DiskStorage.get k (disk_storage_ s)); eexists _, _;
        (split; [reflexivity|]); symmetry; apply bool_decide_eq_true; eauto.
    - rewrite Hg.
      destruct (DiskStorage.get k (disk_storage_ s)); eexists _, _;
        (split; [reflexivity|]); symmetry.
      + apply bool_decide_eq_true; eauto.
      + apply bool_decide_eq_false. intros [[? ?]|[? ?]]; done. }
  exists s1. split; [done|].
  destruct (del_result _ _ _ _ HI Hd) as (HI1 & Hrec & _ & Hdisk & _).
  unfold del.
  pose proof (LRUProofs.get_spec _ k HI1) as Hg. unfold cached in Hg.
  rewrite Hrec, assoc_drop_key_same in Hg. rewrite Hg.
  unfold DiskStorage.get. rewrite Hdisk, lookup_delete_eq. by destruct s1.
Qed.

Lemma del_reports_presence_once_witness :
  let s := state_after [Put "k" "v"] (create 1 "") in
  ∃ s1, del "k" s
        = Ok (bool_decide (is_Some (cached "k" (cache_ s))
                           ∨ is_Some (DiskStorage.get "k" (disk_storage_ s))), s1) ∧
        del "k" s1 = Ok (false, s1).
Proof.
  cbv zeta.
  apply (del_reports_presence_once 1 "" [Put "k" "v"]).
  vm_compute. reflexivity.
Defined.

Lemma engine_step_total c o s :
  (2 ≤ c)%nat → Inv (cache_ s) → LRUCache.capacity_ (cache_ s) = c →
  (LRUCache.size (cache_ s) ≤ c)%nat → clear_idle o s = true →
  ∃ s', step o s = Ok s' ∧ Inv (cache_ s') ∧ LRUCache.capacity_ (cache_ s') = c ∧
        (LRUCache.size (cache_ s') ≤ c)%nat.
Proof.
  intros Hc HI Hcap Hsz Hidle.
  assert (Hdef : ∀ k c0, LRUCache.capacity_ c0 = c → put_defined k c0 = true).
  { intros k c0 E. unfold put_defined. destruct (cached k c0); [done|].
    apply orb_true_iff. right. apply Nat.leb_le. lia. }
  assert (Hput : ∀ k v c0, Inv c0 → LRUCache.capacity_ c0 = c →
            (LRUCache.size c0 ≤ c)%nat →
            ∃ c1, LRUCache.put k v c0 = Ok (true, c1) ∧ Inv c1 ∧
                  LRUCache.capacity_ c1 = c ∧ (LRUCache.size c1 ≤ c)%nat).
  { intros k v c0 H0 E0 S0.
    destruct (LRUProofs.put_spec c0 k v H0 (Hdef k c0 E0)) as (c1 & Hp & H1 & E1 & R1).
    exists c1. split; [done|]. split; [done|]. split; [congruence|].
    rewrite (LRUProofs.size_recency _ H1), R1, E0.
    apply LRUProofs.a_put_length; [lia|]. by rewrite <- (LRUProofs.size_recency _ H0). }
  assert (Hget : ∀ k c0, Inv c0 → LRUCache.capacity_ c0 = c →
            (LRUCache.size c0 ≤ c)%nat →
            ∃ c1, LRUCache.get k c0 = Ok (cached k c0, c1) ∧ Inv c1 ∧
                  LRUCache.capacity_ c1 = c ∧ (LRUCache.size c1 ≤ c)%nat).
  { intros k c0 H0 E0 S0. pose proof (LRUProofs.get_spec c0 k H0) as Hg.
    destruct (cached k c0) as [v|] eqn:Hk.
    - destruct Hg as (c1 & Hg & H1 & E1 & R1). exists c1.
      split; [done|]. split; [done|]. split; [congruence|].
      rewrite (LRUProofs.size_recency _ H1), R1. cbn [length].
      pose proof (LRUProofs.assoc_Some_length k v _ Hk).
      rewrite (LRUProofs.size_recency _ H0) in S0. lia.
    - exists c0. by rewrite Hg. }
  destruct o as [k|k v|k| | | |]; cbn [step].
  - unfold get, get2. destruct (Hget k _ HI Hcap Hsz) as (c1 & -> & H1 & E1 & S1).
    destruct (cached k (cache_ s)) as [v|].
    + eexists. split; [reflexivity|]. done.
    + destruct (DiskStorage.get k (disk_storage_ s)) as [v|].
      * destruct (Hput k v c1 H1 E1 S1) as (c2 & -> & ?).
        eexists. split; [reflexivity|]. done.
      * eexists. split; [reflexivity|]. done.
  - unfold put. destruct (Hput k v _ HI Hcap Hsz) as (c1 & -> & ?).
    eexists. split; [reflexivity|]. done.
  - unfold del. destruct (Hget k _ HI Hcap Hsz) as (c1 & -> & H1 & E1 & S1).
    assert (∃ ex c2, match cached k (cache_ s) with
                     | Some _ => match LRUCache.remove k c1 with
                                 | Ok (_, c') => Ok (true, c')
                                 | UB => UB
                                 | Throw => Throw
                                 end
                     | None => Ok (false, c1)
                     end = Ok (ex, c2) ∧ Inv c2 ∧ LRUCache.capacity_ c2 = c ∧
                     (LRUCache.size c2 ≤ c)%nat) as (ex & c2 & -> & H2 & E2 & S2).
    { destruct (cached k (cache_ s)).
      - destruct (LRUProofs.remove_spec c1 k H1) as (c2 & Hrm & H2 & E2 & R2).
        rewrite Hrm. exists true, c2. split; [done|]. split; [done|].
        split; [congruence|].
        rewrite (LRUProofs.size_recency _ H2), R2.
        rewrite (LRUProofs.size_recency _ H1) in S1.
        unfold drop_key. pose proof (length_filter (λ kv, kv.1 ≠ k) (LRUCache.recency c1)).
        lia.
      - by exists false, c1. }
    destruct (DiskStorage.get k (disk_storage_ s)); eexists; (split; [reflexivity|]); done.
  - eexists. split; [reflexivity|]. done.
  - cbn [clear_idle] in Hidle. rewrite Hidle.
    eexists. split; [reflexivity|]. unfold clear. cbn [cache_].
    split; [apply LRUProofs.Inv_create|]. split; [done|].
    unfold LRUCache.size, LRUCache.create. cbn [LRUCache.cache_].
    rewrite map_size_empty. lia.
  - eexists. split; [reflexivity|]. unfold worker_pop.
    by destruct (running_ s), (in_flight s), (write_queue_ s).
  - eexists. split; [reflexivity|]. unfold worker_write. by destruct (in_flight s).
Qed.

(** An engine constructed with a cache size of at least 2 never meets a bad
    pointer: every sequence of [get], [put], [del], [sync], [clear] and steps
    of the writer thread in which each [clear()] is called while the writer
    thread is idle returns, and [size()] stays within the cache size. *)
Theorem engine_capacity_two_is_safe c f ops :
  (2 ≤ c)%nat → clears_idle ops (create c f) = true →
  ∃ s, run_list step ops (create c f) = Ok s ∧ (size s ≤ c)%nat.
Proof.
  intros Hc.
  assert (Hgen : ∀ s0, Inv (cache_ s0) → LRUCache.capacity_ (cache_ s0) = c →
            (LRUCache.size (cache_ s0) ≤ c)%nat → clears_idle ops s0 = true →
            ∃ s, run_list step ops s0 = Ok s ∧ (size s ≤ c)%nat).
  { induction ops as [|o ops IH]; intros s0 H0 E0 S0 Hi; cbn [run_list]; [by exists s0|].
    assert (Ho : clear_idle o s0 = true).
    { cbn [clears_idle along] in Hi. by apply andb_true_iff in Hi as [? _]. }
    destruct (engine_step_total c o s0 Hc H0 E0 S0 Ho) as (s1 & E & H1 & E1 & S1).
    rewrite E. destruct (along_cons _ _ _ _ _ Hi E) as [_ Hi1]. by apply IH. }
  apply Hgen; [apply create_Inv|done|].
  unfold create, LRUCache.size, LRUCache.create. cbn [cache_ LRUCache.cache_].
  rewrite map_size_empty. lia.
Qed.

Lemma engine_capacity_two_is_safe_witness :
  ∃ s, run_list step [Put "a" "1"; Put "b" "2"; Pop; Put "c" "3"; Write; Get "a"; Del "b";
                      Sync; Clear; Get "c"] (create 2 "") = Ok s ∧ (size s ≤ 2)%nat.
Proof.
  apply (engine_capacity_two_is_safe 2 ""
           [Put "a" "1"; Put "b" "2"; Pop; Put "c" "3"; Write; Get "a"; Del "b";
            Sync; Clear; Get "c"]).
  - lia.
  - vm_compute. reflexivity.
Defined.

(** The race of [clear()] with the writer thread: with a pair in the
    thread's hands, or one queued for it, the call is undefined. *)
Example clear_under_the_writer :
  run_list step [Put "a" "1"; Pop; Clear; Write] (create 2 "") = UB ∧
  run_list step [Put "a" "1"; Clear] (create 2 "") = UB.
Proof. split; vm_compute; reflexivity. Qed.

(** [stop_async_writer()] followed by the destructor writes nothing from the
    queue. In a state reached from the constructor by a run whose [put]s
    carry keys without '=' and newline and values without newline, and in
    which the writer thread holds no pair: the thread takes no further pair
    once stopped, the file the destructor leaves loads to the disk map as it
    was, and a key that was not in that map reads as the empty string after
    a restart, also when a pair for it was still queued. *)
Theorem exit_drops_queued_writes c f ops s k c' :
  forallb clean_op ops = true →
  run_list step ops (create c f) = Ok s →
  in_flight s = None →
  DiskStorage.get k (disk_storage_ s) = None →
  let s' := destroy (stop_async_writer s) in
  worker_pop (stop_async_writer s) = None ∧
  DiskStorage.load_data (DiskStorage.file (disk_storage_ s'))
  = DiskStorage.data_ (disk_storage_ s) ∧
  get k (restart c' s') = Ok ("", restart c' s').
Proof.
  intros Hc Hr Hf Hk s'.
  destruct (run_engine_ok _ _ _ (engine_ok_create c f) Hc Hr) as (_ & [Hcl Hl] & _).
  assert (Hs' : DiskStorage.load_data (DiskStorage.file (disk_storage_ s'))
                = DiskStorage.data_ (disk_storage_ s)).
  { subst s'. unfold destroy, stop_async_writer, worker_write. rewrite Hf.
    cbn [running_ with_disk disk_storage_ cache_ write_queue_ in_flight
         DiskStorage.destroy DiskStorage.save_data DiskStorage.file DiskStorage.data_].
    by apply load_save. }
  split; [done|]. split; [done|].
  unfold restart, create, get, get2. cbn [cache_ disk_storage_].
  rewrite LRUProofs.get_miss by done.
  unfold DiskStorage.get, DiskStorage.create in *. cbn [DiskStorage.data_].
  by rewrite Hs', Hk.
Qed.

Lemma exit_drops_queued_writes_witness :
  let s := state_after [Put "a" "1"; Pop; Write; Put "k" "v"] (create 2 "") in
  let s' := destroy (stop_async_writer s) in
  write_queue_ s = [("k", "v")] ∧
  worker_pop (stop_async_writer s) = None ∧
  DiskStorage.load_data (DiskStorage.file (disk_storage_ s'))
  = DiskStorage.data_ (disk_storage_ s) ∧
  get "k" (restart 1 s') = Ok ("", restart 1 s').
Proof.
  cbv zeta. split; [vm_compute; reflexivity|].
  apply (exit_drops_queued_writes 2 "" [Put "a" "1"; Pop; Write; Put "k" "v"]).
  - reflexivity.
  - vm_compute. reflexivity.
  - vm_compute. reflexivity.
  - vm_compute. reflexivity.
Defined.

End EngineMore.

(** ** Requests: framing, splitting and pipelining *)

Module RequestProofs.
Import WireSpec RequestSpec StringFacts Server LRUSpec ServerProofs.
Local Open Scope string_scope.

Lemma extract_word (k rest : string) :
  token k = true →
  (rest = "" ∨ ∃ c r, rest = String c r ∧ isspace c = true) →
  extract (k ++ rest) = (k, rest).
Proof.
  intros Hk Hr. unfold extract.
  destruct (token_cons k Hk) as (c & k' & -> & Hc & Hk').
  rewrite append_cons. cbn [skip_ws]. rewrite Hc. rewrite <- append_cons.
  apply word_no_space; [|by right|done].
  cbn [no_space]. by rewrite Hc, Hk'.
Qed.

Lemma client_resp_command_frame (cmd : string) :
  NetworkClient.resp_command cmd = frame [cmd].
Proof.
  unfold NetworkClient.resp_command, frame, bulk_arg. cbn [encode_args length].
  unfold bulk_arg. by rewrite app_empty_r.
Qed.

(** The request of [NetworkClient::send_command] carries the whole command
    line as one bulk string. When the request holds at most [BUFFER_SIZE]
    bytes and the server finds it whole in the socket, on a connection with
    an empty buffer, it is answered with the reply of [process_command] on
    that line. *)
Theorem client_frame_is_inline_command s (cmd : string) :
  client_buffer s = "" →
  (String.length (NetworkClient.resp_command cmd) ≤ BUFFER_SIZE)%nat →
  handle_client_data (NetworkClient.resp_command cmd) s
  = lift (process_command cmd s).
Proof.
  intros Hb Hl. rewrite client_resp_command_frame in *.
  by rewrite (handle_client_data_frame s [cmd] Hb).
Qed.

Lemma client_frame_is_inline_command_witness :
  handle_client_data (NetworkClient.resp_command "SET k v") (create "")
  = lift (process_command "SET k v" (create "")).
Proof.
  apply (client_frame_is_inline_command (create "") "SET k v").
  - reflexivity.
  - apply Nat.leb_le. vm_compute. reflexivity.
Defined.

(** Beyond the read buffer the request is cut: a command line of 4100
    bytes that starts with '*' leaves its tail in the buffer as an array
    header, and [std::stoi] throws on it. *)
Example long_client_frame_throws :
  let cmd := "*" ++ repeat_char "x" 4100 in
  (BUFFER_SIZE < String.length (NetworkClient.resp_command cmd))%nat ∧
  handle_client_data (NetworkClient.resp_command cmd) (create "") = Throw.
Proof.
  cbv zeta. split; [apply Nat.ltb_lt|]; vm_compute; reflexivity.
Qed.

(** Bytes that do not complete a line stay in the connection's buffer and
    nothing is answered; the next read then sees them in front of its own
    bytes, so a line cut anywhere before the end of its CRLF is handled as
    if it had arrived in one read. *)
Theorem split_line_is_reassembled s (a b : string) :
  find_crlf (client_buffer s ++ a) = None →
  handle_read a s = Ok (with_buffer (client_buffer s ++ a) s, []) ∧
  handle_read b (with_buffer (client_buffer s ++ a) s) = handle_read (a ++ b) s.
Proof.
  intros Hf. split.
  - unfold handle_read. cbn [process_buffer client_buffer with_buffer]. by rewrite Hf.
  - unfold handle_read, with_buffer. cbn [client_buffer storage should_stop].
    by rewrite app_assoc.
Qed.

Lemma split_line_is_reassembled_witness :
  handle_read ("PING" ++ String CR "") (create "")
  = Ok (with_buffer (client_buffer (create "") ++ "PING" ++ String CR "") (create ""), []) ∧
  handle_read newline
    (with_buffer (client_buffer (create "") ++ "PING" ++ String CR "") (create ""))
  = handle_read (("PING" ++ String CR "") ++ newline) (create "").
Proof.
  apply (split_line_is_reassembled (create "") ("PING" ++ String CR "") newline).
  vm_compute. reflexivity.
Defined.

Lemma frame_length args : (1 ≤ String.length (frame args))%nat.
Proof. unfold frame. rewrite append_cons. cbn [String.length]. lia. Qed.

Lemma frames_length l : (length l ≤ String.length (frames l))%nat.
Proof.
  induction l as [|a l IH]; [done|]. cbn [frames length].
  rewrite app_length. pose proof (frame_length a). lia.
Qed.

Lemma process_command_with_buffer cmd b s :
  process_command cmd (with_buffer b s) = lift_buffer b (process_command cmd s).
Proof.
  unfold process_command. destruct (extract cmd) as [c iss].
  destruct (String.eqb (upper c) "PING"); [done|].
  destruct (String.eqb (upper c) "SET").
  { destruct (extract iss) as [k iss1]. destruct (extract iss1) as [v iss2].
    destruct (String.eqb k "" || String.eqb v ""); [done|].
    cbn [storage with_buffer].
    by destruct (StorageEngine.set k v (storage s)) as [[[] e]| |]. }
  destruct (String.eqb (upper c) "GET").
  { destruct (extract iss) as [k iss1].
    destruct (String.eqb k ""); [done|]. cbn [storage with_buffer].
    destruct (StorageEngine.get k (storage s)) as [[v e]| |]; [|done..].
    by destruct (String.eqb v ""). }
  destruct (String.eqb (upper c) "DEL").
  { destruct (extract iss) as [k iss1].
    destruct (String.eqb k ""); [done|]. cbn [storage with_buffer].
    by destruct (StorageEngine.del k (storage s)) as [[[] e]| |]. }
  destruct (String.eqb (upper c) "CLEAR" || String.eqb (upper c) "FLUSHALL"
            || String.eqb (upper c) "FLUSHDB").
  { cbn [storage with_buffer]. by destruct (StorageEngine.writer_idle (storage s)). }
  by destruct (String.eqb (upper c) "EXIT").
Qed.

Lemma with_buffer_id s : with_buffer (client_buffer s) s = s.
Proof. by destruct s. Qed.

Lemma process_buffer_frames l : ∀ fuel s out,
  Forall well_framed l → (length l ≤ fuel)%nat → client_buffer s = frames l →
  process_buffer fuel s out = run_commands (join_args <$> l) (with_buffer "" s) out.
Proof.
  induction l as [|args l IH]; intros fuel s out Hl Hfuel Hb.
  - cbn [frames] in Hb. rewrite <- Hb, with_buffer_id.
    destruct fuel; cbn [process_buffer fmap list_fmap run_commands]; [done|].
    by rewrite Hb.
  - apply Forall_cons in Hl as [(Hne & Hfit & Hlen) Hl]. cbn [length] in Hfuel.
    destruct fuel as [|fuel]; [lia|]. cbn [frames] in Hb.
    rewrite (process_buffer_frame fuel s out args (frames l)) by done.
    cbn [fmap list_fmap run_commands].
    replace (with_buffer (frames l) s) with (with_buffer (frames l) (with_buffer "" s))
      by done.
    rewrite process_command_with_buffer.
    destruct (process_command (join_args args) (with_buffer "" s))
      as [[r s1]| |] eqn:Hp; cbn [lift_buffer]; [|done..].
    rewrite (IH fuel (with_buffer (frames l) s1)); [|done|lia|done].
    replace (with_buffer "" (with_buffer (frames l) s1)) with (with_buffer "" s1) by done.
    apply process_command_buffer in Hp. cbn [client_buffer with_buffer] in Hp.
    by rewrite <- Hp, with_buffer_id.
Qed.



(** The server constructs its engine with the default cache size 1. After a
    SET of one key, the SET of any other key, whatever the writer thread did
    in between, reaches the eviction defect of the cache: the first request
    is answered +OK and the second is undefined behaviour instead of a
    reply. Both requests hold at most [BUFFER_SIZE] bytes, so that one read
    takes each, and their keys and values are not empty and hold no white
    space. *)
Theorem server_second_key_is_UB f (k v k' v' : string) ws :
  token k = true → token v = true → token k' = true → token v' = true →
  (String.length (frame ["SET"; k; v]) ≤ BUFFER_SIZE)%nat →
  (String.length (frame ["SET"; k'; v']) ≤ BUFFER_SIZE)%nat →
  k' ≠ k →
  Forall worker_event ws →
  ∃ s1 s2,
    handle_client_data (frame ["SET"; k; v]) (create f) = Ok (s1, ["+OK" ++ crlf]) ∧
    run_list Server.step ws (s1, []) = Ok (s2, []) ∧
    handle_client_data (frame ["SET"; k'; v']) s2 = UB.
Proof.
  intros Hk Hv Hk' Hv' Hl Hl' Hne Hw.
  rewrite (handle_client_data_frame (create f) ["SET"; k; v]) by done.
  rewrite process_command_set by done.
  unfold StorageEngine.set, StorageEngine.put.
  cbn [create storage StorageEngine.create StorageEngine.cache_].
  destruct (LRUProofs.put_fresh_empty (LRUCache.create 1) k v (LRUProofs.wf_create 1))
    as (c1 & -> & W1 & Hcap).
  cbn [with_storage].
  match goal with |- ∃ s1 s2, Ok (?s0, _) = _ ∧ _ =>
    destruct (worker_steps_cache ws s0 [] Hw) as (s2 & Hr & Hc & Hb); exists s0, s2 end.
  split; [done|]. split; [done|].
  cbn [with_storage storage StorageEngine.cache_ client_buffer create] in Hc, Hb.
  rewrite (handle_client_data_frame s2 ["SET"; k'; v']) by done.
  rewrite process_command_set by done.
  unfold StorageEngine.set, StorageEngine.put. rewrite Hc.
  rewrite (LRUProofs.put_fresh_single_UB c1 _ k' v' W1); [done| |].
  - apply (LRUProofs.wf_lookup_None _ _ _ W1). cbn. intros Hin.
    by apply list_elem_of_singleton in Hin.
  - rewrite Hcap. cbn. lia.
Qed.

Lemma server_second_key_is_UB_witness :
  ∃ s1 s2,
    handle_client_data (frame ["SET"; "key0"; "value0"]) (create "")
    = Ok (s1, ["+OK" ++ crlf]) ∧
    run_list Server.step [WorkerPop; WorkerWrite] (s1, []) = Ok (s2, []) ∧
    handle_client_data (frame ["SET"; "key1"; "value1"]) s2 = UB.
Proof.
  apply (server_second_key_is_UB "" "key0" "value0" "key1" "value1" [WorkerPop; WorkerWrite]).
  - reflexivity.
  - reflexivity.
  - reflexivity.
  - reflexivity.
  - apply Nat.leb_le. vm_compute. reflexivity.
  - apply Nat.leb_le. vm_compute. reflexivity.
  - discriminate.
  - repeat constructor.
Defined.

(** A header whose number [std::stoi] rejects, in the array line [*<num>] or
    in an element line [$<num>], makes [handle_client_data] throw: no reply
    is sent, and the exception leaves [Server::run], which nothing catches
    before [main]. *)
Theorem malformed_count_throws s (num more : string) n args :
  client_buffer s = "" → find_crlf num = None → stoi num = None →
  handle_read ("*" ++ num ++ crlf ++ more) s = Throw ∧
  parse_args (S n) ("$" ++ num ++ crlf ++ more) args = Throw.
Proof.
  intros Hb Hf Hs. split.
  - unfold handle_read. rewrite Hb, append_nil.
    cbn [process_buffer client_buffer with_buffer].
    rewrite append_cons, append_nil.
    assert (Hf' : find_crlf (String "*" num) = None).
    { rewrite find_crlf_cons. destruct num; [done|]. cbn [starts_crlf].
      replace (Ascii.eqb "*" CR) with false by reflexivity. cbn [andb]. by rewrite Hf. }
    change (String "*" (num ++ crlf ++ more)) with (String "*" num ++ crlf ++ more).
    rewrite (find_crlf_app _ more Hf'), substr_to_app. by rewrite Hs.
  - rewrite append_cons, append_nil.
    change (String "$" (num ++ crlf ++ more)) with (String "$" num ++ crlf ++ more).
    rewrite parse_args_step by done. by rewrite Hs.
Qed.

Lemma malformed_count_throws_witness :
  handle_read ("*" ++ "x" ++ crlf ++ "") (create "") = Throw ∧
  parse_args 1 ("$" ++ "x" ++ crlf ++ "") ["GET"] = Throw.
Proof.
  apply (malformed_count_throws (create "") "x" "" 0 ["GET"]).
  - reflexivity.
  - reflexivity.
  - reflexivity.
Defined.

Lemma not_star_match {X} (c : ascii) (A B : X) :
  c ≠ "*"%char → match c with "*"%char => A | _ => B end = B.
Proof.
  intros Hc. destruct c as [[] [] [] [] [] [] [] []]; try reflexivity. by destruct Hc.
Qed.

(** A line that does not start with '*' is a command of its own: on a
    connection with an empty buffer the line and its CRLF are answered with
    the reply of [process_command] on the line. *)
Theorem inline_command_is_processed s (c : ascii) (line : string) :
  client_buffer s = "" → c ≠ "*"%char → find_crlf (String c line) = None →
  handle_read (String c line ++ crlf) s = lift (process_command (String c line) s).
Proof.
  intros Hb Hc Hf. unfold handle_read. rewrite Hb, append_nil.
  assert (E : String c line ++ crlf = String c line ++ crlf ++ "")
    by (by rewrite app_empty_r).
  rewrite E. cbn [process_buffer client_buffer with_buffer].
  rewrite (find_crlf_app _ "" Hf), substr_to_app, substr_from_line.
  replace (with_buffer "" (with_buffer (String c line ++ crlf ++ "") s)) with s
    by (destruct s; cbn in *; by subst).
  rewrite not_star_match by done.
  destruct (process_command (String c line) s) as [[r s']| |] eqn:Hp; [|done..].
  cbn [lift app]. apply process_command_buffer in Hp. rewrite Hb in Hp.
  rewrite append_cons. cbn [String.length process_buffer]. by rewrite Hp.
Qed.

Lemma inline_command_is_processed_witness :
  handle_read (String "P" "ING" ++ crlf) (create "")
  = lift (process_command (String "P" "ING") (create "")).
Proof.
  apply (inline_command_is_processed (create "") "P" "ING").
  - reflexivity.
  - discriminate.
  - reflexivity.
Defined.

Lemma isspace_toupper c : isspace (toupper c) = isspace c.
Proof. destruct c as [[] [] [] [] [] [] [] []]; reflexivity. Qed.

Lemma toupper_idem c : toupper (toupper c) = toupper c.
Proof. destruct c as [[] [] [] [] [] [] [] []]; reflexivity. Qed.

Lemma upper_idem w : upper (upper w) = upper w.
Proof. induction w as [|c w IH]; [done|]. cbn [upper]. by rewrite toupper_idem, IH. Qed.

Lemma token_upper w : token w = true → token (upper w) = true.
Proof.
  unfold token. intros H. apply andb_true_iff in H as [H1 H2].
  apply andb_true_iff. split.
  - by destruct w.
  - clear H1. induction w as [|c w IH]; [done|]. cbn [upper no_space] in *.
    apply andb_true_iff in H2 as [Hc Hw]. by rewrite isspace_toupper, Hc, IH.
Qed.

(** The command word is matched without regard to case: a line whose first
    word is a known command in any mix of cases is run exactly as the line
    with that word in upper case. The rest of the line, keys included, is
    taken as typed. *)
Theorem command_names_ignore_case s (w rest : string) :
  token w = true → known (upper w) = true →
  (rest = "" ∨ ∃ c r, rest = String c r ∧ isspace c = true) →
  process_command (w ++ rest) s = process_command (upper w ++ rest) s.
Proof.
  intros Hw Hk Hr. unfold process_command.
  rewrite !extract_word by (done || by apply token_upper). rewrite upper_idem.
  unfold known in Hk.
  destruct (String.eqb (upper w) "PING"); [done|].
  destruct (String.eqb (upper w) "SET"); [done|].
  destruct (String.eqb (upper w) "GET"); [done|].
  destruct (String.eqb (upper w) "DEL"); [done|].
  destruct (String.eqb (upper w) "CLEAR" || String.eqb (upper w) "FLUSHALL"
            || String.eqb (upper w) "FLUSHDB") eqn:E; [done|].
  destruct (String.eqb (upper w) "EXIT") eqn:E'; [done|].
  cbn in Hk. apply orb_false_iff in E as [E1 E3]. apply orb_false_iff in E1 as [E1 E2].
  rewrite ?E1, ?E2, ?E3, ?E' in Hk. done.
Qed.

Lemma command_names_ignore_case_witness :
  process_command ("get" ++ " Key") (create "")
  = process_command (upper "get" ++ " Key") (create "").
Proof.
  apply (command_names_ignore_case (create "") "get" " Key").
  - reflexivity.
  - reflexivity.
  - right. exists " "%char, "Key". split; reflexivity.
Defined.

End RequestProofs.

(** ** The request of the benchmark client *)

Module BenchmarkProofs.
Import WireSpec RequestSpec StringFacts Server ServerProofs RequestProofs.
Import BenchmarkClient.
Local Open Scope string_scope.

Lemma skip_ws_length s : (String.length (skip_ws s) ≤ String.length s)%nat.
Proof.
  induction s as [|c s IH]; [done|]. cbn [skip_ws].
  destruct (isspace c); cbn [String.length]; lia.
Qed.

Lemma skip_ws_head s :
  skip_ws s = "" ∨ ∃ c r, skip_ws s = String c r ∧ isspace c = false.
Proof.
  induction s as [|c s IH]; [by left|]. cbn [skip_ws].
  destruct (isspace c) eqn:E; [done|]. right. by eexists _, _.
Qed.

Lemma word_spec s :
  no_space (word s).1 = true ∧
  s = (word s).1 ++ (word s).2 ∧
  ((word s).2 = "" ∨ ∃ c r, (word s).2 = String c r ∧ isspace c = true).
Proof.
  induction s as [|c s (IH1 & IH2 & IH3)]; [by split_and!; [..|left]|].
  rewrite word_cons. destruct (isspace c) eqn:E.
  - split_and!; [done|done|]. right. by eexists _, _.
  - destruct (word s) as [w r]. cbn [fst snd no_space] in *. rewrite E.
    split_and!; [done| |done]. rewrite append_cons. by f_equal.
Qed.

Lemma extract_spec s w r :
  extract s = (w, r) →
  no_space w = true ∧
  (String.length w + String.length r ≤ String.length s)%nat ∧
  (r = "" ∨ ∃ c r', r = String c r' ∧ isspace c = true) ∧
  (w = "" → r = "").
Proof.
  unfold extract. intros E. destruct (word_spec (skip_ws s)) as (H1 & H2 & H3).
  rewrite E in H1, H2, H3. cbn [fst snd] in *.
  split; [done|]. split.
  { pose proof (skip_ws_length s) as Hl. rewrite H2, app_length in Hl. lia. }
  split; [done|]. intros ->. rewrite append_nil in H2.
  destruct (skip_ws_head s) as [Hs|(c & r' & Hs & Hc)].
  - by rewrite <- H2.
  - rewrite Hs in H2. subst r. destruct H3 as [|(c' & r'' & [= <- <-] & Hc')]; [done|].
    congruence.
Qed.

Lemma extract_nil : extract "" = ("", "").
Proof. reflexivity. Qed.

Lemma read_args_tokens fuel : ∀ s, Forall (λ a, token a = true) (read_args fuel s).
Proof.
  induction fuel as [|fuel IH]; intros s; [constructor|]. cbn [read_args].
  destruct (extract s) as [w r] eqn:E. destruct w as [|c w]; [constructor|].
  constructor; [|apply IH]. destruct (extract_spec _ _ _ E) as (Hn & _).
  unfold token. by rewrite Hn.
Qed.

Lemma read_args_lengths fuel : ∀ s,
  Forall (λ a, (String.length a ≤ String.length s)%nat) (read_args fuel s) ∧
  (length (read_args fuel s) ≤ String.length s)%nat.
Proof.
  induction fuel as [|fuel IH]; intros s; [split; [constructor|cbn; lia]|].
  cbn [read_args]. destruct (extract s) as [w r] eqn:E.
  destruct (extract_spec _ _ _ E) as (_ & Hl & _).
  destruct w as [|c w]; [split; [constructor|cbn; lia]|].
  destruct (IH r) as [IH1 IH2]. cbn [String.length length] in *. split.
  - constructor; [cbn [String.length]; lia|].
    eapply Forall_impl; [exact IH1|]. cbn. intros a Ha. lia.
  - lia.
Qed.

Lemma first3_read_args s fuel :
  (String.length s < fuel)%nat → first3 s = heads (read_args fuel s).
Proof.
  intros Hf. unfold first3, heads.
  destruct fuel as [|f1]; [lia|]. cbn [read_args].
  destruct (extract s) as [a r1] eqn:E1.
  destruct (extract_spec _ _ _ E1) as (_ & L1 & _ & Z1).
  destruct a as [|ca a].
  { rewrite (Z1 eq_refl), extract_nil. done. }
  cbn [String.length] in L1.
  destruct f1 as [|f2]; [lia|]. cbn [read_args].
  destruct (extract r1) as [b r2] eqn:E2.
  destruct (extract_spec _ _ _ E2) as (_ & L2 & _ & Z2).
  destruct b as [|cb b].
  { rewrite (Z2 eq_refl), extract_nil. done. }
  cbn [String.length] in L2.
  destruct f2 as [|f3]; [lia|]. cbn [read_args].
  destruct (extract r2) as [d r3] eqn:E3.
  by destruct d.
Qed.

Lemma fold_join (l : list string) (a t : string) :
  fold_left (λ c x, c ++ " " ++ x) l (a ++ t) = a ++ fold_left (λ c x, c ++ " " ++ x) l t.
Proof.
  revert t. induction l as [|x l IH]; intros t; [done|]. cbn [fold_left].
  by rewrite app_assoc, IH.
Qed.

Lemma join_args_cons (a b : string) l :
  join_args (a :: b :: l) = a ++ String " " (join_args (b :: l)).
Proof.
  unfold join_args. cbn [fold_left]. rewrite fold_join.
  f_equal. by rewrite (fold_join l " " b).
Qed.

Lemma extract_join (a : string) l :
  token a = true →
  extract (join_args (a :: l))
  = (a, match l with [] => "" | b :: l' => String " " (join_args (b :: l')) end).
Proof.
  intros Ha. destruct l as [|b l].
  - cbn [join_args fold_left]. rewrite <- (app_empty_r a) at 1.
    apply extract_word; [done|by left].
  - rewrite join_args_cons. apply extract_word; [done|]. right. by eexists _, _.
Qed.

Lemma extract_space (s : string) : extract (String " " s) = extract s.
Proof. reflexivity. Qed.

Lemma first3_join l :
  Forall (λ a, token a = true) l → l ≠ [] → first3 (join_args l) = heads l.
Proof.
  intros Hl Hne. unfold first3, heads.
  destruct l as [|a l]; [done|]. apply Forall_cons in Hl as [Ha Hl].
  rewrite extract_join by done. cbn [nth].
  destruct l as [|b l]; [by rewrite extract_nil|]. apply Forall_cons in Hl as [Hb Hl].
  rewrite extract_space, extract_join by done. cbn [nth].
  destruct l as [|d l]; [by rewrite extract_nil|]. apply Forall_cons in Hl as [Hd Hl].
  rewrite extract_space, extract_join by done. done.
Qed.

Lemma process_command_first3 c1 c2 s :
  first3 c1 = first3 c2 → process_command c1 s = process_command c2 s.
Proof.
  unfold first3, process_command.
  destruct (extract c1) as [a1 r1], (extract r1) as [b1 r1'], (extract r1') as [d1 ?].
  destruct (extract c2) as [a2 r2], (extract r2) as [b2 r2'], (extract r2') as [d2 ?].
  by intros [= -> -> ->].
Qed.

Lemma fold_bulk args : ∀ resp : string,
  fold_left
    (λ resp arg, resp ++ "$" ++ to_string (String.length arg) ++ crlf ++ arg ++ crlf)
    args resp
  = resp ++ encode_args args.
Proof.
  induction args as [|a args IH]; intros resp; cbn [fold_left encode_args].
  - by rewrite app_empty_r.
  - rewrite IH. unfold bulk_arg. by rewrite !app_assoc.
Qed.

Lemma benchmark_resp_command_frame (command : string) :
  resp_command command = frame (read_args (S (String.length command)) command).
Proof.
  unfold resp_command, frame. rewrite fold_bulk. by rewrite !app_assoc.
Qed.

(** The request of [BenchmarkClient::send_command] holds the words of the
    command line as separate bulk strings. When the request holds at most
    [BUFFER_SIZE] bytes and the server finds it whole in the socket, on a
    connection with an empty buffer: for a line with at least one word the
    server answers it with the reply of [process_command] on the line
    itself, whatever white space the line had; for a line without a word the
    request has no element and the server sends no reply at all. *)
Theorem benchmark_request_runs_the_command_line s (command : string) :
  client_buffer s = "" →
  (String.length (resp_command command) ≤ BUFFER_SIZE)%nat →
  handle_client_data (resp_command command) s =
  match read_args (S (String.length command)) command with
  | [] => Ok (s, [])
  | _ :: _ => lift (process_command command s)
  end.
Proof.
  intros Hb Hl. rewrite benchmark_resp_command_frame in *.
  pose proof (read_args_tokens (S (String.length command)) command) as Htok.
  pose proof (first3_read_args command (S (String.length command))) as H3.
  destruct (read_args (S (String.length command)) command) as [|a l].
  - rewrite handle_client_data_one_read; [|by unfold frame; rewrite append_cons|done].
    unfold handle_read. rewrite Hb. cbn. by destruct s; cbn in *; subst.
  - rewrite (handle_client_data_frame s (a :: l) Hb) by done.
    rewrite (process_command_first3 (join_args (a :: l)) command); [done|].
    rewrite first3_join by done. rewrite H3; [done|cbn [length]; lia].
Qed.

Lemma benchmark_request_runs_the_command_line_witness :
  handle_client_data (resp_command "  SET   key0 value0 ") (create "") =
  match read_args (S (String.length "  SET   key0 value0 ")) "  SET   key0 value0 " with
  | [] => Ok (create "", [])
  | _ :: _ => lift (process_command "  SET   key0 value0 " (create ""))
  end.
Proof.
  apply (benchmark_request_runs_the_command_line (create "") "  SET   key0 value0 ").
  - reflexivity.
  - apply Nat.leb_le. vm_compute. reflexivity.
Defined.

End BenchmarkProofs.

(** ** Replies and the client's parser *)

Module ReplyProofs.
Import WireSpec RequestSpec StringFacts Server NetworkClient ServerProofs DiskProofs.
Local Open Scope string_scope.

Lemma encode_resp_typed r : typed r = true → encode_resp r = r.
Proof. unfold typed, encode_resp. by intros ->. Qed.

Lemma typed_encode_resp r : typed (encode_resp r) = true.
Proof.
  unfold encode_resp. fold (typed r). destruct (typed r) eqn:E; [done|].
  by repeat case_match.
Qed.

(** [encode_resp] leaves alone what it has encoded: every result starts with
    one of the type bytes + - : $ *, and such a string is returned as it
    is. *)
Theorem encode_resp_idempotent r :
  typed (encode_resp r) = true ∧ encode_resp (encode_resp r) = encode_resp r.
Proof. split; [apply typed_encode_resp|apply encode_resp_typed, typed_encode_resp]. Qed.

(** Every reply [process_command] returns is already in the form of the
    protocol: [encode_resp] would not change it, and it ends with CRLF. *)
Theorem replies_are_encoded cmd s r s' :
  process_command cmd s = Ok (r, s') →
  encode_resp r = r ∧ ∃ body, r = body ++ crlf.
Proof.
  unfold process_command. destruct (extract cmd) as [c iss].
  destruct (String.eqb (upper c) "PING").
  { intros [= <- <-]. split; [done|]. by exists "+PONG". }
  destruct (String.eqb (upper c) "SET").
  { destruct (extract iss) as [k iss1]. destruct (extract iss1) as [v iss2].
    destruct (String.eqb k "" || String.eqb v "").
    { intros [= <- <-]. split; [done|]. by eexists. }
    destruct (StorageEngine.set k v (storage s)) as [[[] e]| |]; [| |done..];
      intros [= <- <-]; (split; [done|]); by eexists. }
  destruct (String.eqb (upper c) "GET").
  { destruct (extract iss) as [k iss1].
    destruct (String.eqb k "").
    { intros [= <- <-]. split; [done|]. by eexists. }
    destruct (StorageEngine.get k (storage s)) as [[v e]| |]; [|done..].
    destruct (String.eqb v ""); intros [= <- <-].
    - split; [done|]. by eexists.
    - split; [done|]. unfold bulk.
      exists ("$" ++ to_string (String.length v) ++ crlf ++ v).
      by rewrite !app_assoc. }
  destruct (String.eqb (upper c) "DEL").
  { destruct (extract iss) as [k iss1].
    destruct (String.eqb k "").
    { intros [= <- <-]. split; [done|]. by eexists. }
    destruct (StorageEngine.del k (storage s)) as [[[] e]| |]; [| |done..];
      intros [= <- <-]; (split; [done|]); by eexists. }
  destruct (String.eqb (upper c) "CLEAR" || String.eqb (upper c) "FLUSHALL"
            || String.eqb (upper c) "FLUSHDB").
  { destruct (StorageEngine.writer_idle (storage s)); [|done].
    intros [= <- <-]. split; [done|]. by eexists. }
  destruct (String.eqb (upper c) "EXIT"); intros [= <- <-].
  - split; [done|]. by eexists.
  - split; [done|]. exists ("-ERR unknown command '" ++ c ++ "'").
    by rewrite !app_assoc.
Qed.

Lemma replies_are_encoded_witness :
  encode_resp ("-ERR unknown command 'HELLO'" ++ crlf)
  = "-ERR unknown command 'HELLO'" ++ crlf ∧
  ∃ body, "-ERR unknown command 'HELLO'" ++ crlf = body ++ crlf.
Proof.
  apply (replies_are_encoded "HELLO world" (create "")
           ("-ERR unknown command 'HELLO'" ++ crlf) (create "")).
  vm_compute. reflexivity.
Defined.

Lemma digits_app s : ∀ acc (rest : string),
  all_digits s = true →
  match rest with String c _ => isdigit c = false | EmptyString => True end →
  digits acc (s ++ rest) = digits acc s ∧ skip_digits (s ++ rest) = rest.
Proof.
  induction s as [|c s IH]; intros acc rest Hs Hr.
  - rewrite append_nil. destruct rest as [|c r]; [done|]. cbn. by rewrite Hr.
  - cbn [all_digits] in Hs. apply andb_true_iff in Hs as [Hc Hs].
    rewrite append_cons. cbn [digits skip_digits]. rewrite Hc. by apply IH.
Qed.

Lemma digits_to_string n : digits 0 (to_string n) = Z.of_nat n.
Proof.
  unfold to_string. rewrite digits_of_uint by done.
  change (Nat.of_uint_acc (Nat.to_uint n) (Z.to_nat 0)) with (Nat.of_uint (Nat.to_uint n)).
  by rewrite Unsigned.of_to.
Qed.

Lemma extract_int_to_string n (rest : string) :
  (Z.of_nat n <= INT_MAX)%Z →
  match rest with String c _ => isdigit c = false | EmptyString => True end →
  extract_int (to_string n ++ rest) = Some (Z.of_nat n, true, rest).
Proof.
  intros Hn Hr. unfold extract_int.
  pose proof (to_string_all_digits n) as Hd. pose proof (to_string_nonempty n) as Hne.
  destruct (digits_app (to_string n) 0 rest Hd Hr) as [Hv Hrest].
  rewrite digits_to_string in Hv.
  destruct (to_string n) as [|c s] eqn:E; [done|].
  cbn [all_digits] in Hd. apply andb_true_iff in Hd as [Hc Hs].
  rewrite append_cons in *. cbn [skip_ws]. rewrite (isdigit_not_space c Hc).
  assert (Ascii.eqb c "-" = false) as ->.
  { destruct (Ascii.eqb_spec c "-") as [->|]; [|done]. by vm_compute in Hc. }
  assert (Ascii.eqb c "+" = false) as ->.
  { destruct (Ascii.eqb_spec c "+") as [->|]; [|done]. by vm_compute in Hc. }
  rewrite Hc, Hv, Hrest.
  destruct (Z.ltb_spec (Z.of_nat n) INT_MIN) as [H|_]; [unfold INT_MIN in H; lia|].
  by destruct (Z.ltb_spec INT_MAX (Z.of_nat n)) as [H|_]; [lia|].
Qed.

(** Replies without a number: with nothing but white space after the type
    byte the [int] is read uninitialised; with another character 0 is stored
    and the stream fails. *)
Example reply_without_number :
  parse_response (":" ++ crlf) = UB ∧ parse_response "$" = UB ∧
  parse_response (":x" ++ crlf) = Ok "0" ∧ parse_response ("$x" ++ crlf) = Ok "".
Proof. split_and!; reflexivity. Qed.

Lemma getline_app c (s rest : string) :
  find_char c s = None → getline c (s ++ String c rest) = s.
Proof.
  intros H. unfold getline. rewrite (find_char_app_first c s rest H).
  apply substr_to_app.
Qed.

(** [parse_response] decodes what the server encodes: the bulk reply of a
    value without carriage return gives the value back, the nil reply gives
    NULL, and an integer reply gives its decimal digits. *)
Theorem client_decodes_bulk_and_integer (v : string) n :
  find_char CR v = None → (Z.of_nat (String.length v) <= INT_MAX)%Z →
  (Z.of_nat n <= INT_MAX)%Z →
  parse_response (bulk v) = Ok v ∧
  parse_response ("$-1" ++ crlf) = Ok "NULL" ∧
  parse_response (":" ++ to_string n ++ crlf) = Ok (to_string n).
Proof.
  intros Hv Hlen Hn. split; [|split; [reflexivity|]].
  - unfold bulk, parse_response. rewrite append_cons, append_nil. cbn [skip_ws].
    replace (isspace "$") with false by reflexivity.
    replace (Ascii.eqb "$" "+") with false by reflexivity.
    replace (Ascii.eqb "$" "-") with false by reflexivity.
    replace (Ascii.eqb "$" ":") with false by reflexivity.
    replace (Ascii.eqb "$" "$") with true by reflexivity.
    rewrite extract_int_to_string by done.
    destruct (Z.eqb_spec (Z.of_nat (String.length v)) (-1)) as [H|_]; [lia|].
    f_equal. change (substr_from 2 (crlf ++ v ++ crlf)) with (v ++ crlf).
    by apply getline_app.
  - unfold parse_response. rewrite append_cons, append_nil. cbn [skip_ws].
    replace (isspace ":") with false by reflexivity.
    replace (Ascii.eqb ":" "+") with false by reflexivity.
    replace (Ascii.eqb ":" "-") with false by reflexivity.
    replace (Ascii.eqb ":" ":") with true by reflexivity.
    rewrite extract_int_to_string by done.
    unfold to_string_int. destruct (Z.ltb_spec (Z.of_nat n) 0) as [H|_]; [lia|].
    by rewrite Nat2Z.id.
Qed.

Lemma client_decodes_bulk_and_integer_witness :
  parse_response (bulk "a b=c") = Ok "a b=c" ∧
  parse_response ("$-1" ++ crlf) = Ok "NULL" ∧
  parse_response (":" ++ to_string 1 ++ crlf) = Ok (to_string 1).
Proof.
  apply (client_decodes_bulk_and_integer "a b=c" 1).
  - reflexivity.
  - vm_compute. discriminate.
  - vm_compute. discriminate.
Defined.

(** For a status or an error reply [parse_response] reads up to the line
    feed only, so the text it returns ends with the carriage return of the
    reply: +OK gives OK followed by a carriage return. *)
Theorem client_keeps_carriage_return (line : string) :
  find_char LF line = None →
  parse_response ("+" ++ line ++ crlf) = Ok (line ++ String CR "") ∧
  parse_response ("-" ++ line ++ crlf) = Ok ("Error: " ++ line ++ String CR "").
Proof.
  intros Hl.
  assert (Hg : getline LF (line ++ crlf) = line ++ String CR "").
  { unfold getline.
    replace (line ++ crlf) with ((line ++ String CR "") ++ String LF "")
      by (by rewrite app_assoc).
    rewrite (find_char_app_first LF (line ++ String CR "") ""); [apply substr_to_app|].
    by apply find_char_app_None. }
  split; unfold parse_response; rewrite append_cons, append_nil; cbn [skip_ws].
  - replace (isspace "+") with false by reflexivity.
    replace (Ascii.eqb "+" "+") with true by reflexivity. by rewrite Hg.
  - replace (isspace "-") with false by reflexivity.
    replace (Ascii.eqb "-" "+") with false by reflexivity.
    replace (Ascii.eqb "-" "-") with true by reflexivity. by rewrite Hg.
Qed.

Lemma client_keeps_carriage_return_witness :
  parse_response ("+" ++ "OK" ++ crlf) = Ok ("OK" ++ String CR "") ∧
  parse_response ("-" ++ "OK" ++ crlf) = Ok ("Error: " ++ "OK" ++ String CR "").
Proof.
  apply (client_keeps_carriage_return "OK"). reflexivity.
Defined.

End ReplyProofs.

(** ** The engine of part-a as a map *)

Module PartAMapProofs.
Import StringFacts PartA PartASpec PartAProofs PartAMap.
Local Open Scope string_scope.

Lemma within_limits_short k v : within_limits k v → short k ∧ short v.
Proof.
  unfold within_limits, short, MAX_KEY_SIZE, MAX_VALUE_SIZE. lia.
Qed.

Lemma evict_subseteq n : ∀ order d, (evict n order d).2 ⊆ d.
Proof.
  induction n as [|n IH]; intros order d; [done|].
  destruct order as [|oldest order]; [done|]. cbn [evict].
  etrans; [apply IH|]. apply delete_subseteq.
Qed.

Lemma holds_init : holds init ∅.
Proof. split; [done|]. split; [done|]. intros k. by rewrite lookup_empty. Qed.

Lemma holds_set k v s m :
  holds s m → within_limits k v →
  (set k v s).1 = true ∧ holds (set k v s).2 (<[k := v]> m).
Proof.
  intros (Hwb & Hsub & Hidx) Hlim.
  destruct (within_limits_short k v Hlim) as [Hk Hv].
  unfold set. rewrite Hwb.
  set (d := <[k := v]> (data_ s)).
  set (order := (access_order s ++ [k])%list).
  assert (Hd : d ⊆ <[k := v]> m) by (by apply insert_mono).
  pose proof (evict_subseteq (N.to_nat (MAX_CACHE_SIZE / 5)) order d) as He.
  destruct (if (MAX_CACHE_SIZE <? N.of_nat (base.size d))%N
            then evict (N.to_nat (MAX_CACHE_SIZE / 5)) order d
            else (order, d)) as [order' d'] eqn:E.
  assert (Hd' : d' ⊆ <[k := v]> m).
  { destruct (MAX_CACHE_SIZE <? N.of_nat (base.size d))%N.
    - rewrite E in He. cbn in He. by etrans.
    - by injection E as <- <-. }
  cbn [fst snd app flush_write_buffer write_buffer flush_entries data_file disk_index
       data_ access_order].
  split; [done|]. split; [done|]. split; [done|].
  cbn [disk_index data_file]. intros k'.
  rewrite write_entry_record by done.
  destruct (decide (k' = k)) as [->|Hne].
  - rewrite lookup_insert_eq. exists v, (data_file s), "".
    rewrite lookup_insert_eq, app_empty_r. done.
  - rewrite lookup_insert_ne by done. specialize (Hidx k').
    destruct (disk_index s !! k') as [e|].
    + destruct Hidx as (v' & pre & rest & Hm & Hl & Hf & Ho).
      exists v', pre, (rest ++ record k v). rewrite lookup_insert_ne by done.
      split; [done|]. split; [done|]. split; [|done].
      by rewrite Hf, !app_assoc.
    + by rewrite lookup_insert_ne.
Qed.

Lemma holds_get k s m :
  holds s m → (get k s).1 = default "" (m !! k) ∧ holds (get k s).2 m.
Proof.
  intros (Hwb & Hsub & Hidx). unfold get.
  destruct (data_ s !! k) as [v|] eqn:Hd.
  - rewrite (lookup_weaken _ _ _ _ Hd Hsub). split; [done|]. done.
  - specialize (Hidx k) as Hk. destruct (disk_index s !! k) as [e|] eqn:He.
    + destruct Hk as (v & pre & rest & Hm & [Hlk Hlv] & Hf & Ho).
      rewrite Hf, Ho, read_record_written by done. rewrite Hm.
      split; [done|]. split; [done|]. split.
      * cbn [data_]. apply insert_subseteq_l; done.
      * cbn [disk_index data_file]. by rewrite <- Hf.
    + rewrite Hk. split; [done|]. done.
Qed.

Lemma holds_del k s m :
  holds s m →
  (del k s).1 = bool_decide (is_Some (m !! k)) ∧ holds (del k s).2 (delete k m).
Proof.
  intros (Hwb & Hsub & Hidx). unfold del.
  specialize (Hidx k) as Hk.
  assert (Hdel : holds (mk (delete k (data_ s)) (list_remove k (access_order s))
                          (pending_writes s) (delete k (disk_index s))
                          (write_buffer s) (data_file s)) (delete k m)).
  { split; [done|]. split; [by apply delete_mono|]. cbn [disk_index data_file].
    intros k'. destruct (decide (k' = k)) as [->|Hne].
    - by rewrite !lookup_delete_eq.
    - rewrite !lookup_delete_ne by done. apply Hidx. }
  destruct (data_ s !! k) as [v|] eqn:Hd.
  - split; [|done]. cbn [fst]. symmetry. apply bool_decide_eq_true.
    rewrite (lookup_weaken _ _ _ _ Hd Hsub). eauto.
  - destruct (disk_index s !! k) as [e|] eqn:He.
    + destruct Hk as (v & _ & _ & Hm & _).
      split; [|done]. cbn [fst]. symmetry. apply bool_decide_eq_true. rewrite Hm. eauto.
    + split.
      * cbn [fst]. symmetry. apply bool_decide_eq_false. rewrite Hk. by intros [? ?].
      * rewrite delete_id by done. done.
Qed.

Lemma holds_force_flush s m : holds s m → force_flush s = s.
Proof. intros (Hwb & _). unfold force_flush, flush_write_buffer. by rewrite Hwb. Qed.

Lemma holds_exec o s m :
  holds s m → bounded o →
  (exec o s).1 = (map_exec o m).1 ∧ holds (exec o s).2 (map_exec o m).2.
Proof.
  intros H Hb. destruct o as [k v|k|k| |]; cbn [exec map_exec fst snd].
  - destruct (holds_set k v s m H Hb) as [E H']. destruct (set k v s) as [b s'].
    cbn in *. by subst.
  - destruct (holds_get k s m H) as [E H']. destruct (get k s) as [x s'].
    cbn in *. by subst.
  - destruct (holds_del k s m H) as [E H']. destruct (del k s) as [b s'].
    cbn in *. by subst.
  - split; [done|]. apply holds_init.
  - by rewrite (holds_force_flush s m H).
Qed.

Lemma holds_run ops : ∀ s m,
  holds s m → Forall bounded ops →
  (run ops s).1 = (map_run ops m).1 ∧ holds (run ops s).2 (map_run ops m).2.
Proof.
  induction ops as [|o ops IH]; intros s m H Hb; [done|].
  apply Forall_cons in Hb as [Ho Hb]. cbn [run map_run].
  destruct (holds_exec o s m H Ho) as [E H'].
  destruct (exec o s) as [r s1]. destruct (map_exec o m) as [r' m1]. cbn in E, H'.
  destruct (IH s1 m1 H' Hb) as [E2 H2].
  destruct (run ops s1) as [rs s2]. destruct (map_run ops m1) as [rs' m2].
  cbn in *. by subst.
Qed.

(** With keys of at most 256 bytes and values of at most 1024 bytes, the
    engine of part-a started on empty files answers every sequence of
    [set], [get], [del], [clear] and [force_flush] as a finite map would:
    [get] returns the value of the last [set] of the key that no [del] or
    [clear] followed, or the empty string, whether the cache still holds the
    key or the record has to be read from the log. *)
Theorem part_a_refines_map ops :
  Forall bounded ops → (run ops init).1 = (map_run ops ∅).1.
Proof. intros Hb. by destruct (holds_run ops init ∅ holds_init Hb). Qed.

Lemma part_a_refines_map_witness :
  (run sample_run init).1 = (map_run sample_run ∅).1.
Proof.
  apply (part_a_refines_map sample_run).
  repeat constructor; vm_compute; discriminate.
Defined.

(** [size()] adds the number of cached keys to the number of indexed keys,
    and every cached key is indexed too: for a store of n keys it returns n
    plus the number of keys in the cache, between n and 2n. *)
Theorem size_counts_cached_keys_twice ops :
  Forall bounded ops →
  let s := (run ops init).2 in
  let m := (map_run ops ∅).2 in
  PartA.size s = (base.size (data_ s) + base.size m)%nat ∧
  (base.size m ≤ PartA.size s ≤ 2 * base.size m)%nat.
Proof.
  intros Hb s m. destruct (holds_run ops init ∅ holds_init Hb) as [_ (_ & Hsub & Hidx)].
  fold s m in Hsub, Hidx.
  assert (Hdom : dom (disk_index s) = dom m).
  { apply set_eq. intros k. rewrite !elem_of_dom. specialize (Hidx k).
    destruct (disk_index s !! k) as [e|].
    - destruct Hidx as (v & _ & _ & -> & _). split; eauto.
    - rewrite Hidx. split; intros [? ?]; done. }
  assert (Hsz : base.size (disk_index s) = base.size m).
  { by rewrite <- !size_dom, Hdom. }
  pose proof (map_subseteq_size _ _ Hsub).
  unfold PartA.size. rewrite Hsz. lia.
Qed.

Lemma size_counts_cached_keys_twice_witness :
  let s := (run [DoSet "k" "v"] init).2 in
  let m := (map_run [DoSet "k" "v"] ∅).2 in
  PartA.size s = (base.size (data_ s) + base.size m)%nat ∧
  (base.size m ≤ PartA.size s ≤ 2 * base.size m)%nat.
Proof.
  apply (size_counts_cached_keys_twice [DoSet "k" "v"]).
  repeat constructor; vm_compute; discriminate.
Defined.

Example one_key_has_size_two : PartA.size (run [DoSet "k" "v"] init).2 = 2%nat.
Proof. reflexivity. Qed.

Lemma read_record_oversize pre k v rest :
  short k → short v →
  (MAX_KEY_SIZE < N.of_nat (String.length k))%N
  ∨ (MAX_VALUE_SIZE < N.of_nat (String.length v))%N →
  read_record (pre ++ record k v ++ rest) (String.length pre) k = None.
Proof.
  intros Hk Hv Hbig.
  destruct (record_reads pre k v rest (String.length pre))
    as (E1 & E2 & E3 & E4 & _); [done..|].
  unfold read_record. rewrite E1.
  destruct (N.ltb_spec MAX_KEY_SIZE (N.of_nat (String.length k))) as [|Hk']; [done|].
  rewrite E2, String.eqb_refl. cbn [negb]. rewrite E3.
  destruct (N.ltb_spec MAX_VALUE_SIZE (N.of_nat (String.length v))) as [|Hv']; [done|].
  lia.
Qed.

Lemma set_index k v s :
  write_buffer s = [] →
  disk_index (set k v s).2 !! k
  = Some (DiskEntry.mk (String.length (data_file s))
            (String.length (data_file s ++ write_entry k v)
             - String.length (data_file s))).
Proof.
  intros Hwb. unfold set. rewrite Hwb.
  destruct (if (MAX_CACHE_SIZE <? _)%N then _ else _) as [order d].
  cbn [snd app flush_write_buffer write_buffer flush_entries disk_index data_file].
  apply lookup_insert_eq.
Qed.

Lemma set_index_other k k' v s :
  write_buffer s = [] → k' ≠ k →
  disk_index (set k' v s).2 !! k = disk_index s !! k.
Proof.
  intros Hwb Hne. unfold set. rewrite Hwb.
  destruct (if (MAX_CACHE_SIZE <? _)%N then _ else _) as [order d].
  cbn [snd app flush_write_buffer write_buffer flush_entries disk_index data_file].
  by apply lookup_insert_ne.
Qed.

Lemma disk_index_get k s : disk_index (get k s).2 = disk_index s.
Proof.
  unfold get. destruct (data_ s !! k); [done|].
  destruct (disk_index s !! k) as [e|]; [|done].
  by destruct (read_record _ _ _).
Qed.

Lemma indexed_set k v s :
  write_buffer s = [] → short k → short v → indexed k v (set k v s).2.
Proof.
  intros Hwb Hk Hv. destruct (set_appends k v s Hwb) as [Hf Hwb'].
  split; [done|]. eexists _, (data_file s), "".
  split; [by apply set_index|]. rewrite Hf, write_entry_record by done.
  by rewrite app_empty_r.
Qed.

Lemma indexed_exec k v o s :
  indexed k v s → keeps_record k o = true → indexed k v (exec o s).2.
Proof.
  intros (Hwb & e & pre & rest & Hi & Hf & Ho) Hk.
  destruct o as [k' v'|k'|k'| |]; cbn [exec keeps_record] in *.
  - apply negb_true_iff, String.eqb_neq in Hk.
    destruct (set_appends k' v' s Hwb) as [Hf' Hwb'].
    pose proof (set_index_other k k' v' s Hwb Hk) as Hi'.
    destruct (set k' v' s) as [b s']. cbn [snd] in *.
    split; [done|]. exists e, pre, (rest ++ write_entry k' v').
    split; [by rewrite Hi'|]. split; [|done]. by rewrite Hf', Hf, !app_assoc.
  - pose proof (write_buffer_get k' s Hwb). pose proof (data_file_get k' s).
    pose proof (disk_index_get k' s).
    destruct (get k' s) as [x s']. cbn [snd] in *.
    split; [done|]. exists e, pre, rest. by rewrite H0, H1.
  - apply negb_true_iff, String.eqb_neq in Hk. unfold del.
    destruct (data_ s !! k'), (disk_index s !! k'); cbn [snd];
      (split; [done|]); exists e, pre, rest;
      cbn [disk_index data_file]; rewrite ?lookup_delete_ne by done; done.
  - done.
  - unfold force_flush, flush_write_buffer. rewrite Hwb.
    split; [done|]. by exists e, pre, rest.
Qed.

Lemma indexed_run k v ops : ∀ s,
  indexed k v s → forallb (keeps_record k) ops = true → indexed k v (run ops s).2.
Proof.
  induction ops as [|o ops IH]; intros s H Hk; [done|].
  cbn [forallb] in Hk. apply andb_true_iff in Hk as [Ho Hk]. cbn [run].
  pose proof (indexed_exec k v o s H Ho) as H1.
  destruct (exec o s) as [r s1]. cbn [snd] in H1.
  pose proof (IH s1 H1 Hk) as H2. by destruct (run ops s1).
Qed.

Lemma indexed_unreadable k v s :
  indexed k v s → short k → short v → oversize k v →
  (∃ e, disk_index s !! k = Some e ∧
        read_record (data_file s) (DiskEntry.offset e) k = None) ∧
  (data_ s !! k = None → get k s = ("", s)) ∧
  (get k s).1 = default "" (data_ s !! k).
Proof.
  intros (Hwb & e & pre & rest & Hi & Hf & Ho) Hk Hv Hbig.
  assert (Hr : read_record (data_file s) (DiskEntry.offset e) k = None).
  { rewrite Hf, Ho. by apply read_record_oversize. }
  split; [eauto|]. unfold get. rewrite Hi, Hr.
  by destruct (data_ s !! k).
Qed.


(** *** The eviction of [set]

    The cache loses its oldest keys when it grows beyond [MAX_CACHE_SIZE]
    entries: after one [set] of [k] and [MAX_CACHE_SIZE] [set]s of other
    keys, [k] is no longer cached. *)
Lemma data_flush s : data_ (flush_write_buffer s) = data_ s ∧
  access_order (flush_write_buffer s) = access_order s.
Proof.
  unfold flush_write_buffer. destruct (write_buffer s); [done|].
  by destruct (flush_entries _ _ _).
Qed.

Lemma set_cache_small k x s :
  (N.of_nat (base.size (<[k := x]> (data_ s))) ≤ MAX_CACHE_SIZE)%N →
  data_ (set k x s).2 = <[k := x]> (data_ s) ∧
  access_order (set k x s).2 = (access_order s ++ [k])%list.
Proof.
  intros Hsz. unfold set.
  destruct (N.ltb_spec MAX_CACHE_SIZE (N.of_nat (base.size (<[k := x]> (data_ s)))))
    as [H|_]; [lia|].
  cbn [snd]. match goal with |- data_ (flush_write_buffer ?y) = _ ∧ _ =>
    destruct (data_flush y) as [-> ->] end. done.
Qed.

Lemma set_cache_full k x s oldest order :
  (MAX_CACHE_SIZE < N.of_nat (base.size (<[k := x]> (data_ s))))%N →
  access_order s = oldest :: order →
  data_ (set k x s).2 !! oldest = None.
Proof.
  intros Hsz Ho. unfold set.
  destruct (N.ltb_spec MAX_CACHE_SIZE (N.of_nat (base.size (<[k := x]> (data_ s)))))
    as [_|H]; [|lia].
  rewrite Ho.
  destruct (N.to_nat (MAX_CACHE_SIZE / 5)) as [|m] eqn:Em.
  { exfalso. change (MAX_CACHE_SIZE / 5)%N with 2000000%N in Em. lia. }
  cbn [app evict].
  pose proof (evict_subseteq m (order ++ [k])%list (delete oldest (<[k := x]> (data_ s)))) as Hsub.
  destruct (evict m (order ++ [k])%list (delete oldest (<[k := x]> (data_ s)))) as [o' d'].
  cbn [snd] in *.
  match goal with |- data_ (flush_write_buffer ?y) !! _ = _ =>
    destruct (data_flush y) as [-> _] end.
  cbn [data_].
  destruct (d' !! oldest) as [w|] eqn:E; [|done].
  pose proof (lookup_weaken _ _ _ _ E Hsub) as E'. by rewrite lookup_delete_eq in E'.
Qed.

Lemma run_app l1 l2 s : (run (l1 ++ l2) s).2 = (run l2 (run l1 s).2).2.
Proof.
  revert s. induction l1 as [|o l1 IH]; intros s; [done|]. cbn [app run].
  destruct (exec o s) as [r s1]. specialize (IH s1).
  destruct (run (l1 ++ l2) s1), (run l1 s1). cbn [snd] in *. done.
Qed.

Lemma sets_fill keys : ∀ s,
  NoDup keys → (∀ k', k' ∈ keys → data_ s !! k' = None) →
  (base.size (data_ s) + length keys ≤ N.to_nat MAX_CACHE_SIZE)%nat →
  base.size (data_ (run (set_each keys) s).2) = (base.size (data_ s) + length keys)%nat ∧
  access_order (run (set_each keys) s).2 = (access_order s ++ keys)%list ∧
  (∀ k', k' ∉ keys → data_ (run (set_each keys) s).2 !! k' = data_ s !! k').
Proof.
  induction keys as [|k keys IH]; intros s Hnd Hfresh Hsz.
  - cbn. rewrite app_nil_r. split; [lia|done].
  - apply NoDup_cons in Hnd as [Hk Hnd]. cbn [length] in Hsz.
    assert (Hkn : data_ s !! k = None) by (apply Hfresh; by left).
    assert (Hs1 : base.size (<[k := "x"]> (data_ s)) = S (base.size (data_ s)))
      by (by apply map_size_insert_None).
    destruct (set_cache_small k "x" s) as [Hd Ho]; [lia|].
    cbn [set_each map run exec]. fold (set_each keys).
    destruct (set k "x" s) as [b s1]. cbn [snd] in Hd, Ho.
    destruct (IH s1) as (H1 & H2 & H3); [done| |rewrite Hd; lia|].
    { intros k' Hin. rewrite Hd, lookup_insert_ne; [apply Hfresh; by right|].
      intros ->. done. }
    destruct (run (set_each keys) s1) as [rs s2]. cbn [snd] in *.
    split; [rewrite H1, Hd, Hs1; cbn [length]; lia|].
    split; [by rewrite H2, Ho, <- List.app_assoc|].
    intros k' Hin. rewrite H3, Hd by (intros ?; apply Hin; by right).
    apply lookup_insert_ne. intros ->. apply Hin. by left.
Qed.

Lemma eviction_drops_oldest k v keys :
  NoDup (k :: keys) → N.of_nat (length keys) = MAX_CACHE_SIZE →
  data_ (run (set_each keys) (set k v init).2).2 !! k = None.
Proof.
  intros Hnd Hlen. apply NoDup_cons in Hnd as [Hk Hnd].
  destruct (set_cache_small k v init) as [Hd Ho].
  { cbn [data_ init]. rewrite insert_empty, map_size_singleton.
    unfold MAX_CACHE_SIZE. lia. }
  cbn [data_ access_order init app] in Hd, Ho.
  set (s0 := (set k v init).2) in *.
  destruct keys as [|kl keys _] using rev_ind.
  { exfalso. cbn in Hlen. unfold MAX_CACHE_SIZE in Hlen. lia. }
  rewrite length_app in Hlen. cbn [length] in Hlen.
  apply NoDup_app in Hnd as (Hnd & Hdis & _).
  unfold set_each. rewrite map_app. fold (set_each keys). rewrite run_app.
  destruct (sets_fill keys s0) as (H1 & H2 & H3); [done| | |].
  { intros k' Hin. rewrite Hd. rewrite insert_empty. apply lookup_singleton_ne.
    intros ->. apply Hk. apply elem_of_app. by left. }
  { rewrite Hd, insert_empty, map_size_singleton. lia. }
  set (s1 := (run (set_each keys) s0).2) in *.
  cbn [map run exec].
  pose proof (set_cache_full kl "x" s1 k keys) as Hfull.
  destruct (set kl "x" s1) as [b s2]. cbn [snd] in *.
  apply Hfull; [|by rewrite H2, Ho].
  rewrite map_size_insert_None.
  - rewrite H1, Hd, insert_empty, map_size_singleton. lia.
  - rewrite H3 by (intros Hin; by apply (Hdis kl Hin); left).
    rewrite Hd, insert_empty. apply lookup_singleton_ne.
    intros ->. apply Hk. apply elem_of_app. right. by left.
Qed.

Lemma repeat_char_length c n : String.length (WireSpec.repeat_char c n) = n.
Proof. induction n as [|n IH]; [done|]. cbn. by rewrite IH. Qed.

Lemma fresh_keys_length : N.of_nat (length fresh_keys) = MAX_CACHE_SIZE.
Proof. unfold fresh_keys. rewrite length_map, length_seq. lia. Qed.

Lemma fresh_keys_long k' : k' ∈ fresh_keys → (2 ≤ String.length k')%nat.
Proof.
  unfold fresh_keys. intros Hin. apply list_elem_of_fmap in Hin as (i & -> & _).
  rewrite repeat_char_length. lia.
Qed.

Lemma fresh_keys_NoDup : NoDup ("k" :: fresh_keys).
Proof.
  apply NoDup_cons. split.
  - intros Hin. apply fresh_keys_long in Hin. cbn in Hin. lia.
  - unfold fresh_keys. apply NoDup_fmap_2_strong; [|apply NoDup_seq].
    intros i j _ _ E. apply (f_equal String.length) in E.
    rewrite !repeat_char_length in E. lia.
Qed.

Lemma fresh_keys_keep : forallb (keeps_record "k") (set_each fresh_keys) = true.
Proof.
  apply forallb_forall. intros o Hin. unfold set_each in Hin.
  apply in_map_iff in Hin as (k' & <- & Hin). cbn [keeps_record].
  apply negb_true_iff, String.eqb_neq. intros ->.
  apply list_elem_of_In, fresh_keys_long in Hin. cbn in Hin. lia.
Qed.


Lemma flush_entries_appends buf : ∀ f idx,
  ∃ rest, (flush_entries buf f idx).1 = f ++ rest.
Proof.
  induction buf as [|[k v] buf IH]; intros f idx.
  - exists "". by rewrite app_empty_r.
  - cbn [flush_entries]. destruct (IH (f ++ write_entry k v)
      (<[k := DiskEntry.mk (String.length f)
                (String.length (f ++ write_entry k v) - String.length f)]> idx))
      as [rest ->].
    exists (write_entry k v ++ rest). by rewrite app_assoc.
Qed.

Lemma flush_write_buffer_appends s :
  ∃ rest, data_file (flush_write_buffer s) = data_file s ++ rest.
Proof.
  unfold flush_write_buffer. destruct (write_buffer s) as [|e buf] eqn:E.
  - exists "". by rewrite app_empty_r.
  - destruct (flush_entries_appends (e :: buf) (data_file s) (disk_index s)) as [rest Hr].
    destruct (flush_entries (e :: buf) (data_file s) (disk_index s)) as [f idx].
    cbn in *. eauto.
Qed.

Lemma exec_appends o s :
  o ≠ DoClear → ∃ rest, data_file (exec o s).2 = data_file s ++ rest.
Proof.
  intros Hne. destruct o as [k v|k|k| |]; cbn [exec]; [| | |done|].
  - unfold set.
    destruct (if (MAX_CACHE_SIZE <? _)%N then _ else _) as [order d].
    cbn [snd].
    match goal with |- ∃ _, data_file (flush_write_buffer ?x) = _ =>
      exact (flush_write_buffer_appends x) end.
  - pose proof (data_file_get k s). destruct (get k s) as [v s']. cbn in *.
    exists "". by rewrite app_empty_r.
  - pose proof (data_file_del k s). destruct (del k s) as [v s']. cbn in *.
    exists "". by rewrite app_empty_r.
  - apply flush_write_buffer_appends.
Qed.

(** Apart from [clear], no call of the engine of part-a changes a byte that
    is in [data.dat]: after any sequence of [set], [get], [del] and
    [force_flush], from any state, the log starts with the log as it was.
    [del] and a [set] that replaces a value leave the old record where it
    is. *)
Theorem log_only_grows ops : ∀ s,
  Forall (λ o, o ≠ DoClear) ops →
  ∃ rest, data_file (run ops s).2 = data_file s ++ rest.
Proof.
  induction ops as [|o ops IH]; intros s Hops.
  - exists "". by rewrite app_empty_r.
  - apply Forall_cons in Hops as [Ho Hops]. cbn [run].
    destruct (exec_appends o s Ho) as [r1 H1].
    destruct (exec o s) as [r s1]. cbn [snd] in H1.
    destruct (IH s1 Hops) as [r2 H2].
    destruct (run ops s1) as [rs s2]. cbn [snd] in *.
    exists (r1 ++ r2). by rewrite H2, H1, app_assoc.
Qed.

Lemma log_only_grows_witness :
  ∃ rest, data_file (run [DoSet "k" "v"; DoDel "k"; DoGet "k"; DoSet "k" "w"; DoFlush]
                         init).2
          = data_file init ++ rest.
Proof.
  apply (log_only_grows [DoSet "k" "v"; DoDel "k"; DoGet "k"; DoSet "k" "w"; DoFlush] init).
  repeat constructor; discriminate.
Defined.

End PartAMapProofs.

(** ** The REPL of part-a *)

Module ReplProofs.
Import WireSpec StringFacts ServerProofs DiskProofs RequestProofs.
Import PartA PartASpec PartAMap PartAMapProofs Repl.
Local Open Scope string_scope.

Lemma set_returns_true k v s : (set k v s).1 = true.
Proof.
  unfold set. by destruct (if (MAX_CACHE_SIZE <? _)%N then _ else _).
Qed.

Lemma step_set (k v : string) db :
  token k = true → v ≠ "" → find_char LF v = None →
  step ("SET " ++ k ++ " " ++ v) db = Continue ("OK" ++ newline) (set k v db).2.
Proof.
  intros Hk Hv Hlf. unfold step.
  change ("SET " ++ k ++ " " ++ v) with ("SET" ++ String " " (k ++ String " " v)).
  replace (String.eqb ("SET" ++ String " " (k ++ String " " v)) "") with false by done.
  rewrite (extract_word "SET") by (done || right; by eexists _, _).
  replace (String.eqb "SET" "EXIT") with false by done.
  replace (String.eqb "SET" "SET") with true by done.
  rewrite extract_token by (done || right; by eexists _, _).
  assert (getline LF (String " " v) = String " " v) as ->.
  { unfold getline. rewrite find_char_cons.
    replace (Ascii.eqb " " LF) with false by done. by rewrite Hlf. }
  replace (Ascii.eqb " " " ") with true by done.
  rewrite (token_nonempty k Hk).
  assert (String.eqb v "" = false) as -> by (by apply String.eqb_neq).
  cbn [orb]. pose proof (set_returns_true k v db).
  destruct (set k v db) as [ok db']. cbn in *. by subst.
Qed.

Lemma step_get (k : string) db :
  token k = true →
  step ("GET " ++ k) db = Continue ((get k db).1 ++ newline) (get k db).2.
Proof.
  intros Hk. unfold step.
  replace ("GET " ++ k) with ("GET" ++ String " " (k ++ ""))
    by (by rewrite app_empty_r).
  replace (String.eqb ("GET" ++ String " " (k ++ "")) "") with false by done.
  rewrite (extract_word "GET") by (done || right; by eexists _, _).
  replace (String.eqb "GET" "EXIT") with false by done.
  replace (String.eqb "GET" "SET") with false by done.
  replace (String.eqb "GET" "GET") with true by done.
  rewrite extract_token by (done || by left).
  rewrite (token_nonempty k Hk). by destruct (get k db).
Qed.

(** In the REPL the value of SET is the rest of the line after the key, less
    one leading space, so it may hold spaces. After any earlier commands
    within the size limits, the line SET k v, for a key without white space
    and a value within the limits, prints OK, and the line GET k then prints
    the whole of [v]. *)
Theorem repl_set_then_get_prints_value ops (k v : string) :
  Forall bounded ops → within_limits k v →
  token k = true → v ≠ "" → find_char LF v = None →
  let db := (run ops init).2 in
  ∃ db1 db2,
    step ("SET " ++ k ++ " " ++ v) db = Continue ("OK" ++ newline) db1 ∧
    step ("GET " ++ k) db1 = Continue (v ++ newline) db2.
Proof.
  intros Hb Hlim Hk Hv Hlf db.
  destruct (holds_run ops init ∅ holds_init Hb) as [_ H]. fold db in H.
  destruct (holds_set k v db _ H Hlim) as [_ H1].
  destruct (holds_get k _ _ H1) as [Hg _]. rewrite lookup_insert_eq in Hg.
  exists (set k v db).2, (get k (set k v db).2).2.
  split; [by apply step_set|]. rewrite step_get by done. by rewrite Hg.
Qed.

Lemma repl_set_then_get_prints_value_witness :
  let db := (run [DoSet "a" "1"] init).2 in
  ∃ db1 db2,
    step ("SET " ++ "greeting" ++ " " ++ "hello  world") db
    = Continue ("OK" ++ newline) db1 ∧
    step ("GET " ++ "greeting") db1 = Continue ("hello  world" ++ newline) db2.
Proof.
  apply (repl_set_then_get_prints_value [DoSet "a" "1"] "greeting" "hello  world").
  - repeat constructor; vm_compute; discriminate.
  - split; vm_compute; discriminate.
  - reflexivity.
  - discriminate.
  - reflexivity.
Defined.

End ReplProofs.

(** ** Corrupt records *)

Module CorruptionProofs.
Import WireSpec StringFacts.
Import PartA PartASpec.
Local Open Scope string_scope.

(** C8 (amended). In part-a, a [get] that misses the cache and finds the key
    in the index reads the record at the indexed offset. When that record is
    corrupt (the log ends before the record does, the stored key length is
    above 256, the stored value length is above 1024, or the stored key is
    not the requested one) [get] returns the empty string, as it does for a
    key that is not present, and leaves the whole engine state, the log
    included, as it was. The front end of part-a is the REPL, which prints
    the empty string and a newline for GET of a key without white space. The
    nil reply belongs to the server of part-b: [process_command] sends it
    for GET whenever the [get] of its own engine returns the empty string. *)
Theorem corrupt_record_reads_as_absent s key e :
  data_ s !! key = None → disk_index s !! key = Some e →
  corrupt (data_file s) (DiskEntry.offset e) key →
  get key s = ("", s) ∧
  (token key = true →
   Repl.step ("GET " ++ key) s = Repl.Continue newline s ∧
   ∀ srv eng, StorageEngine.get key (Server.storage srv) = Ok ("", eng) →
     Server.process_command (Server.join_args ["GET"; key]) srv
     = Ok ("$-1" ++ crlf, Server.with_storage eng srv)).
Proof.
  intros Hd Hi Hc.
  assert (Hg : get key s = ("", s)).
  { unfold get. by rewrite Hd, Hi, (PartAProofs.read_record_corrupt _ _ _ Hc). }
  split; [done|]. intros Hk. split.
  - rewrite ReplProofs.step_get by done. by rewrite Hg.
  - intros srv eng He. rewrite ServerProofs.process_command_get by done.
    by rewrite He.
Qed.

Lemma corrupt_record_reads_as_absent_witness :
  load_disk_index truncated_index truncated_file = Ok truncated_log ∧
  get "k" truncated_log = ("", truncated_log) ∧
  (token "k" = true →
   Repl.step ("GET " ++ "k") truncated_log = Repl.Continue newline truncated_log ∧
   ∀ srv eng, StorageEngine.get "k" (Server.storage srv) = Ok ("", eng) →
     Server.process_command (Server.join_args ["GET"; "k"]) srv
     = Ok ("$-1" ++ crlf, Server.with_storage eng srv)).
Proof.
  split; [reflexivity|].
  apply (corrupt_record_reads_as_absent truncated_log "k" (DiskEntry.mk 0 10)).
  - reflexivity.
  - reflexivity.
  - apply short_read. vm_compute. lia.
Defined.

(** C8, as stated, fails: no client of part-a receives the nil reply. After
    a start on a log cut inside the record of [k], GET k in the REPL prints
    an empty line, the same as for a key that was never set. *)
Lemma corrupt_read_prints_empty_line :
  load_disk_index truncated_index truncated_file = Ok truncated_log ∧
  corrupt (data_file truncated_log) 0 "k" ∧
  Repl.step "GET k" truncated_log = Repl.Continue newline truncated_log ∧
  Repl.step "GET k" init = Repl.Continue newline init ∧
  newline ≠ "$-1" ++ crlf.
Proof.
  split_and!; [reflexivity| |reflexivity|reflexivity|discriminate].
  apply short_read. vm_compute. lia.
Qed.

End CorruptionProofs.

(** ** The end-to-end scenarios of the specification *)

Module Scenarios.
Import WireSpec Server.
Local Open Scope string_scope.

Example ping : replies "" [Read (frame ["PING"])] = Ok ["+PONG" ++ crlf].
Proof. vm_compute. reflexivity. Qed.

Example set_get :
  replies "" [Read (frame ["SET"; "foo"; "bar"]); Read (frame ["GET"; "foo"])]
  = Ok ["+OK" ++ crlf; "$3" ++ crlf ++ "bar" ++ crlf].
Proof. vm_compute. reflexivity. Qed.

Example delete_twice :
  replies "" [Read (frame ["SET"; "foo"; "bar"]); Read (frame ["DEL"; "foo"]);
              Read (frame ["DEL"; "foo"]); Read (frame ["GET"; "foo"])]
  = Ok ["+OK" ++ crlf; ":1" ++ crlf; ":0" ++ crlf; "$-1" ++ crlf].
Proof. vm_compute. reflexivity. Qed.

Example eviction_capacity_two :
  (fun r => match r with
            | Ok s => Some (LRUCache.recency s, LRUCache.size s)
            | _ => None
            end)
    (LRUSpec.run 2 [LRUSpec.Put "a" "1"; LRUSpec.Put "b" "2"; LRUSpec.Put "c" "3"])
  = Some ([("c", "3"); ("b", "2")], 2%nat).
Proof. vm_compute. reflexivity. Qed.

End Scenarios.
